(** * smtpd/ruleset.c: the two rule matchers of OpenSMTPD

    A shallow embedding of [ruleset_match] (the attribute-bundle rules,
    [struct rule]) and of [ruleset_match_new] (the ordered-criterion rules,
    [struct match]) together with the static helpers they call.

    The C functions write [errno] and call the table backend and the logger.
    They are embedded in a state monad whose state holds [errno] and the
    sequence of backend queries and log lines issued so far, so that "no
    lookup is performed" and "nothing further is evaluated" are statements
    about that sequence. *)

From Stdlib Require Import ZArith List String Bool Lia.
Import ListNotations.
Open Scope string_scope.
Open Scope list_scope.
Open Scope Z_scope.

(** ** Data *)

(** [struct table]: only [t_name] is read here (in the warnings). *)
Record table : Type := { t_name : string }.

(** A [struct table *]; [None] is [NULL]. *)
Definition table_ptr : Type := option table.

(** [enum table_service], the services this file asks for. *)
Inductive table_service : Type :=
| K_NETADDR | K_DOMAIN | K_MAILADDR | K_STRING | K_CREDENTIALS.

(** [struct mailaddr]. *)
Record mailaddr : Type := { user : string; domain : string }.

(** [struct sockaddr_storage]: opaque here, only handed to [ss_to_text]. *)
Record sockaddr_storage : Type := { ss_family : Z; ss_data : list Z }.

(** The fields of [struct envelope] the matchers read. *)
Record envelope : Type := {
  tag    : string;
  flags  : Z;
  helo   : string;
  ss     : sockaddr_storage;
  sender : mailaddr;
  dest   : mailaddr
}.

(** The fields of [struct rule] read by [ruleset_match].  The [r_not...]
    and [r_wantauth] fields are only ever used as truth values. *)
Record rule : Type := {
  r_tag            : string;
  r_nottag         : bool;
  r_wantauth       : bool;
  r_negwantauth    : bool;
  r_sources        : table_ptr;
  r_notsources     : bool;
  r_senders        : table_ptr;
  r_notsenders     : bool;
  r_recipients     : table_ptr;
  r_notrecipients  : bool;
  r_destination    : table_ptr;
  r_notdestination : bool
}.

(** The fields of [struct match] read by [ruleset_match_new].  Each
    criterion is an [int]: zero is absent, positive is present, negative is
    present and negated.  The [..._table] fields are table names
    ([char *], [None] is [NULL]).  The record is [match_] since [match] is
    a keyword, and its field [tag] is [m_tag] since [struct envelope] has a
    [tag] too. *)
Record match_ : Type := {
  m_tag                : Z;
  tag_table            : option string;
  from                 : Z;
  from_socket          : bool;
  from_table           : option string;
  to                   : Z;
  to_table             : option string;
  smtp_helo            : Z;
  smtp_helo_table      : option string;
  smtp_auth            : Z;
  smtp_auth_table      : option string;
  smtp_starttls        : Z;
  smtp_mail_from       : Z;
  smtp_mail_from_table : option string;
  smtp_rcpt_to         : Z;
  smtp_rcpt_to_table   : option string
}.

(** Modelled from the spec: [enum envelope_flags] is declared in smtpd.h,
    which is not part of the sources at hand.  The spec only says that the
    session flags are a bit set holding at least "authenticated" and
    "internal/local-origin"; they are taken as two distinct bits. *)
Definition EF_AUTHENTICATED : Z := 0x01.
Definition EF_INTERNAL : Z := 0x04.

(** [EAGAIN] of <errno.h> (its OpenBSD value); only [EAGAIN <> 0] matters. *)
Definition EAGAIN : Z := 35.

(** Modelled from the spec: the result of one table query.  [table_lookup]
    is defined in table.c, not part of the sources at hand; the spec gives
    it three results, found / not-found / backend-error. *)
Inductive lookup_result : Type := Found | NotFound | BackendError.

(** The [int] that [table_lookup] returns for each of them. *)
Definition lookup_int (r : lookup_result) : Z :=
  match r with Found => 1 | NotFound => 0 | BackendError => -1 end.

(** The collaborators of this file, none of which is defined in it: the
    table backend, the table registry and the two address printers.
    [mailaddr_to_text] returns [NULL] ([None]) when the address does not
    fit its buffer. *)
Record collaborators : Type := {
  table_query      : table_ptr -> string -> table_service -> lookup_result;
  table_find       : option string -> table_ptr;
  ss_to_text       : sockaddr_storage -> string;
  mailaddr_to_text : mailaddr -> option string
}.

(** ** Effects *)

(** What the outside sees of a run: backend queries and log lines. *)
Inductive event : Type :=
| EvLookup (t : table_ptr) (key : string) (svc : table_service)
| EvWarnLookupFailure (t : table_ptr)
| EvTraceNoRule
| EvTraceTempfail
| EvTraceRuleMatched (r : rule)
| EvTraceMatchMatched (i : Z) (m : match_).

Record state : Type := { errno : Z; log : list event }.

Definition M (A : Type) : Type := state -> A * state.

Definition mret {A : Type} (a : A) : M A := fun s => (a, s).

Definition mbind {A B : Type} (c : M A) (k : A -> M B) : M B :=
  fun s => let (a, s') := c s in k a s'.

Declare Scope m_scope.
Delimit Scope m_scope with m.
Notation "x <- c ;; k" := (mbind c (fun x => k))
  (at level 100, c at next level, right associativity) : m_scope.
Notation "c ;; k" := (mbind c (fun _ => k))
  (at level 100, right associativity) : m_scope.
Open Scope m_scope.

Definition emit (e : event) : M unit :=
  fun s => (tt, {| errno := errno s; log := log s ++ [e] |}).

Definition set_errno (e : Z) : M unit :=
  fun s => (tt, {| errno := e; log := log s |}).

(** How one statement of a loop body ends: control falls through to the
    next statement, [continue]s with the next list element, leaves the
    function on its temporary-failure path, or jumps to [matched]. *)
Inductive ctl : Type := Fallthrough | Continue | Tempfail | Matched.

(** Sequencing of two statements of a loop body. *)
Definition seq_ctl (a b : M ctl) : M ctl :=
  c <- a ;; match c with Fallthrough => b | _ => mret c end.

Notation "a ;> b" := (seq_ctl a b) (at level 101, right associativity) : m_scope.

(** C's [!x] on an [int]. *)
Definition lnot (x : Z) : Z := if x =? 0 then 1 else 0.

(** [strcmp]: only the sign of the result is specified. *)
Definition strcmp (a b : string) : Z :=
  match String.compare a b with Eq => 0 | Lt => -1 | Gt => 1 end.

Section Ruleset.

Variable w : collaborators.

(** [table_lookup(table, NULL, key, service, NULL)]: 1 found, 0 not found,
    -1 failure. *)
Definition table_lookup (t : table_ptr) (key : string) (svc : table_service) : M Z :=
  emit (EvLookup t key svc) ;;
  mret (lookup_int (table_query w t key svc)).

Definition log_warnx_lookup (t : table_ptr) : M unit :=
  emit (EvWarnLookupFailure t).

(** ** The helpers of [ruleset_match] *)

Definition ruleset_check_source (t : table_ptr) (ss0 : sockaddr_storage)
    (evpflags : Z) : M Z :=
  let key := if negb (Z.land evpflags (Z.lor EF_AUTHENTICATED EF_INTERNAL) =? 0)
             then "local" else ss_to_text w ss0 in
  r <- table_lookup t key K_NETADDR ;;
  if r =? 1 then mret 1
  else if r =? -1 then log_warnx_lookup t ;; mret (-1)
  else mret 0.

Definition ruleset_check_mailaddr (t : table_ptr) (maddr : mailaddr) : M Z :=
  match mailaddr_to_text w maddr with
  | None => mret (-1)
  | Some key =>
      r <- table_lookup t key K_MAILADDR ;;
      if r =? 1 then mret 1
      else if r =? -1 then log_warnx_lookup t ;; mret (-1)
      else mret 0
  end.

(** The pattern [ruleset_match] repeats after each tri-state check:
    [if (ret == -1) { errno = EAGAIN; return (NULL); }
     if ((ret == 0 && !not) || (ret != 0 && not)) continue;] *)
Definition fail_or_skip (check : M Z) (not_ : bool) : M ctl :=
  ret <- check ;;
  if ret =? -1 then set_errno EAGAIN ;; mret Tempfail
  else if ((ret =? 0) && negb not_) || (negb (ret =? 0) && not_)
       then mret Continue
       else mret Fallthrough.

(** The statements of the loop body of [ruleset_match], in source order. *)

Definition rule_tag (evp : envelope) (r : rule) : M ctl :=
  if negb (r_tag r =? "")%string then
    let ret := strcmp (r_tag r) (tag evp) in
    if negb (ret =? 0) && negb (r_nottag r) then mret Continue
    else if (ret =? 0) && r_nottag r then mret Continue
    else mret Fallthrough
  else mret Fallthrough.

Definition rule_wantauth (evp : envelope) (r : rule) : M ctl :=
  if (r_wantauth r && negb (r_negwantauth r))
     && (Z.land (flags evp) EF_AUTHENTICATED =? 0)
  then mret Continue
  else if (r_wantauth r && r_negwantauth r)
          && negb (Z.land (flags evp) EF_AUTHENTICATED =? 0)
  then mret Continue
  else mret Fallthrough.

Definition rule_sources (evp : envelope) (r : rule) : M ctl :=
  fail_or_skip (ruleset_check_source (r_sources r) (ss evp) (flags evp))
               (r_notsources r).

Definition rule_senders (evp : envelope) (r : rule) : M ctl :=
  match r_senders r with
  | Some _ => fail_or_skip (ruleset_check_mailaddr (r_senders r) (sender evp))
                           (r_notsenders r)
  | None => mret Fallthrough
  end.

Definition rule_recipients (evp : envelope) (r : rule) : M ctl :=
  match r_recipients r with
  | Some _ => fail_or_skip (ruleset_check_mailaddr (r_recipients r) (dest evp))
                           (r_notrecipients r)
  | None => mret Fallthrough
  end.

Definition rule_destination (evp : envelope) (r : rule) : M ctl :=
  fail_or_skip
    (match r_destination r with
     | None => mret 1
     | Some _ => table_lookup (r_destination r) (domain (dest evp)) K_DOMAIN
     end)
    (r_notdestination r).

(** One iteration of [TAILQ_FOREACH(r, env->sc_rules, r_entry)]. *)
Definition ruleset_match_rule (evp : envelope) (r : rule) : M ctl :=
  rule_tag evp r ;>
  rule_wantauth evp r ;>
  rule_sources evp r ;>
  rule_senders evp r ;>
  rule_recipients evp r ;>
  rule_destination evp r ;>
  mret Matched.

(** [ruleset_match], over the rule list [env->sc_rules].  The result is
    the returned pointer, [None] for [NULL]. *)
Fixpoint ruleset_match (rules : list rule) (evp : envelope) : M (option rule) :=
  match rules with
  | [] =>
      set_errno 0 ;;
      emit EvTraceNoRule ;;
      mret None
  | r :: rest =>
      c <- ruleset_match_rule evp r ;;
      match c with
      | Matched => emit (EvTraceRuleMatched r) ;; mret (Some r)
      | Tempfail => mret None
      | Continue | Fallthrough => ruleset_match rest evp
      end
  end.

(** ** The helpers of [ruleset_match_new] *)

Definition ruleset_match_table_lookup (t : table_ptr) (key : string)
    (service : table_service) : M Z :=
  r <- table_lookup t key service ;;
  if r =? 1 then mret 1
  else if r =? -1 then log_warnx_lookup t ;; mret (-1)
  else mret 0.

Definition ruleset_match_tag (m : match_) (evp : envelope) : M Z :=
  let t := table_find w (tag_table m) in
  if m_tag m =? 0 then mret 1
  else
    ret <- ruleset_match_table_lookup t (tag evp) K_STRING ;;
    if ret <? 0 then mret ret
    else mret (if m_tag m <? 0 then lnot ret else ret).

Definition ruleset_match_from (m : match_) (evp : envelope) : M Z :=
  let t := table_find w (from_table m) in
  if from m =? 0 then mret 1
  else if from_socket m then mret (-1)
  else
    let key := if negb (Z.land (flags evp) EF_INTERNAL =? 0)
               then "local" else ss_to_text w (ss evp) in
    ret <- ruleset_match_table_lookup t key K_NETADDR ;;
    if ret <? 0 then mret (-1)
    else mret (if from m <? 0 then lnot ret else ret).

Definition ruleset_match_to (m : match_) (evp : envelope) : M Z :=
  let t := table_find w (to_table m) in
  if to m =? 0 then mret 1
  else
    ret <- ruleset_match_table_lookup t (domain (dest evp)) K_DOMAIN ;;
    if ret <? 0 then mret (-1)
    else mret (if to m <? 0 then lnot ret else ret).

Definition ruleset_match_smtp_helo (m : match_) (evp : envelope) : M Z :=
  let t := table_find w (smtp_helo_table m) in
  if smtp_helo m =? 0 then mret 1
  else
    ret <- ruleset_match_table_lookup t (helo evp) K_DOMAIN ;;
    if ret <? 0 then mret (-1)
    else mret (if smtp_helo m <? 0 then lnot ret else ret).

Definition ruleset_match_smtp_starttls (m : match_) (evp : envelope) : M Z :=
  if smtp_starttls m =? 0 then mret 1
  else mret (-1).

Definition ruleset_match_smtp_auth (m : match_) (evp : envelope) : M Z :=
  if smtp_auth m =? 0 then mret 1
  else if Z.land (flags evp) EF_AUTHENTICATED =? 0 then
    let ret := 0 in
    mret (if smtp_auth m <? 0 then lnot ret else ret)
  else match smtp_auth_table m with
       | Some _ => mret (-1)
       | None =>
           let ret := 1 in
           mret (if smtp_auth m <? 0 then lnot ret else ret)
       end.

Definition ruleset_match_smtp_mail_from (m : match_) (evp : envelope) : M Z :=
  let t := table_find w (smtp_mail_from_table m) in
  if smtp_mail_from m =? 0 then mret 1
  else match mailaddr_to_text w (sender evp) with
       | None => mret (-1)
       | Some key =>
           ret <- ruleset_match_table_lookup t key K_MAILADDR ;;
           if ret <? 0 then mret (-1)
           else mret (if smtp_mail_from m <? 0 then lnot ret else ret)
       end.

Definition ruleset_match_smtp_rcpt_to (m : match_) (evp : envelope) : M Z :=
  let t := table_find w (smtp_rcpt_to_table m) in
  if smtp_rcpt_to m =? 0 then mret 1
  else match mailaddr_to_text w (dest evp) with
       | None => mret (-1)
       | Some key =>
           ret <- ruleset_match_table_lookup t key K_MAILADDR ;;
           if ret <? 0 then mret (-1)
           else mret (if smtp_rcpt_to m <? 0 then lnot ret else ret)
       end.

(** The macro [MATCH_EVAL(x)]:
    [switch ((x)) { case -1: goto tempfail; case 0: continue; default: break; }] *)
Definition MATCH_EVAL (x : M Z) : M ctl :=
  v <- x ;;
  if v =? -1 then mret Tempfail
  else if v =? 0 then mret Continue
  else mret Fallthrough.

(** One iteration of [TAILQ_FOREACH(m, env->sc_matches, entry)], after
    [++i]. *)
Definition ruleset_match_new_rule (evp : envelope) (m : match_) : M ctl :=
  MATCH_EVAL (ruleset_match_tag m evp) ;>
  MATCH_EVAL (ruleset_match_from m evp) ;>
  MATCH_EVAL (ruleset_match_to m evp) ;>
  MATCH_EVAL (ruleset_match_smtp_helo m evp) ;>
  MATCH_EVAL (ruleset_match_smtp_auth m evp) ;>
  MATCH_EVAL (ruleset_match_smtp_starttls m evp) ;>
  MATCH_EVAL (ruleset_match_smtp_mail_from m evp) ;>
  MATCH_EVAL (ruleset_match_smtp_rcpt_to m evp) ;>
  mret Matched.

(** The loop of [ruleset_match_new] with its counter [i]. *)
Fixpoint ruleset_match_new_from (i : Z) (matches : list match_)
    (evp : envelope) : M (option match_) :=
  match matches with
  | [] =>
      set_errno 0 ;;
      emit EvTraceNoRule ;;
      mret None
  | m :: rest =>
      let i := i + 1 in
      c <- ruleset_match_new_rule evp m ;;
      match c with
      | Matched => emit (EvTraceMatchMatched i m) ;; mret (Some m)
      | Tempfail => set_errno EAGAIN ;; emit EvTraceTempfail ;; mret None
      | Continue | Fallthrough => ruleset_match_new_from i rest evp
      end
  end.

(** [ruleset_match_new], over the list [env->sc_matches]. *)
Definition ruleset_match_new (matches : list match_) (evp : envelope)
    : M (option match_) :=
  ruleset_match_new_from 0 matches evp.

End Ruleset.

(** ** Reading a result *)

(** How a caller reads the result of either matcher: a rule, or [NULL] with
    [errno] telling a temporary failure ([EAGAIN]) from "no rule". *)
Inductive outcome (A : Type) : Type :=
| Selected (a : A)
| NoRuleMatched
| Indeterminate.
Arguments Selected {A} a.
Arguments NoRuleMatched {A}.
Arguments Indeterminate {A}.

Definition outcome_of {A : Type} (res : option A * state) : outcome A :=
  match fst res with
  | Some a => Selected a
  | None => if errno (snd res) =? EAGAIN then Indeterminate else NoRuleMatched
  end.

(** The reduction of the spec (its section 4.3) over the outcomes of the
    rules: the first rule that matches wins, a fault aborts, a rule that
    does not match is passed over. *)
Fixpoint first_match {A : Type} (eval : A -> ctl) (l : list A) : outcome A :=
  match l with
  | [] => NoRuleMatched
  | a :: l' =>
      match eval a with
      | Matched => Selected a
      | Tempfail => Indeterminate
      | Continue | Fallthrough => first_match eval l'
      end
  end.

(** The tri-state of the spec on the [int] results of the criteria:
    negation swaps 1 and 0 and leaves -1. *)
Definition invert (v : Z) : Z := if v =? -1 then -1 else lnot v.

(** The same on the way a statement of [ruleset_match] ends. *)
Definition invert_ctl (c : ctl) : ctl :=
  match c with
  | Fallthrough => Continue
  | Continue => Fallthrough
  | other => other
  end.

(** ** Runs from the empty state *)

Definition st0 : state := {| errno := 0; log := [] |}.

(** The value a computation returns and the lines it logs. *)
Definition val {A : Type} (c : M A) : A := fst (c st0).
Definition trace {A : Type} (c : M A) : list event := log (snd (c st0)).

Definition logs (s : state) (evs : list event) : state :=
  {| errno := errno s; log := log s ++ evs |}.

(** A computation that leaves [errno] alone and appends the same lines
    whatever state it starts from. *)
Definition logging {A : Type} (c : M A) : Prop :=
  forall s, c s = (val c, logs s (trace c)).

(** What [errno = EAGAIN; return (NULL);] adds to a state. *)
Definition failing (v : ctl) (s : state) : state :=
  match v with
  | Tempfail => {| errno := EAGAIN; log := log s |}
  | _ => s
  end.

(** A statement of [ruleset_match]: it logs, and writes [errno := EAGAIN]
    exactly when it leaves on the temporary-failure path. *)
Definition stmt_ok (c : M ctl) : Prop :=
  forall s, c s = (val c, failing (val c) (logs s (trace c))).

(** Running computations one after the other, results dropped. *)
Fixpoint exec {A : Type} (cs : list (M A)) : M unit :=
  match cs with
  | [] => mret tt
  | c :: cs' => c ;; exec cs'
  end.

(** A computation that returns [v] whatever state it starts from. *)
Definition yields {A : Type} (c : M A) (v : A) : Prop :=
  forall s, fst (c s) = v.

(** The statements of one iteration, as lists in source order. *)
Definition run_stmts (bs : list (M ctl)) : M ctl :=
  fold_right seq_ctl (mret Matched) bs.

Definition rule_stmts (w : collaborators) (evp : envelope) (r : rule)
    : list (M ctl) :=
  [ rule_tag evp r; rule_wantauth evp r; rule_sources w evp r;
    rule_senders w evp r; rule_recipients w evp r; rule_destination w evp r ].

Definition match_criteria (w : collaborators) (evp : envelope) (m : match_)
    : list (M Z) :=
  [ ruleset_match_tag w m evp; ruleset_match_from w m evp;
    ruleset_match_to w m evp; ruleset_match_smtp_helo w m evp;
    ruleset_match_smtp_auth m evp; ruleset_match_smtp_starttls m evp;
    ruleset_match_smtp_mail_from w m evp; ruleset_match_smtp_rcpt_to w m evp ].

(** ** A concrete installation, for examples *)

Definition tbl (name : string) : table_ptr := Some {| t_name := name |}.

(** Three tables: [<localhost>] holds the key "local", [<anyhost>] holds
    every key, [<broken>] fails on every query; any other table is empty. *)
Definition ex_query (t : table_ptr) (key : string) (svc : table_service)
    : lookup_result :=
  match t with
  | None => BackendError
  | Some t' =>
      if (t_name t' =? "broken")%string then BackendError
      else if (t_name t' =? "anyhost")%string then Found
      else if (t_name t' =? "localhost")%string && (key =? "local")%string
           then Found
      else NotFound
  end.

Definition ex_world : collaborators := {|
  table_query := ex_query;
  table_find := fun name => option_map Build_table name;
  ss_to_text := fun _ => "192.0.2.1";
  mailaddr_to_text := fun a =>
    if (Nat.ltb (String.length (user a) + String.length (domain a)) 64)
    then Some (user a ++ "@" ++ domain a)%string else None
|}.

Definition ex_ss : sockaddr_storage :=
  {| ss_family := 2; ss_data := [192; 0; 2; 1] |}.

(** An envelope of a remote client with the given session flags. *)
Definition ex_envelope (fl : Z) : envelope := {|
  tag := ""; flags := fl; helo := "client.example";
  ss := ex_ss;
  sender := {| user := "alice"; domain := "example.org" |};
  dest := {| user := "bob"; domain := "example.net" |}
|}.

(** A [struct rule] with only its source table set. *)
Definition ex_rule (sources : string) : rule := {|
  r_tag := ""; r_nottag := false;
  r_wantauth := false; r_negwantauth := false;
  r_sources := tbl sources; r_notsources := false;
  r_senders := None; r_notsenders := false;
  r_recipients := None; r_notrecipients := false;
  r_destination := None; r_notdestination := false
|}.

(** A [struct match] with every criterion absent. *)
Definition ex_match : match_ := {|
  m_tag := 0; tag_table := None;
  from := 0; from_socket := false; from_table := None;
  to := 0; to_table := None;
  smtp_helo := 0; smtp_helo_table := None;
  smtp_auth := 0; smtp_auth_table := None;
  smtp_starttls := 0;
  smtp_mail_from := 0; smtp_mail_from_table := None;
  smtp_rcpt_to := 0; smtp_rcpt_to_table := None
|}.

(** Setters for the fields of [struct match] the examples vary. *)
Definition set_m_tag (v : Z) (t : option string) (m : match_) : match_ := {|
  m_tag := v; tag_table := t;
  from := from m; from_socket := from_socket m; from_table := from_table m;
  to := to m; to_table := to_table m;
  smtp_helo := smtp_helo m; smtp_helo_table := smtp_helo_table m;
  smtp_auth := smtp_auth m; smtp_auth_table := smtp_auth_table m;
  smtp_starttls := smtp_starttls m;
  smtp_mail_from := smtp_mail_from m;
  smtp_mail_from_table := smtp_mail_from_table m;
  smtp_rcpt_to := smtp_rcpt_to m; smtp_rcpt_to_table := smtp_rcpt_to_table m
|}.

Definition set_from (v : Z) (t : option string) (m : match_) : match_ := {|
  m_tag := m_tag m; tag_table := tag_table m;
  from := v; from_socket := from_socket m; from_table := t;
  to := to m; to_table := to_table m;
  smtp_helo := smtp_helo m; smtp_helo_table := smtp_helo_table m;
  smtp_auth := smtp_auth m; smtp_auth_table := smtp_auth_table m;
  smtp_starttls := smtp_starttls m;
  smtp_mail_from := smtp_mail_from m;
  smtp_mail_from_table := smtp_mail_from_table m;
  smtp_rcpt_to := smtp_rcpt_to m; smtp_rcpt_to_table := smtp_rcpt_to_table m
|}.

Definition set_to (v : Z) (t : option string) (m : match_) : match_ := {|
  m_tag := m_tag m; tag_table := tag_table m;
  from := from m; from_socket := from_socket m; from_table := from_table m;
  to := v; to_table := t;
  smtp_helo := smtp_helo m; smtp_helo_table := smtp_helo_table m;
  smtp_auth := smtp_auth m; smtp_auth_table := smtp_auth_table m;
  smtp_starttls := smtp_starttls m;
  smtp_mail_from := smtp_mail_from m;
  smtp_mail_from_table := smtp_mail_from_table m;
  smtp_rcpt_to := smtp_rcpt_to m; smtp_rcpt_to_table := smtp_rcpt_to_table m
|}.

Definition set_smtp_auth (v : Z) (t : option string) (m : match_) : match_ := {|
  m_tag := m_tag m; tag_table := tag_table m;
  from := from m; from_socket := from_socket m; from_table := from_table m;
  to := to m; to_table := to_table m;
  smtp_helo := smtp_helo m; smtp_helo_table := smtp_helo_table m;
  smtp_auth := v; smtp_auth_table := t;
  smtp_starttls := smtp_starttls m;
  smtp_mail_from := smtp_mail_from m;
  smtp_mail_from_table := smtp_mail_from_table m;
  smtp_rcpt_to := smtp_rcpt_to m; smtp_rcpt_to_table := smtp_rcpt_to_table m
|}.

Definition set_smtp_mail_from (v : Z) (t : option string) (m : match_)
    : match_ := {|
  m_tag := m_tag m; tag_table := tag_table m;
  from := from m; from_socket := from_socket m; from_table := from_table m;
  to := to m; to_table := to_table m;
  smtp_helo := smtp_helo m; smtp_helo_table := smtp_helo_table m;
  smtp_auth := smtp_auth m; smtp_auth_table := smtp_auth_table m;
  smtp_starttls := smtp_starttls m;
  smtp_mail_from := v; smtp_mail_from_table := t;
  smtp_rcpt_to := smtp_rcpt_to m; smtp_rcpt_to_table := smtp_rcpt_to_table m
|}.

Definition set_from_socket (b : bool) (m : match_) : match_ := {|
  m_tag := m_tag m; tag_table := tag_table m;
  from := from m; from_socket := b; from_table := from_table m;
  to := to m; to_table := to_table m;
  smtp_helo := smtp_helo m; smtp_helo_table := smtp_helo_table m;
  smtp_auth := smtp_auth m; smtp_auth_table := smtp_auth_table m;
  smtp_starttls := smtp_starttls m;
  smtp_mail_from := smtp_mail_from m;
  smtp_mail_from_table := smtp_mail_from_table m;
  smtp_rcpt_to := smtp_rcpt_to m; smtp_rcpt_to_table := smtp_rcpt_to_table m
|}.

Definition set_smtp_helo (v : Z) (t : option string) (m : match_) : match_ := {|
  m_tag := m_tag m; tag_table := tag_table m;
  from := from m; from_socket := from_socket m; from_table := from_table m;
  to := to m; to_table := to_table m;
  smtp_helo := v; smtp_helo_table := t;
  smtp_auth := smtp_auth m; smtp_auth_table := smtp_auth_table m;
  smtp_starttls := smtp_starttls m;
  smtp_mail_from := smtp_mail_from m;
  smtp_mail_from_table := smtp_mail_from_table m;
  smtp_rcpt_to := smtp_rcpt_to m; smtp_rcpt_to_table := smtp_rcpt_to_table m
|}.

Definition set_smtp_starttls (v : Z) (m : match_) : match_ := {|
  m_tag := m_tag m; tag_table := tag_table m;
  from := from m; from_socket := from_socket m; from_table := from_table m;
  to := to m; to_table := to_table m;
  smtp_helo := smtp_helo m; smtp_helo_table := smtp_helo_table m;
  smtp_auth := smtp_auth m; smtp_auth_table := smtp_auth_table m;
  smtp_starttls := v;
  smtp_mail_from := smtp_mail_from m;
  smtp_mail_from_table := smtp_mail_from_table m;
  smtp_rcpt_to := smtp_rcpt_to m; smtp_rcpt_to_table := smtp_rcpt_to_table m
|}.

Definition set_smtp_rcpt_to (v : Z) (t : option string) (m : match_)
    : match_ := {|
  m_tag := m_tag m; tag_table := tag_table m;
  from := from m; from_socket := from_socket m; from_table := from_table m;
  to := to m; to_table := to_table m;
  smtp_helo := smtp_helo m; smtp_helo_table := smtp_helo_table m;
  smtp_auth := smtp_auth m; smtp_auth_table := smtp_auth_table m;
  smtp_starttls := smtp_starttls m;
  smtp_mail_from := smtp_mail_from m;
  smtp_mail_from_table := smtp_mail_from_table m;
  smtp_rcpt_to := v; smtp_rcpt_to_table := t
|}.

(** Setters for the negation flags of [struct rule]. *)
Definition set_r_nottag (b : bool) (r : rule) : rule := {|
  r_tag := r_tag r; r_nottag := b;
  r_wantauth := r_wantauth r; r_negwantauth := r_negwantauth r;
  r_sources := r_sources r; r_notsources := r_notsources r;
  r_senders := r_senders r; r_notsenders := r_notsenders r;
  r_recipients := r_recipients r; r_notrecipients := r_notrecipients r;
  r_destination := r_destination r; r_notdestination := r_notdestination r
|}.

Definition set_r_negwantauth (b : bool) (r : rule) : rule := {|
  r_tag := r_tag r; r_nottag := r_nottag r;
  r_wantauth := r_wantauth r; r_negwantauth := b;
  r_sources := r_sources r; r_notsources := r_notsources r;
  r_senders := r_senders r; r_notsenders := r_notsenders r;
  r_recipients := r_recipients r; r_notrecipients := r_notrecipients r;
  r_destination := r_destination r; r_notdestination := r_notdestination r
|}.

(** The lines one table query leaves in the log: the query, and the
    warning when it failed. *)
Definition lookup_lines (t : table_ptr) (key : string) (svc : table_service)
    (q : lookup_result) : list event :=
  EvLookup t key svc ::
  match q with BackendError => [EvWarnLookupFailure t] | _ => [] end.

(** The result of a criterion of [struct match] from the [int] sign field
    [x] and the raw result [ret] of its lookup:
    [if (ret < 0) return -1; return x < 0 ? !ret : ret;] *)
Definition signed (x ret : Z) : Z :=
  if ret <? 0 then -1 else if x <? 0 then lnot ret else ret.



(** The key [ruleset_check_source] asks for. *)
Definition source_key (w : collaborators) (evp : envelope) : string :=
  if negb (Z.land (flags evp) (Z.lor EF_AUTHENTICATED EF_INTERNAL) =? 0)
  then "local" else ss_to_text w (ss evp).

(** How the source statement of [ruleset_match] ends on a query result. *)
Definition source_verdict (q : lookup_result) (not_ : bool) : ctl :=
  match q with
  | BackendError => Tempfail
  | Found => if not_ then Continue else Fallthrough
  | NotFound => if not_ then Fallthrough else Continue
  end.

(** ** Rules expressible in both representations *)

(** A table-backed criterion of [struct rule] (table [t], flag [not_]) and
    one of [struct match] (sign [x], table name [name]) say the same: both
    absent, or both present with the same table and the same sign. *)
Definition same_criterion (w : collaborators) (t : table_ptr) (not_ : bool)
    (x : Z) (name : option string) : Prop :=
  match t with
  | None => x = 0
  | Some _ => x <> 0 /\ (x <? 0) = not_ /\ table_find w name = t
  end.

(** The tag of a [struct rule] is a string compared with [strcmp], the tag
    of a [struct match] a table: they say the same when the table holds
    that string and nothing else. *)
Definition same_tag (w : collaborators) (r : rule) (m : match_) : Prop :=
  if (r_tag r =? "")%string then m_tag m = 0
  else m_tag m <> 0 /\ (m_tag m <? 0) = r_nottag r
       /\ forall key,
            table_query w (table_find w (tag_table m)) key K_STRING
            = if (key =? r_tag r)%string then Found else NotFound.

(** A [struct rule] and a [struct match] with the same present criteria,
    signs and backing tables.  The source table of a [struct rule] is
    always there; [struct rule] has no identity and no transport-security
    criterion, and its authentication criterion has no credential table. *)
Definition same_rule (w : collaborators) (r : rule) (m : match_) : Prop :=
  same_tag w r m
  /\ (from m <> 0 /\ (from m <? 0) = r_notsources r
      /\ from_socket m = false /\ table_find w (from_table m) = r_sources r)
  /\ (same_criterion w (r_destination r) (r_notdestination r)
        (to m) (to_table m)
      /\ (r_destination r = None -> r_notdestination r = false))
  /\ smtp_helo m = 0
  /\ (if r_wantauth r
      then smtp_auth m <> 0 /\ (smtp_auth m <? 0) = r_negwantauth r
           /\ smtp_auth_table m = None
      else smtp_auth m = 0)
  /\ smtp_starttls m = 0
  /\ same_criterion w (r_senders r) (r_notsenders r)
       (smtp_mail_from m) (smtp_mail_from_table m)
  /\ same_criterion w (r_recipients r) (r_notrecipients r)
       (smtp_rcpt_to m) (smtp_rcpt_to_table m).

(** The two matchers take the criteria of a rule in different orders:
    [ruleset_match] takes tag, authentication, origin, sender, recipient,
    destination, and [ruleset_match_new] takes tag, origin, destination,
    authentication, sender, recipient.  On the ways the six statements of
    [ruleset_match] end ([t], [a], [o], [sn], [rc], [d]), this is when the
    order shows: the first statement that does not fall through in one
    order and the first in the other order end differently, one by a
    no-match and the other by a fault. *)
Definition conflict (t a o sn rc d : ctl) : Prop :=
  t = Fallthrough
  /\ ((a = Continue /\ o = Tempfail)
      \/ (a = Continue /\ o = Fallthrough /\ d = Tempfail)
      \/ (a = Fallthrough /\ o = Fallthrough
          /\ ((sn = Continue /\ d = Tempfail)
              \/ (sn = Tempfail /\ d = Continue)))
      \/ (a = Fallthrough /\ o = Fallthrough /\ sn = Fallthrough
          /\ ((rc = Continue /\ d = Tempfail)
              \/ (rc = Tempfail /\ d = Continue)))).

Definition order_conflict (w : collaborators) (evp : envelope) (r : rule)
    : Prop :=
  conflict (val (rule_tag evp r)) (val (rule_wantauth evp r))
           (val (rule_sources w evp r)) (val (rule_senders w evp r))
           (val (rule_recipients w evp r)) (val (rule_destination w evp r)).

(** Both calls return the rule at the same position of their lists, or
    both return [NULL] with the same [errno]. *)
Definition same_selection (rules : list rule) (matches : list match_)
    (x : option rule * state) (y : option match_ * state) : Prop :=
  match fst x, fst y with
  | Some r, Some m =>
      exists k, nth_error rules k = Some r /\ nth_error matches k = Some m
  | None, None => errno (snd x) = errno (snd y)
  | _, _ => False
  end.

(** How a list of statement results reduces to the result of the
    iteration: the first that does not fall through, else [matched]. *)
Definition reduce_vals (vs : list ctl) : ctl :=
  fold_right (fun v acc => match v with Fallthrough => acc | _ => v end)
             Matched vs.

(** ** What a rule asks of an envelope *)

(** A table answer lets a criterion through: found, or not found under
    negation. *)
Definition passes (q : lookup_result) (negated : bool) : Prop :=
  q = if negated then NotFound else Found.

(** The constraints a [struct rule] puts on an envelope, read as a
    proposition on the tables. *)
Definition rule_holds (w : collaborators) (evp : envelope) (r : rule) : Prop :=
  (r_tag r <> "" ->
   if r_nottag r then r_tag r <> tag evp else r_tag r = tag evp)
  /\ (r_wantauth r = true ->
      if r_negwantauth r
      then Z.land (flags evp) EF_AUTHENTICATED = 0
      else Z.land (flags evp) EF_AUTHENTICATED <> 0)
  /\ passes (table_query w (r_sources r) (source_key w evp) K_NETADDR)
            (r_notsources r)
  /\ (r_senders r <> None ->
      exists key, mailaddr_to_text w (sender evp) = Some key
                  /\ passes (table_query w (r_senders r) key K_MAILADDR)
                            (r_notsenders r))
  /\ (r_recipients r <> None ->
      exists key, mailaddr_to_text w (dest evp) = Some key
                  /\ passes (table_query w (r_recipients r) key K_MAILADDR)
                            (r_notrecipients r))
  /\ match r_destination r with
     | None => r_notdestination r = false
     | Some _ => passes (table_query w (r_destination r)
                           (domain (dest evp)) K_DOMAIN)
                        (r_notdestination r)
     end.

(** The same for a [struct match]. *)
Definition match_holds (w : collaborators) (evp : envelope) (m : match_)
    : Prop :=
  (m_tag m <> 0 ->
   passes (table_query w (table_find w (tag_table m)) (tag evp) K_STRING)
          (m_tag m <? 0))
  /\ (from m <> 0 ->
      from_socket m = false
      /\ passes (table_query w (table_find w (from_table m))
                   (if negb (Z.land (flags evp) EF_INTERNAL =? 0)
                    then "local" else ss_to_text w (ss evp)) K_NETADDR)
                (from m <? 0))
  /\ (to m <> 0 ->
      passes (table_query w (table_find w (to_table m))
                (domain (dest evp)) K_DOMAIN)
             (to m <? 0))
  /\ (smtp_helo m <> 0 ->
      passes (table_query w (table_find w (smtp_helo_table m))
                (helo evp) K_DOMAIN)
             (smtp_helo m <? 0))
  /\ (smtp_auth m <> 0 ->
      if smtp_auth m <? 0
      then Z.land (flags evp) EF_AUTHENTICATED = 0
      else Z.land (flags evp) EF_AUTHENTICATED <> 0
           /\ smtp_auth_table m = None)
  /\ smtp_starttls m = 0
  /\ (smtp_mail_from m <> 0 ->
      exists key, mailaddr_to_text w (sender evp) = Some key
                  /\ passes (table_query w
                               (table_find w (smtp_mail_from_table m))
                               key K_MAILADDR)
                            (smtp_mail_from m <? 0))
  /\ (smtp_rcpt_to m <> 0 ->
      exists key, mailaddr_to_text w (dest evp) = Some key
                  /\ passes (table_query w
                               (table_find w (smtp_rcpt_to_table m))
                               key K_MAILADDR)
                            (smtp_rcpt_to m <? 0)).

(** An envelope with another network address. *)
Definition set_ss (a : sockaddr_storage) (evp : envelope) : envelope := {|
  tag := tag evp; flags := flags evp; helo := helo evp;
  ss := a; sender := sender evp; dest := dest evp
|}.

(** ** Counting what a call leaves in the log *)

Fixpoint count_lookups (l : list event) : nat :=
  match l with
  | [] => 0
  | EvLookup _ _ _ :: l' => S (count_lookups l')
  | _ :: l' => count_lookups l'
  end.

Fixpoint count_warnings (l : list event) : nat :=
  match l with
  | [] => 0
  | EvWarnLookupFailure _ :: l' => S (count_warnings l')
  | _ :: l' => count_warnings l'
  end.

(** The queries of a log that the backend failed. *)
Fixpoint count_failures (w : collaborators) (l : list event) : nat :=
  match l with
  | [] => 0
  | EvLookup t key svc :: l' =>
      match table_query w t key svc with
      | BackendError => S (count_failures w l')
      | _ => count_failures w l'
      end
  | _ :: l' => count_failures w l'
  end.

(** A computation that appends to the log, from any state, lines that
    satisfy [P]. *)
Definition emits {A : Type} (P : list event -> Prop) (c : M A) : Prop :=
  forall s, exists tr, log (snd (c s)) = log s ++ tr /\ P tr.

(** Lines with at most [n] queries, and with one warning for each query
    that failed ([strict]) or at most one ([strict] unset). *)
Definition accounted (w : collaborators) (strict : bool) (n : nat)
    (tr : list event) : Prop :=
  (count_lookups tr <= n)%nat
  /\ if strict then count_warnings tr = count_failures w tr
     else (count_warnings tr <= count_failures w tr)%nat.

(** ** Raw results and their sign *)

(** The raw result of a table criterion of [struct match]: what the table
    says, before the sign. *)
Definition apply_sign (negated : bool) (raw : Z) : Z :=
  if negated then invert raw else raw.

(** The raw result of a table statement of [ruleset_match]: found lets the
    iteration go on, not found skips the rule, a failure ends the call. *)
Definition raw_ctl (q : lookup_result) : ctl :=
  match q with
  | Found => Fallthrough
  | NotFound => Continue
  | BackendError => Tempfail
  end.

Definition apply_not (not_ : bool) (raw : ctl) : ctl :=
  if not_ then invert_ctl raw else raw.

(** ** The monad *)

Lemma logs_nil s : logs s [] = s.
Proof. destruct s; unfold logs; simpl; now rewrite app_nil_r. Qed.

Lemma logs_logs s a b : logs (logs s a) b = logs s (a ++ b).
Proof. unfold logs; simpl; now rewrite app_assoc. Qed.

Lemma logging_ret {A} (a : A) : logging (mret a).
Proof.
  intros s; unfold val, trace, mret; simpl; now rewrite logs_nil.
Qed.

Lemma logging_emit e : logging (emit e).
Proof. intros s; reflexivity. Qed.

Lemma val_bind {A B} (c : M A) (k : A -> M B) :
  logging c -> (forall a, logging (k a)) ->
  val (mbind c k) = val (k (val c)).
Proof.
  intros Hc Hk; unfold val at 1, mbind.
  rewrite (Hc st0), (Hk (val c)); reflexivity.
Qed.

Lemma trace_bind {A B} (c : M A) (k : A -> M B) :
  logging c -> (forall a, logging (k a)) ->
  trace (mbind c k) = trace c ++ trace (k (val c)).
Proof.
  intros Hc Hk; unfold trace at 1, mbind.
  rewrite (Hc st0), (Hk (val c)); reflexivity.
Qed.

Lemma logging_bind {A B} (c : M A) (k : A -> M B) :
  logging c -> (forall a, logging (k a)) -> logging (mbind c k).
Proof.
  intros Hc Hk s.
  rewrite val_bind, trace_bind by assumption.
  unfold mbind; rewrite (Hc s), (Hk (val c)), logs_logs; reflexivity.
Qed.

Lemma logging_val {A} (c : M A) s : logging c -> fst (c s) = val c.
Proof. intros H; now rewrite H. Qed.

Lemma logging_stmt_ok (c : M ctl) :
  logging c -> val c <> Tempfail -> stmt_ok c.
Proof.
  intros H Hv s; rewrite H; unfold failing.
  destruct (val c); try reflexivity; congruence.
Qed.

Ltac logging_step :=
  match goal with
  | |- logging (mbind _ _) => apply logging_bind; [ | intros ? ]
  | |- logging (mret _) => apply logging_ret
  | |- logging (emit _) => apply logging_emit
  | |- logging (if ?b then _ else _) => destruct b
  | |- logging (match ?x with _ => _ end) => destruct x
  | |- logging (let _ := _ in _) => cbv zeta
  end.

Ltac prove_logging := repeat logging_step.

Section Theory.

Variable w : collaborators.

Lemma logging_table_lookup t key svc : logging (table_lookup w t key svc).
Proof. unfold table_lookup; prove_logging. Qed.

Lemma logging_log_warnx t : logging (log_warnx_lookup t).
Proof. unfold log_warnx_lookup; prove_logging. Qed.

Ltac logging_calls :=
  repeat first
    [ logging_step
    | apply logging_table_lookup
    | apply logging_log_warnx ].

Lemma logging_check_source t ss0 fl : logging (ruleset_check_source w t ss0 fl).
Proof. unfold ruleset_check_source; logging_calls. Qed.

Lemma logging_check_mailaddr t a : logging (ruleset_check_mailaddr w t a).
Proof. unfold ruleset_check_mailaddr; logging_calls. Qed.

Lemma logging_match_table_lookup t key svc :
  logging (ruleset_match_table_lookup w t key svc).
Proof. unfold ruleset_match_table_lookup; logging_calls. Qed.

Ltac logging_crit :=
  repeat first
    [ logging_step
    | apply logging_match_table_lookup ].

Lemma logging_match_tag m evp : logging (ruleset_match_tag w m evp).
Proof. unfold ruleset_match_tag; logging_crit. Qed.

Lemma logging_match_from m evp : logging (ruleset_match_from w m evp).
Proof. unfold ruleset_match_from; logging_crit. Qed.

Lemma logging_match_to m evp : logging (ruleset_match_to w m evp).
Proof. unfold ruleset_match_to; logging_crit. Qed.

Lemma logging_match_smtp_helo m evp : logging (ruleset_match_smtp_helo w m evp).
Proof. unfold ruleset_match_smtp_helo; logging_crit. Qed.

Lemma logging_match_smtp_auth m evp : logging (ruleset_match_smtp_auth m evp).
Proof. unfold ruleset_match_smtp_auth; logging_crit. Qed.

Lemma logging_match_smtp_starttls m evp :
  logging (ruleset_match_smtp_starttls m evp).
Proof. unfold ruleset_match_smtp_starttls; logging_crit. Qed.

Lemma logging_match_smtp_mail_from m evp :
  logging (ruleset_match_smtp_mail_from w m evp).
Proof. unfold ruleset_match_smtp_mail_from; logging_crit. Qed.

Lemma logging_match_smtp_rcpt_to m evp :
  logging (ruleset_match_smtp_rcpt_to w m evp).
Proof. unfold ruleset_match_smtp_rcpt_to; logging_crit. Qed.

Lemma logging_match_criteria m evp c :
  In c (match_criteria w evp m) -> logging c.
Proof.
  unfold match_criteria; simpl; intros H.
  repeat (destruct H as [<- | H];
          [ first [ apply logging_match_tag | apply logging_match_from
                  | apply logging_match_to | apply logging_match_smtp_helo
                  | apply logging_match_smtp_auth
                  | apply logging_match_smtp_starttls
                  | apply logging_match_smtp_mail_from
                  | apply logging_match_smtp_rcpt_to ] | ]).
  destruct H.
Qed.

End Theory.

(** ** Statements and iterations *)

Lemma log_failing v s : log (failing v s) = log s.
Proof. destruct v; reflexivity. Qed.

Lemma val_seq_ctl a b :
  stmt_ok a -> stmt_ok b ->
  val (a ;> b) = match val a with Fallthrough => val b | c => c end.
Proof.
  intros Ha Hb; unfold val at 1, seq_ctl, mbind.
  rewrite (Ha st0).
  destruct (val a); try reflexivity.
  simpl; now rewrite Hb.
Qed.

Lemma trace_seq_ctl a b :
  stmt_ok a -> stmt_ok b ->
  trace (a ;> b) = trace a ++ match val a with Fallthrough => trace b | _ => [] end.
Proof.
  intros Ha Hb; unfold trace at 1, seq_ctl, mbind.
  rewrite (Ha st0).
  destruct (val a); simpl; try now rewrite app_nil_r.
  rewrite Hb; simpl; now rewrite log_failing.
Qed.

Lemma stmt_ok_seq a b : stmt_ok a -> stmt_ok b -> stmt_ok (a ;> b).
Proof.
  intros Ha Hb s.
  rewrite val_seq_ctl, trace_seq_ctl by assumption.
  unfold seq_ctl, mbind; rewrite (Ha s).
  destruct (val a); simpl; rewrite ?app_nil_r; try reflexivity.
  rewrite Hb, logs_logs; reflexivity.
Qed.

Lemma stmt_ok_ret v : v <> Tempfail -> stmt_ok (mret v).
Proof. intros H; apply logging_stmt_ok; [apply logging_ret | exact H]. Qed.

Lemma stmt_ok_fail_or_skip c n : logging c -> stmt_ok (fail_or_skip c n).
Proof.
  intros Hc s; unfold val, trace, fail_or_skip, mbind.
  rewrite (Hc s), (Hc st0).
  destruct (val c =? -1); [reflexivity|].
  destruct ((val c =? 0) && negb n || negb (val c =? 0) && n);
    unfold mret, failing, logs; simpl; reflexivity.
Qed.

Lemma logging_MATCH_EVAL c : logging c -> logging (MATCH_EVAL c).
Proof. intros Hc; unfold MATCH_EVAL; prove_logging; exact Hc. Qed.

Lemma logging_seq_ctl a b : logging a -> logging b -> logging (a ;> b).
Proof. intros Ha Hb; unfold seq_ctl; prove_logging; assumption. Qed.

Lemma logging_run_stmts bs : Forall logging bs -> logging (run_stmts bs).
Proof.
  induction 1; simpl; [apply logging_ret | now apply logging_seq_ctl].
Qed.

Lemma stmt_ok_run_stmts bs : Forall stmt_ok bs -> stmt_ok (run_stmts bs).
Proof.
  induction 1; simpl; [now apply stmt_ok_ret | now apply stmt_ok_seq].
Qed.

(** An iteration is its statements run in order. *)
Lemma ruleset_match_rule_stmts w evp r :
  ruleset_match_rule w evp r = run_stmts (rule_stmts w evp r).
Proof. reflexivity. Qed.

Lemma ruleset_match_new_rule_stmts w evp m :
  ruleset_match_new_rule w evp m =
  run_stmts (map MATCH_EVAL (match_criteria w evp m)).
Proof. reflexivity. Qed.

Lemma logging_rule_tag evp r : logging (rule_tag evp r).
Proof. unfold rule_tag; prove_logging. Qed.

Lemma logging_rule_wantauth evp r : logging (rule_wantauth evp r).
Proof. unfold rule_wantauth; prove_logging. Qed.

Lemma rule_tag_not_tempfail evp r : val (rule_tag evp r) <> Tempfail.
Proof.
  unfold val, rule_tag.
  destruct (negb (r_tag r =? "")%string); [|discriminate].
  cbv zeta.
  destruct (negb (strcmp (r_tag r) (tag evp) =? 0) && negb (r_nottag r));
    [discriminate|].
  destruct ((strcmp (r_tag r) (tag evp) =? 0) && r_nottag r); discriminate.
Qed.

Lemma rule_wantauth_not_tempfail evp r : val (rule_wantauth evp r) <> Tempfail.
Proof.
  unfold val, rule_wantauth.
  destruct (r_wantauth r && negb (r_negwantauth r)
            && (Z.land (flags evp) EF_AUTHENTICATED =? 0)); [discriminate|].
  destruct (r_wantauth r && r_negwantauth r
            && negb (Z.land (flags evp) EF_AUTHENTICATED =? 0)); discriminate.
Qed.

Lemma stmt_ok_rule_stmts w evp r : Forall stmt_ok (rule_stmts w evp r).
Proof.
  unfold rule_stmts; repeat constructor.
  - apply logging_stmt_ok; [apply logging_rule_tag | apply rule_tag_not_tempfail].
  - apply logging_stmt_ok;
      [apply logging_rule_wantauth | apply rule_wantauth_not_tempfail].
  - apply stmt_ok_fail_or_skip, logging_check_source.
  - unfold rule_senders; destruct (r_senders r);
      [apply stmt_ok_fail_or_skip, logging_check_mailaddr
      | now apply stmt_ok_ret].
  - unfold rule_recipients; destruct (r_recipients r);
      [apply stmt_ok_fail_or_skip, logging_check_mailaddr
      | now apply stmt_ok_ret].
  - apply stmt_ok_fail_or_skip.
    destruct (r_destination r);
      [apply logging_table_lookup | apply logging_ret].
Qed.

Lemma stmt_ok_ruleset_match_rule w evp r : stmt_ok (ruleset_match_rule w evp r).
Proof.
  rewrite ruleset_match_rule_stmts.
  apply stmt_ok_run_stmts, stmt_ok_rule_stmts.
Qed.

Lemma logging_ruleset_match_new_rule w evp m :
  logging (ruleset_match_new_rule w evp m).
Proof.
  rewrite ruleset_match_new_rule_stmts.
  apply logging_run_stmts, Forall_forall.
  intros b Hb; apply in_map_iff in Hb as (c & <- & Hc).
  apply logging_MATCH_EVAL; eapply logging_match_criteria; eassumption.
Qed.

(** ** The two loops *)

Lemma exec_app {A} (cs1 cs2 : list (M A)) s :
  snd (exec (cs1 ++ cs2) s) = snd (exec cs2 (snd (exec cs1 s))).
Proof.
  revert s; induction cs1 as [|c cs1 IH]; intros s; simpl; [reflexivity|].
  unfold mbind; destruct (c s) as [a s1]; apply IH.
Qed.

Lemma exec_one {A} (c : M A) s : snd (exec [c] s) = snd (c s).
Proof. simpl; unfold mbind, mret; now destruct (c s). Qed.

Lemma MATCH_EVAL_state c s : snd (MATCH_EVAL c s) = snd (c s).
Proof.
  unfold MATCH_EVAL, mbind; destruct (c s) as [v s1].
  destruct (v =? -1); [reflexivity|]; destruct (v =? 0); reflexivity.
Qed.

Lemma exec_MATCH_EVAL cs s : snd (exec (map MATCH_EVAL cs) s) = snd (exec cs s).
Proof.
  revert s; induction cs as [|c cs IH]; intros s; simpl; [reflexivity|].
  unfold mbind.
  pose proof (MATCH_EVAL_state c s) as H.
  destruct (MATCH_EVAL c s) as [v s1]; destruct (c s) as [v' s1'].
  simpl in H; subst s1'; apply IH.
Qed.

Lemma yields_MATCH_EVAL_pass c : yields c 1 -> yields (MATCH_EVAL c) Fallthrough.
Proof.
  intros H s; specialize (H s); unfold MATCH_EVAL, mbind.
  destruct (c s) as [v s1]; simpl in H; subst v; reflexivity.
Qed.

Lemma yields_MATCH_EVAL_fault c : yields c (-1) -> yields (MATCH_EVAL c) Tempfail.
Proof.
  intros H s; specialize (H s); unfold MATCH_EVAL, mbind.
  destruct (c s) as [v s1]; simpl in H; subst v; reflexivity.
Qed.

Lemma run_stmts_cons b bs s :
  run_stmts (b :: bs) s =
  match fst (b s) with
  | Fallthrough => run_stmts bs (snd (b s))
  | c => (c, snd (b s))
  end.
Proof.
  unfold run_stmts; cbn [fold_right]; unfold seq_ctl at 1, mbind.
  destruct (b s) as [c s1]; destruct c; reflexivity.
Qed.

Lemma exec_cons {A} (c : M A) cs s :
  snd (exec (c :: cs) s) = snd (exec cs (snd (c s))).
Proof. cbn [exec]; unfold mbind; now destruct (c s). Qed.

Lemma run_stmts_not_fallthrough bs s : fst (run_stmts bs s) <> Fallthrough.
Proof.
  revert s; induction bs as [|b bs IH]; intros s; [discriminate|].
  rewrite run_stmts_cons.
  destruct (fst (b s)); cbn [fst]; try discriminate; apply IH.
Qed.

(** Statements that fall through, then one that leaves: the iteration
    leaves the same way, and nothing after that statement has run. *)
Lemma run_stmts_leave bs1 b bs2 v s :
  Forall (fun b' => yields b' Fallthrough) bs1 ->
  yields b v -> v <> Fallthrough ->
  run_stmts (bs1 ++ b :: bs2) s = (v, snd (exec (bs1 ++ [b]) s)).
Proof.
  intros H1 Hb Hv; revert s.
  induction H1 as [|b1 bs1 Hb1 _ IH]; intros s; cbn [app].
  - rewrite run_stmts_cons, exec_one, (Hb s).
    destruct v; try reflexivity; congruence.
  - rewrite run_stmts_cons, exec_cons, (Hb1 s); apply IH.
Qed.

Lemma fail_or_skip_fault c n s :
  yields c (-1) ->
  fail_or_skip c n s = (Tempfail, {| errno := EAGAIN; log := log (snd (c s)) |}).
Proof.
  intros H; specialize (H s); unfold fail_or_skip, mbind.
  destruct (c s) as [v s1]; simpl in H; subst v; reflexivity.
Qed.

(** One iteration of each loop. *)
Lemma ruleset_match_step w evp r rest s :
  ruleset_match w (r :: rest) evp s =
  let s1 := snd (ruleset_match_rule w evp r s) in
  match fst (ruleset_match_rule w evp r s) with
  | Matched => (Some r, logs s1 [EvTraceRuleMatched r])
  | Tempfail => (None, s1)
  | _ => ruleset_match w rest evp s1
  end.
Proof.
  cbn [ruleset_match]; unfold mbind at 1.
  destruct (ruleset_match_rule w evp r s) as [c s1]; destruct c; reflexivity.
Qed.

Lemma ruleset_match_new_step w evp m rest i s :
  ruleset_match_new_from w i (m :: rest) evp s =
  let s1 := snd (ruleset_match_new_rule w evp m s) in
  match fst (ruleset_match_new_rule w evp m s) with
  | Matched => (Some m, logs s1 [EvTraceMatchMatched (i + 1) m])
  | Tempfail => (None, {| errno := EAGAIN; log := log s1 ++ [EvTraceTempfail] |})
  | _ => ruleset_match_new_from w (i + 1) rest evp s1
  end.
Proof.
  cbn [ruleset_match_new_from]; unfold mbind at 1.
  destruct (ruleset_match_new_rule w evp m s) as [c s1]; destruct c; reflexivity.
Qed.

(** Rules that do not match are passed over. *)
Lemma ruleset_match_skip w evp pre rest s :
  Forall (fun r => yields (ruleset_match_rule w evp r) Continue) pre ->
  ruleset_match w (pre ++ rest) evp s =
  ruleset_match w rest evp (snd (exec (map (ruleset_match_rule w evp) pre) s)).
Proof.
  intros H; revert s; induction H as [|r pre Hr _ IH]; intros s.
  - reflexivity.
  - cbn [app map]; rewrite ruleset_match_step, exec_cons, (Hr s); apply IH.
Qed.

Lemma ruleset_match_new_skip w evp pre rest i s :
  Forall (fun m => yields (ruleset_match_new_rule w evp m) Continue) pre ->
  ruleset_match_new_from w i (pre ++ rest) evp s =
  ruleset_match_new_from w (i + Z.of_nat (List.length pre)) rest evp
    (snd (exec (map (ruleset_match_new_rule w evp) pre) s)).
Proof.
  intros H; revert i s; induction H as [|m pre Hm _ IH]; intros i s.
  - simpl; now rewrite Z.add_0_r.
  - cbn [app map List.length]; rewrite ruleset_match_new_step, exec_cons, (Hm s).
    cbv zeta; rewrite IH; f_equal; lia.
Qed.

(** One iteration of each loop, in closed form. *)
Lemma ruleset_match_cons w evp r rest s :
  ruleset_match w (r :: rest) evp s =
  let s1 := logs s (trace (ruleset_match_rule w evp r)) in
  match val (ruleset_match_rule w evp r) with
  | Matched => (Some r, logs s1 [EvTraceRuleMatched r])
  | Tempfail => (None, {| errno := EAGAIN; log := log s1 |})
  | _ => ruleset_match w rest evp s1
  end.
Proof.
  cbn [ruleset_match]; unfold mbind at 1.
  rewrite (stmt_ok_ruleset_match_rule w evp r s).
  destruct (val (ruleset_match_rule w evp r)); reflexivity.
Qed.

Lemma ruleset_match_new_cons w evp m rest i s :
  ruleset_match_new_from w i (m :: rest) evp s =
  let s1 := logs s (trace (ruleset_match_new_rule w evp m)) in
  match val (ruleset_match_new_rule w evp m) with
  | Matched => (Some m, logs s1 [EvTraceMatchMatched (i + 1) m])
  | Tempfail => (None, {| errno := EAGAIN; log := log s1 ++ [EvTraceTempfail] |})
  | _ => ruleset_match_new_from w (i + 1) rest evp s1
  end.
Proof.
  cbn [ruleset_match_new_from]; unfold mbind at 1.
  rewrite (logging_ruleset_match_new_rule w evp m s).
  destruct (val (ruleset_match_new_rule w evp m)); reflexivity.
Qed.

(** Both loops are the reduction [first_match] over the outcomes of their
    iterations. *)
Lemma ruleset_match_first_match w evp rules s :
  outcome_of (ruleset_match w rules evp s) =
  first_match (fun r => val (ruleset_match_rule w evp r)) rules.
Proof.
  revert s; induction rules as [|r rest IH]; intros s.
  - reflexivity.
  - rewrite ruleset_match_cons; cbv zeta; cbn [first_match].
    destruct (val (ruleset_match_rule w evp r)); try apply IH; reflexivity.
Qed.

Lemma ruleset_match_new_first_match w evp matches i s :
  outcome_of (ruleset_match_new_from w i matches evp s) =
  first_match (fun m => val (ruleset_match_new_rule w evp m)) matches.
Proof.
  revert i s; induction matches as [|m rest IH]; intros i s.
  - reflexivity.
  - rewrite ruleset_match_new_cons; cbv zeta; cbn [first_match].
    destruct (val (ruleset_match_new_rule w evp m)); try apply IH; reflexivity.
Qed.

(** ** Criteria in closed form *)

Lemma table_lookup_closed w t key svc s :
  table_lookup w t key svc s
  = (lookup_int (table_query w t key svc), logs s [EvLookup t key svc]).
Proof. reflexivity. Qed.

Lemma ruleset_match_table_lookup_closed w t key svc s :
  ruleset_match_table_lookup w t key svc s
  = (lookup_int (table_query w t key svc),
     logs s (lookup_lines t key svc (table_query w t key svc))).
Proof.
  unfold ruleset_match_table_lookup, mbind; rewrite table_lookup_closed.
  unfold lookup_lines, logs;
    destruct (table_query w t key svc); cbn; rewrite <- ?app_assoc; reflexivity.
Qed.

Lemma ruleset_check_source_closed w t ss0 fl s :
  let key := if negb (Z.land fl (Z.lor EF_AUTHENTICATED EF_INTERNAL) =? 0)
             then "local" else ss_to_text w ss0 in
  ruleset_check_source w t ss0 fl s
  = (lookup_int (table_query w t key K_NETADDR),
     logs s (lookup_lines t key K_NETADDR (table_query w t key K_NETADDR))).
Proof.
  intros key; unfold ruleset_check_source; fold key.
  unfold mbind; rewrite table_lookup_closed.
  unfold lookup_lines, logs;
    destruct (table_query w t key K_NETADDR); cbn;
    rewrite <- ?app_assoc; reflexivity.
Qed.

Lemma ruleset_check_mailaddr_closed w t a key s :
  mailaddr_to_text w a = Some key ->
  ruleset_check_mailaddr w t a s
  = (lookup_int (table_query w t key K_MAILADDR),
     logs s (lookup_lines t key K_MAILADDR (table_query w t key K_MAILADDR))).
Proof.
  intros E; unfold ruleset_check_mailaddr; rewrite E.
  unfold mbind; rewrite table_lookup_closed.
  unfold lookup_lines, logs;
    destruct (table_query w t key K_MAILADDR); cbn;
    rewrite <- ?app_assoc; reflexivity.
Qed.

Lemma ruleset_match_tag_closed w m evp s :
  m_tag m <> 0 ->
  let t := table_find w (tag_table m) in
  let q := table_query w t (tag evp) K_STRING in
  ruleset_match_tag w m evp s
  = (signed (m_tag m) (lookup_int q),
     logs s (lookup_lines t (tag evp) K_STRING q)).
Proof.
  intros H t q; unfold ruleset_match_tag.
  apply Z.eqb_neq in H; rewrite H.
  unfold mbind; rewrite ruleset_match_table_lookup_closed.
  fold t q; unfold signed; destruct q; reflexivity.
Qed.

Lemma ruleset_match_from_closed w m evp s :
  from m <> 0 -> from_socket m = false ->
  let t := table_find w (from_table m) in
  let key := if negb (Z.land (flags evp) EF_INTERNAL =? 0)
             then "local" else ss_to_text w (ss evp) in
  let q := table_query w t key K_NETADDR in
  ruleset_match_from w m evp s
  = (signed (from m) (lookup_int q), logs s (lookup_lines t key K_NETADDR q)).
Proof.
  intros H Hs t key q; unfold ruleset_match_from.
  apply Z.eqb_neq in H; rewrite H, Hs.
  unfold mbind; rewrite ruleset_match_table_lookup_closed.
  fold t key q; unfold signed; destruct q; reflexivity.
Qed.

Lemma ruleset_match_to_closed w m evp s :
  to m <> 0 ->
  let t := table_find w (to_table m) in
  let q := table_query w t (domain (dest evp)) K_DOMAIN in
  ruleset_match_to w m evp s
  = (signed (to m) (lookup_int q),
     logs s (lookup_lines t (domain (dest evp)) K_DOMAIN q)).
Proof.
  intros H t q; unfold ruleset_match_to.
  apply Z.eqb_neq in H; rewrite H.
  unfold mbind; rewrite ruleset_match_table_lookup_closed.
  fold t q; unfold signed; destruct q; reflexivity.
Qed.

Lemma ruleset_match_smtp_helo_closed w m evp s :
  smtp_helo m <> 0 ->
  let t := table_find w (smtp_helo_table m) in
  let q := table_query w t (helo evp) K_DOMAIN in
  ruleset_match_smtp_helo w m evp s
  = (signed (smtp_helo m) (lookup_int q),
     logs s (lookup_lines t (helo evp) K_DOMAIN q)).
Proof.
  intros H t q; unfold ruleset_match_smtp_helo.
  apply Z.eqb_neq in H; rewrite H.
  unfold mbind; rewrite ruleset_match_table_lookup_closed.
  fold t q; unfold signed; destruct q; reflexivity.
Qed.

Lemma ruleset_match_smtp_mail_from_closed w m evp key s :
  smtp_mail_from m <> 0 ->
  mailaddr_to_text w (sender evp) = Some key ->
  let t := table_find w (smtp_mail_from_table m) in
  let q := table_query w t key K_MAILADDR in
  ruleset_match_smtp_mail_from w m evp s
  = (signed (smtp_mail_from m) (lookup_int q),
     logs s (lookup_lines t key K_MAILADDR q)).
Proof.
  intros H E t q; unfold ruleset_match_smtp_mail_from.
  apply Z.eqb_neq in H; rewrite H, E.
  unfold mbind; rewrite ruleset_match_table_lookup_closed.
  fold t q; unfold signed; destruct q; reflexivity.
Qed.

Lemma ruleset_match_smtp_rcpt_to_closed w m evp key s :
  smtp_rcpt_to m <> 0 ->
  mailaddr_to_text w (dest evp) = Some key ->
  let t := table_find w (smtp_rcpt_to_table m) in
  let q := table_query w t key K_MAILADDR in
  ruleset_match_smtp_rcpt_to w m evp s
  = (signed (smtp_rcpt_to m) (lookup_int q),
     logs s (lookup_lines t key K_MAILADDR q)).
Proof.
  intros H E t q; unfold ruleset_match_smtp_rcpt_to.
  apply Z.eqb_neq in H; rewrite H, E.
  unfold mbind; rewrite ruleset_match_table_lookup_closed.
  fold t q; unfold signed; destruct q; reflexivity.
Qed.

Lemma ruleset_match_smtp_auth_closed m evp s :
  smtp_auth m <> 0 ->
  ruleset_match_smtp_auth m evp s
  = (if Z.land (flags evp) EF_AUTHENTICATED =? 0
     then (if smtp_auth m <? 0 then 1 else 0)
     else match smtp_auth_table m with
          | Some _ => -1
          | None => if smtp_auth m <? 0 then 0 else 1
          end, s).
Proof.
  intros H; unfold ruleset_match_smtp_auth.
  apply Z.eqb_neq in H; rewrite H.
  destruct (Z.land (flags evp) EF_AUTHENTICATED =? 0).
  - destruct (smtp_auth m <? 0); reflexivity.
  - destruct (smtp_auth_table m); [reflexivity|].
    destruct (smtp_auth m <? 0); reflexivity.
Qed.

Lemma land_mask_either fl :
  Z.land fl (Z.lor EF_AUTHENTICATED EF_INTERNAL) = 0
  <-> Z.land fl EF_AUTHENTICATED = 0 /\ Z.land fl EF_INTERNAL = 0.
Proof. rewrite Z.land_lor_distr_r; apply Z.lor_eq_0_iff. Qed.

Lemma strcmp_eqb a b : (strcmp a b =? 0) = (a =? b)%string.
Proof.
  unfold strcmp; destruct (String.compare a b) eqn:E.
  - apply String.compare_eq_iff in E; subst; now rewrite String.eqb_refl.
  - symmetry; apply String.eqb_neq; intros ->.
    pose proof (String.compare_antisym b b) as H; rewrite E in H; discriminate.
  - symmetry; apply String.eqb_neq; intros ->.
    pose proof (String.compare_antisym b b) as H; rewrite E in H; discriminate.
Qed.

Lemma fst_MATCH_EVAL c s :
  fst (MATCH_EVAL c s)
  = if fst (c s) =? -1 then Tempfail
    else if fst (c s) =? 0 then Continue else Fallthrough.
Proof.
  unfold MATCH_EVAL, mbind; destruct (c s) as [v s1]; cbn [fst].
  destruct (v =? -1); [reflexivity|]; destruct (v =? 0); reflexivity.
Qed.

Lemma fst_fail_or_skip c n s :
  fst (fail_or_skip c n s)
  = if fst (c s) =? -1 then Tempfail
    else if (fst (c s) =? 0) && negb n || negb (fst (c s) =? 0) && n
         then Continue else Fallthrough.
Proof.
  unfold fail_or_skip, mbind; destruct (c s) as [v s1]; cbn [fst].
  destruct (v =? -1); [reflexivity|].
  destruct ((v =? 0) && negb n || negb (v =? 0) && n); reflexivity.
Qed.

(** A fault in the rule being evaluated, in each loop. *)
Lemma ruleset_match_stmt_fault w evp s pre r post bs1 b bs2 :
  Forall (fun r' => yields (ruleset_match_rule w evp r') Continue) pre ->
  rule_stmts w evp r = bs1 ++ b :: bs2 ->
  Forall (fun b' => yields b' Fallthrough) bs1 ->
  yields b Tempfail ->
  ruleset_match w (pre ++ r :: post) evp s
  = (None,
     {| errno := EAGAIN;
        log := log (snd (exec (bs1 ++ [b])
                 (snd (exec (map (ruleset_match_rule w evp) pre) s)))) |}).
Proof.
  intros Hpre Hstmts Hbs1 Hb.
  rewrite ruleset_match_skip by exact Hpre.
  set (s1 := snd (exec (map (ruleset_match_rule w evp) pre) s)).
  assert (E : ruleset_match_rule w evp r s1
              = (Tempfail, snd (exec (bs1 ++ [b]) s1))).
  { rewrite ruleset_match_rule_stmts, Hstmts.
    apply run_stmts_leave; [assumption | assumption | discriminate]. }
  rewrite ruleset_match_step, E; cbn [fst snd]; cbv zeta.
  pose proof (stmt_ok_ruleset_match_rule w evp r s1) as Hok.
  rewrite E in Hok.
  injection Hok as Hv Hs; rewrite <- Hv in Hs.
  rewrite Hs; reflexivity.
Qed.

Lemma ruleset_match_new_fault w evp s pre m post cs1 c cs2 :
  Forall (fun m' => yields (ruleset_match_new_rule w evp m') Continue) pre ->
  match_criteria w evp m = cs1 ++ c :: cs2 ->
  Forall (fun c' => yields c' 1) cs1 ->
  yields c (-1) ->
  ruleset_match_new w (pre ++ m :: post) evp s
  = (None,
     {| errno := EAGAIN;
        log := log (snd (exec (cs1 ++ [c])
                 (snd (exec (map (ruleset_match_new_rule w evp) pre) s))))
               ++ [EvTraceTempfail] |}).
Proof.
  intros Hpre Hcrit Hcs1 Hc.
  unfold ruleset_match_new.
  rewrite ruleset_match_new_skip by exact Hpre.
  rewrite ruleset_match_new_step, ruleset_match_new_rule_stmts.
  rewrite Hcrit, map_app; cbn [map].
  rewrite (run_stmts_leave (map MATCH_EVAL cs1) (MATCH_EVAL c)
             (map MATCH_EVAL cs2) Tempfail);
    [ | | now apply yields_MATCH_EVAL_fault | discriminate ].
  - cbn [fst snd]; cbv zeta.
    change (map MATCH_EVAL cs1 ++ [MATCH_EVAL c])
      with (map MATCH_EVAL cs1 ++ map MATCH_EVAL [c]).
    rewrite <- map_app, exec_MATCH_EVAL; reflexivity.
  - apply Forall_forall; intros b Hb.
    apply in_map_iff in Hb as (c' & <- & Hc').
    apply yields_MATCH_EVAL_pass.
    rewrite Forall_forall in Hcs1; now apply Hcs1.
Qed.

(** * The claims *)

(** ** C1 *)

(** C1.  In either matcher, when the rule being evaluated (every rule
    before it in the list did not match) reaches a criterion that yields
    indeterminate, the call returns [NULL] with [errno = EAGAIN], which the
    caller reads as [Indeterminate].  The final state is the one reached
    right after that criterion (plus, in [ruleset_match_new], the trace
    line of the [tempfail] label): no later criterion of the rule and no
    later rule has run.  A table query that fails and a mail address
    without a text make a criterion yield indeterminate: each lookup helper
    returns -1 on them, each table-backed statement of [ruleset_match]
    (source, sender, recipient, destination) leaves on the
    temporary-failure path with [errno = EAGAIN], and each table-backed
    criterion of [ruleset_match_new] (tag, origin, destination, identity,
    sender, recipient) returns -1, whatever its sign. *)
Theorem C1_indeterminate_aborts_the_call :
  forall (w : collaborators) (evp : envelope) (s : state),
    (forall pre r post bs1 b bs2,
        Forall (fun r' => yields (ruleset_match_rule w evp r') Continue) pre ->
        rule_stmts w evp r = bs1 ++ b :: bs2 ->
        Forall (fun b' => yields b' Fallthrough) bs1 ->
        yields b Tempfail ->
        let s1 := snd (exec (map (ruleset_match_rule w evp) pre) s) in
        let s2 := snd (exec (bs1 ++ [b]) s1) in
        ruleset_match w (pre ++ r :: post) evp s
        = (None, {| errno := EAGAIN; log := log s2 |})
        /\ outcome_of (ruleset_match w (pre ++ r :: post) evp s) = Indeterminate)
    /\
    (forall pre m post cs1 c cs2,
        Forall (fun m' => yields (ruleset_match_new_rule w evp m') Continue) pre ->
        match_criteria w evp m = cs1 ++ c :: cs2 ->
        Forall (fun c' => yields c' 1) cs1 ->
        yields c (-1) ->
        let s1 := snd (exec (map (ruleset_match_new_rule w evp) pre) s) in
        let s2 := snd (exec (cs1 ++ [c]) s1) in
        ruleset_match_new w (pre ++ m :: post) evp s
        = (None, {| errno := EAGAIN; log := log s2 ++ [EvTraceTempfail] |})
        /\ outcome_of (ruleset_match_new w (pre ++ m :: post) evp s)
           = Indeterminate)
    /\
    (forall t key svc,
        table_query w t key svc = BackendError ->
        yields (table_lookup w t key svc) (-1)
        /\ yields (ruleset_match_table_lookup w t key svc) (-1))
    /\
    (forall t fl,
        table_query w t
          (if negb (Z.land fl (Z.lor EF_AUTHENTICATED EF_INTERNAL) =? 0)
           then "local" else ss_to_text w (ss evp)) K_NETADDR = BackendError ->
        yields (ruleset_check_source w t (ss evp) fl) (-1))
    /\
    (forall t a,
        mailaddr_to_text w a = None
        \/ (exists key, mailaddr_to_text w a = Some key
                        /\ table_query w t key K_MAILADDR = BackendError) ->
        yields (ruleset_check_mailaddr w t a) (-1))
    /\
    (forall m,
        (smtp_mail_from m <> 0 -> mailaddr_to_text w (sender evp) = None ->
         yields (ruleset_match_smtp_mail_from w m evp) (-1))
        /\ (smtp_rcpt_to m <> 0 -> mailaddr_to_text w (dest evp) = None ->
            yields (ruleset_match_smtp_rcpt_to w m evp) (-1)))
    /\
    (forall r s',
        (table_query w (r_sources r) (source_key w evp) K_NETADDR
         = BackendError ->
         rule_sources w evp r s'
         = (Tempfail,
            {| errno := EAGAIN;
               log := log s'
                      ++ [ EvLookup (r_sources r) (source_key w evp) K_NETADDR;
                           EvWarnLookupFailure (r_sources r) ] |}))
        /\ (r_senders r <> None ->
            mailaddr_to_text w (sender evp) = None ->
            rule_senders w evp r s'
            = (Tempfail, {| errno := EAGAIN; log := log s' |}))
        /\ (forall key,
               r_senders r <> None ->
               mailaddr_to_text w (sender evp) = Some key ->
               table_query w (r_senders r) key K_MAILADDR = BackendError ->
               rule_senders w evp r s'
               = (Tempfail,
                  {| errno := EAGAIN;
                     log := log s'
                            ++ [ EvLookup (r_senders r) key K_MAILADDR;
                                 EvWarnLookupFailure (r_senders r) ] |}))
        /\ (r_recipients r <> None ->
            mailaddr_to_text w (dest evp) = None ->
            rule_recipients w evp r s'
            = (Tempfail, {| errno := EAGAIN; log := log s' |}))
        /\ (forall key,
               r_recipients r <> None ->
               mailaddr_to_text w (dest evp) = Some key ->
               table_query w (r_recipients r) key K_MAILADDR = BackendError ->
               rule_recipients w evp r s'
               = (Tempfail,
                  {| errno := EAGAIN;
                     log := log s'
                            ++ [ EvLookup (r_recipients r) key K_MAILADDR;
                                 EvWarnLookupFailure (r_recipients r) ] |}))
        /\ (r_destination r <> None ->
            table_query w (r_destination r) (domain (dest evp)) K_DOMAIN
            = BackendError ->
            rule_destination w evp r s'
            = (Tempfail,
               {| errno := EAGAIN;
                  log := log s'
                         ++ [ EvLookup (r_destination r) (domain (dest evp))
                                K_DOMAIN ] |})))
    /\
    (forall m s',
        (m_tag m <> 0 ->
         table_query w (table_find w (tag_table m)) (tag evp) K_STRING
         = BackendError ->
         ruleset_match_tag w m evp s'
         = (-1, logs s' [ EvLookup (table_find w (tag_table m)) (tag evp)
                            K_STRING;
                          EvWarnLookupFailure (table_find w (tag_table m)) ]))
        /\ (from m <> 0 -> from_socket m = false ->
            table_query w (table_find w (from_table m))
              (if negb (Z.land (flags evp) EF_INTERNAL =? 0)
               then "local" else ss_to_text w (ss evp)) K_NETADDR
            = BackendError ->
            ruleset_match_from w m evp s'
            = (-1, logs s' [ EvLookup (table_find w (from_table m))
                               (if negb (Z.land (flags evp) EF_INTERNAL =? 0)
                                then "local" else ss_to_text w (ss evp))
                               K_NETADDR;
                             EvWarnLookupFailure (table_find w (from_table m)) ]))
        /\ (to m <> 0 ->
            table_query w (table_find w (to_table m)) (domain (dest evp))
              K_DOMAIN = BackendError ->
            ruleset_match_to w m evp s'
            = (-1, logs s' [ EvLookup (table_find w (to_table m))
                               (domain (dest evp)) K_DOMAIN;
                             EvWarnLookupFailure (table_find w (to_table m)) ]))
        /\ (smtp_helo m <> 0 ->
            table_query w (table_find w (smtp_helo_table m)) (helo evp)
              K_DOMAIN = BackendError ->
            ruleset_match_smtp_helo w m evp s'
            = (-1, logs s' [ EvLookup (table_find w (smtp_helo_table m))
                               (helo evp) K_DOMAIN;
                             EvWarnLookupFailure
                               (table_find w (smtp_helo_table m)) ]))
        /\ (forall key,
               smtp_mail_from m <> 0 ->
               mailaddr_to_text w (sender evp) = Some key ->
               table_query w (table_find w (smtp_mail_from_table m)) key
                 K_MAILADDR = BackendError ->
               ruleset_match_smtp_mail_from w m evp s'
               = (-1, logs s' [ EvLookup
                                  (table_find w (smtp_mail_from_table m))
                                  key K_MAILADDR;
                                EvWarnLookupFailure
                                  (table_find w (smtp_mail_from_table m)) ]))
        /\ (forall key,
               smtp_rcpt_to m <> 0 ->
               mailaddr_to_text w (dest evp) = Some key ->
               table_query w (table_find w (smtp_rcpt_to_table m)) key
                 K_MAILADDR = BackendError ->
               ruleset_match_smtp_rcpt_to w m evp s'
               = (-1, logs s' [ EvLookup
                                  (table_find w (smtp_rcpt_to_table m))
                                  key K_MAILADDR;
                                EvWarnLookupFailure
                                  (table_find w (smtp_rcpt_to_table m)) ]))).
Proof.
  intros w evp s.
  split; [ | split; [ | split; [ | split; [ | split; [ | split; [ | split ] ] ] ] ] ].
  - intros pre r post bs1 b bs2 Hpre Hstmts Hbs1 Hb s1 s2.
    pose proof (ruleset_match_stmt_fault w evp s pre r post bs1 b bs2
                  Hpre Hstmts Hbs1 Hb) as E.
    fold s1 in E; fold s2 in E.
    split; [exact E | now rewrite E].
  - intros pre m post cs1 c cs2 Hpre Hcrit Hcs1 Hc s1 s2.
    pose proof (ruleset_match_new_fault w evp s pre m post cs1 c cs2
                  Hpre Hcrit Hcs1 Hc) as E.
    fold s1 in E; fold s2 in E.
    split; [exact E | now rewrite E].
  - intros t key svc Hq; split; intros s'.
    + rewrite table_lookup_closed, Hq; reflexivity.
    + rewrite ruleset_match_table_lookup_closed, Hq; reflexivity.
  - intros t fl Hq s'.
    rewrite ruleset_check_source_closed; cbv zeta; now rewrite Hq.
  - intros t a [E | (key & E & Hq)] s'.
    + unfold ruleset_check_mailaddr; now rewrite E.
    + rewrite (ruleset_check_mailaddr_closed w t a key s' E), Hq.
      reflexivity.
  - intros m; split; intros Hp E s'.
    + unfold ruleset_match_smtp_mail_from.
      apply Z.eqb_neq in Hp; now rewrite Hp, E.
    + unfold ruleset_match_smtp_rcpt_to.
      apply Z.eqb_neq in Hp; now rewrite Hp, E.
  - intros r s'; split; [ | split; [ | split; [ | split; [ | split ] ] ] ].
    + intros Hq; unfold rule_sources, fail_or_skip, mbind.
      rewrite ruleset_check_source_closed; cbv zeta.
      unfold source_key in *; rewrite Hq; reflexivity.
    + intros Hp E; unfold rule_senders.
      destruct (r_senders r) as [t|]; [ | congruence ].
      unfold fail_or_skip, mbind, ruleset_check_mailaddr; rewrite E.
      reflexivity.
    + intros key Hp E Hq; unfold rule_senders.
      destruct (r_senders r) as [t|]; [ | congruence ].
      unfold fail_or_skip, mbind.
      rewrite (ruleset_check_mailaddr_closed w (Some t) _ key s' E), Hq.
      reflexivity.
    + intros Hp E; unfold rule_recipients.
      destruct (r_recipients r) as [t|]; [ | congruence ].
      unfold fail_or_skip, mbind, ruleset_check_mailaddr; rewrite E.
      reflexivity.
    + intros key Hp E Hq; unfold rule_recipients.
      destruct (r_recipients r) as [t|]; [ | congruence ].
      unfold fail_or_skip, mbind.
      rewrite (ruleset_check_mailaddr_closed w (Some t) _ key s' E), Hq.
      reflexivity.
    + intros Hp Hq; unfold rule_destination.
      destruct (r_destination r) as [t|]; [ | congruence ].
      unfold fail_or_skip, mbind; rewrite table_lookup_closed, Hq.
      reflexivity.
  - intros m s'; split; [ | split; [ | split; [ | split; [ | split ] ] ] ].
    + intros Hp Hq.
      rewrite ruleset_match_tag_closed by exact Hp; cbv zeta.
      rewrite Hq; reflexivity.
    + intros Hp Hs Hq.
      rewrite ruleset_match_from_closed by assumption; cbv zeta.
      rewrite Hq; reflexivity.
    + intros Hp Hq.
      rewrite ruleset_match_to_closed by exact Hp; cbv zeta.
      rewrite Hq; reflexivity.
    + intros Hp Hq.
      rewrite ruleset_match_smtp_helo_closed by exact Hp; cbv zeta.
      rewrite Hq; reflexivity.
    + intros key Hp E Hq.
      rewrite (ruleset_match_smtp_mail_from_closed w m evp key s' Hp E).
      cbv zeta; rewrite Hq; reflexivity.
    + intros key Hp E Hq.
      rewrite (ruleset_match_smtp_rcpt_to_closed w m evp key s' Hp E).
      cbv zeta; rewrite Hq; reflexivity.
Qed.

(** C1, at work.  A destination table that fails stops [ruleset_match]
    before its second rule; a negated identity table that fails stops
    [ruleset_match_new] before the sender criterion and before its second
    rule.  In both, that the criterion yields indeterminate is read off the
    failed query. *)
Lemma C1_indeterminate_aborts_the_call_witness :
  let evp := ex_envelope 0 in
  let r1 := {| r_tag := ""; r_nottag := false;
               r_wantauth := false; r_negwantauth := false;
               r_sources := tbl "anyhost"; r_notsources := false;
               r_senders := None; r_notsenders := false;
               r_recipients := None; r_notrecipients := false;
               r_destination := tbl "broken"; r_notdestination := true |} in
  let m1 := set_smtp_mail_from 1 (Some "anyhost")
              (set_smtp_helo (-1) (Some "broken") ex_match) in
  ruleset_match ex_world [r1; ex_rule "anyhost"] evp st0
  = (None, {| errno := EAGAIN;
              log := [ EvLookup (tbl "anyhost") "192.0.2.1" K_NETADDR;
                       EvLookup (tbl "broken") "example.net" K_DOMAIN ] |})
  /\ ruleset_match_new ex_world [m1; ex_match] evp st0
     = (None, {| errno := EAGAIN;
                 log := [ EvLookup (tbl "broken") "client.example" K_DOMAIN;
                          EvWarnLookupFailure (tbl "broken");
                          EvTraceTempfail ] |}).
Proof.
  intros evp r1 m1.
  pose proof (C1_indeterminate_aborts_the_call ex_world evp st0)
    as (Hold & Hnew & _ & _ & _ & _ & Hstmts & Hcrit).
  split.
  - refine (proj1 (Hold [] r1 [ex_rule "anyhost"]
             [rule_tag evp r1; rule_wantauth evp r1;
              rule_sources ex_world evp r1; rule_senders ex_world evp r1;
              rule_recipients ex_world evp r1]
             (rule_destination ex_world evp r1) [] _ _ _ _)).
    + constructor.
    + reflexivity.
    + repeat constructor; intros s; reflexivity.
    + intros s.
      destruct (Hstmts r1 s) as (_ & _ & _ & _ & _ & Hd).
      rewrite Hd; [reflexivity | discriminate | reflexivity].
  - refine (proj1 (Hnew [] m1 [ex_match]
             [ruleset_match_tag ex_world m1 evp;
              ruleset_match_from ex_world m1 evp;
              ruleset_match_to ex_world m1 evp]
             (ruleset_match_smtp_helo ex_world m1 evp)
             _ _ _ _ _)).
    + constructor.
    + reflexivity.
    + repeat constructor; intros s; reflexivity.
    + intros s.
      destruct (Hcrit m1 s) as (_ & _ & _ & Hh & _).
      rewrite Hh; [reflexivity | discriminate | reflexivity].
Defined.

(** ** C6 *)

(** C6.  When the list is empty, or every rule of it evaluates to no-match
    (so none is indeterminate), each matcher returns [NULL] with
    [errno = 0] after the "no rule matched" trace line.  The caller reads
    this as [NoRuleMatched], which is not [Indeterminate]: [errno] is not
    [EAGAIN]. *)
Theorem C6_exhaustion_is_no_rule_matched :
  forall (w : collaborators) (evp : envelope) (s : state),
    (forall rules,
        Forall (fun r => yields (ruleset_match_rule w evp r) Continue) rules ->
        let s1 := snd (exec (map (ruleset_match_rule w evp) rules) s) in
        ruleset_match w rules evp s
        = (None, {| errno := 0; log := log s1 ++ [EvTraceNoRule] |})
        /\ outcome_of (ruleset_match w rules evp s) = NoRuleMatched
        /\ outcome_of (ruleset_match w rules evp s) <> Indeterminate
        /\ errno (snd (ruleset_match w rules evp s)) <> EAGAIN)
    /\
    (forall matches,
        Forall (fun m => yields (ruleset_match_new_rule w evp m) Continue)
               matches ->
        let s1 := snd (exec (map (ruleset_match_new_rule w evp) matches) s) in
        ruleset_match_new w matches evp s
        = (None, {| errno := 0; log := log s1 ++ [EvTraceNoRule] |})
        /\ outcome_of (ruleset_match_new w matches evp s) = NoRuleMatched
        /\ outcome_of (ruleset_match_new w matches evp s) <> Indeterminate
        /\ errno (snd (ruleset_match_new w matches evp s)) <> EAGAIN)
    /\ ruleset_match w [] evp s
       = (None, {| errno := 0; log := log s ++ [EvTraceNoRule] |})
    /\ ruleset_match_new w [] evp s
       = (None, {| errno := 0; log := log s ++ [EvTraceNoRule] |}).
Proof.
  intros w evp s; split; [ | split; [ | split; reflexivity ] ].
  - intros rules H s1.
    assert (E : ruleset_match w rules evp s
                = (None, {| errno := 0; log := log s1 ++ [EvTraceNoRule] |})).
    { rewrite <- (app_nil_r rules) at 1.
      rewrite ruleset_match_skip by exact H; reflexivity. }
    rewrite E; repeat split; cbn; discriminate.
  - intros matches H s1.
    assert (E : ruleset_match_new w matches evp s
                = (None, {| errno := 0; log := log s1 ++ [EvTraceNoRule] |})).
    { unfold ruleset_match_new; rewrite <- (app_nil_r matches) at 1.
      rewrite ruleset_match_new_skip by exact H; reflexivity. }
    rewrite E; repeat split; cbn; discriminate.
Qed.

(** C6, at work: a remote client against two rules for local sources. *)
Lemma C6_exhaustion_is_no_rule_matched_witness :
  let evp := ex_envelope 0 in
  let m := set_from 1 (Some "localhost") ex_match in
  outcome_of (ruleset_match ex_world [ex_rule "localhost"; ex_rule "localhost"]
                evp st0) = NoRuleMatched
  /\ outcome_of (ruleset_match_new ex_world [m; m] evp st0) = NoRuleMatched.
Proof.
  intros evp m; split.
  - refine (proj1 (proj2 (proj1
             (C6_exhaustion_is_no_rule_matched ex_world evp st0)
             [ex_rule "localhost"; ex_rule "localhost"] _))).
    repeat constructor; intros s; reflexivity.
  - refine (proj1 (proj2 (proj1 (proj2
             (C6_exhaustion_is_no_rule_matched ex_world evp st0))
             [m; m] _))).
    repeat constructor; intros s; reflexivity.
Defined.

(** ** C7 *)

Lemma ruleset_match_first_wins w evp pre r rest s :
  yields (ruleset_match_rule w evp r) Matched ->
  ruleset_match w (pre ++ r :: rest) evp s = ruleset_match w (pre ++ [r]) evp s.
Proof.
  intros Hr; revert s; induction pre as [|p pre IH]; intros s; cbn [app].
  - rewrite !ruleset_match_step, (Hr s); reflexivity.
  - rewrite !ruleset_match_step; cbv zeta.
    destruct (fst (ruleset_match_rule w evp p s)); try reflexivity; apply IH.
Qed.

Lemma ruleset_match_new_first_wins w evp pre m rest i s :
  yields (ruleset_match_new_rule w evp m) Matched ->
  ruleset_match_new_from w i (pre ++ m :: rest) evp s
  = ruleset_match_new_from w i (pre ++ [m]) evp s.
Proof.
  intros Hm; revert i s; induction pre as [|p pre IH]; intros i s; cbn [app].
  - rewrite !ruleset_match_new_step, (Hm s); reflexivity.
  - rewrite !ruleset_match_new_step; cbv zeta.
    destruct (fst (ruleset_match_new_rule w evp p s)); try reflexivity; apply IH.
Qed.

(** C7.  For a fixed rule list, envelope and table contents, the outcome
    the caller reads does not depend on the state a call starts from, so
    calling again gives it again.  When two rules of the list would both
    match, the call goes exactly as if the list ended at the earlier one:
    the later one is never consulted, and the earlier one is the rule
    returned as soon as every rule before it does not match. *)
Theorem C7_deterministic_and_first_match_wins :
  forall (w : collaborators) (evp : envelope),
    (forall rules s s',
        outcome_of (ruleset_match w rules evp s)
        = outcome_of (ruleset_match w rules evp s'))
    /\
    (forall matches s s',
        outcome_of (ruleset_match_new w matches evp s)
        = outcome_of (ruleset_match_new w matches evp s'))
    /\
    (forall pre r1 mid r2 post s,
        yields (ruleset_match_rule w evp r1) Matched ->
        yields (ruleset_match_rule w evp r2) Matched ->
        ruleset_match w (pre ++ r1 :: mid ++ r2 :: post) evp s
        = ruleset_match w (pre ++ [r1]) evp s
        /\ (Forall (fun r => yields (ruleset_match_rule w evp r) Continue) pre ->
            fst (ruleset_match w (pre ++ r1 :: mid ++ r2 :: post) evp s)
            = Some r1))
    /\
    (forall pre m1 mid m2 post s,
        yields (ruleset_match_new_rule w evp m1) Matched ->
        yields (ruleset_match_new_rule w evp m2) Matched ->
        ruleset_match_new w (pre ++ m1 :: mid ++ m2 :: post) evp s
        = ruleset_match_new w (pre ++ [m1]) evp s
        /\ (Forall (fun m => yields (ruleset_match_new_rule w evp m) Continue)
                   pre ->
            fst (ruleset_match_new w (pre ++ m1 :: mid ++ m2 :: post) evp s)
            = Some m1)).
Proof.
  intros w evp; repeat split.
  - intros rules s s'; now rewrite !ruleset_match_first_match.
  - intros matches s s'; unfold ruleset_match_new.
    now rewrite !ruleset_match_new_first_match.
  - now apply ruleset_match_first_wins.
  - intros Hpre.
    rewrite ruleset_match_skip, ruleset_match_step by exact Hpre.
    now rewrite H.
  - now apply ruleset_match_new_first_wins.
  - intros Hpre; unfold ruleset_match_new.
    rewrite ruleset_match_new_skip, ruleset_match_new_step by exact Hpre.
    now rewrite H.
Qed.

(** C7, at work: of two rules that both match, the first is returned. *)
Lemma C7_deterministic_and_first_match_wins_witness :
  let evp := ex_envelope 0 in
  let m1 := set_from 1 (Some "anyhost") ex_match in
  fst (ruleset_match ex_world
         [ex_rule "localhost"; ex_rule "anyhost"; ex_rule "localhost";
          ex_rule "anyhost"] evp st0)
  = Some (ex_rule "anyhost")
  /\ fst (ruleset_match_new ex_world [m1; ex_match] evp st0) = Some m1.
Proof.
  intros evp m1; split.
  - refine (proj2 (proj1 (proj2 (proj2
             (C7_deterministic_and_first_match_wins ex_world evp)))
             [ex_rule "localhost"] (ex_rule "anyhost") [ex_rule "localhost"]
             (ex_rule "anyhost") [] st0 _ _) _).
    + intros s; reflexivity.
    + intros s; reflexivity.
    + repeat constructor; intros s; reflexivity.
  - refine (proj2 (proj2 (proj2 (proj2
             (C7_deterministic_and_first_match_wins ex_world evp)))
             [] m1 [] ex_match [] st0 _ _) _).
    + intros s; reflexivity.
    + intros s; reflexivity.
    + constructor.
Defined.

(** ** C10 *)

Lemma smtp_auth_table_authenticated m evp s :
  smtp_auth m <> 0 -> smtp_auth_table m <> None ->
  Z.land (flags evp) EF_AUTHENTICATED <> 0 ->
  ruleset_match_smtp_auth m evp s = (-1, s).
Proof.
  intros Hp Ht Ha; rewrite ruleset_match_smtp_auth_closed by exact Hp.
  apply Z.eqb_neq in Ha; rewrite Ha.
  destruct (smtp_auth_table m); [reflexivity | congruence].
Qed.

(** C10.  In [ruleset_match_smtp_auth], with the authentication criterion
    present and a credential table configured, the result is -1
    (indeterminate) exactly for an authenticated session.  For a session
    that is not authenticated the raw result is 0 and the sign applies to
    it: 0 for a plain criterion, 1 (match) for a negated one.  In both
    cases the state is untouched: no table is queried. *)
Theorem C10_auth_table_indeterminate_only_when_authenticated :
  forall (m : match_) (evp : envelope) (s : state),
    smtp_auth m <> 0 ->
    smtp_auth_table m <> None ->
    (Z.land (flags evp) EF_AUTHENTICATED <> 0 ->
     ruleset_match_smtp_auth m evp s = (-1, s))
    /\ (Z.land (flags evp) EF_AUTHENTICATED = 0 ->
        ruleset_match_smtp_auth m evp s
        = ((if smtp_auth m <? 0 then 1 else 0), s))
    /\ (fst (ruleset_match_smtp_auth m evp s) = -1
        <-> Z.land (flags evp) EF_AUTHENTICATED <> 0).
Proof.
  intros m evp s Hp Ht.
  rewrite ruleset_match_smtp_auth_closed by exact Hp.
  destruct (smtp_auth_table m) as [name|]; [clear Ht | congruence].
  destruct (Z.eqb_spec (Z.land (flags evp) EF_AUTHENTICATED) 0) as [E|E].
  - repeat split; try congruence; cbn [fst].
    destruct (smtp_auth m <? 0); intros; discriminate.
  - repeat split; try congruence; intros; contradiction.
Qed.

(** C10, at work: a negated authentication criterion with a credential
    table matches a session that is not authenticated. *)
Lemma C10_auth_table_indeterminate_only_when_authenticated_witness :
  let m := set_smtp_auth (-1) (Some "credentials") ex_match in
  ruleset_match_smtp_auth m (ex_envelope 0) st0 = (1, st0)
  /\ ruleset_match_smtp_auth m (ex_envelope EF_AUTHENTICATED) st0 = (-1, st0).
Proof.
  intros m; split.
  - refine (proj1 (proj2
      (C10_auth_table_indeterminate_only_when_authenticated
         m (ex_envelope 0) st0 _ _)) _).
    + discriminate.
    + discriminate.
    + reflexivity.
  - refine (proj1
      (C10_auth_table_indeterminate_only_when_authenticated
         m (ex_envelope EF_AUTHENTICATED) st0 _ _) _).
    + discriminate.
    + discriminate.
    + discriminate.
Defined.

(** ** C4 *)

(** A statement that never falls through keeps the iteration from reaching
    [goto matched], as long as no statement before it jumps there. *)
Lemma run_stmts_blocked bs1 b bs2 s :
  Forall (fun b' => forall s', fst (b' s') <> Matched) bs1 ->
  (forall s', fst (b s') = Tempfail) ->
  fst (run_stmts (bs1 ++ b :: bs2) s) <> Matched.
Proof.
  intros H1 Hb; revert s; induction H1 as [|b1 bs1 Hb1 _ IH]; intros s;
    cbn [app]; rewrite run_stmts_cons.
  - rewrite (Hb s); discriminate.
  - specialize (Hb1 s).
    destruct (fst (b1 s)); cbn [fst]; try discriminate; [apply IH | congruence].
Qed.

Lemma MATCH_EVAL_not_matched c s : fst (MATCH_EVAL c s) <> Matched.
Proof.
  unfold MATCH_EVAL, mbind; destruct (c s) as [v s1].
  destruct (v =? -1); [discriminate|]; destruct (v =? 0); discriminate.
Qed.

Lemma MATCH_EVAL_fault c :
  (forall s, fst (c s) = -1) -> forall s, fst (MATCH_EVAL c s) = Tempfail.
Proof. intros H; now apply yields_MATCH_EVAL_fault. Qed.

Lemma Forall_MATCH_EVAL_not_matched cs :
  Forall (fun b' : M ctl => forall s', fst (b' s') <> Matched)
         (map MATCH_EVAL cs).
Proof.
  apply Forall_forall; intros b Hb.
  apply in_map_iff in Hb as (c & <- & _); apply MATCH_EVAL_not_matched.
Qed.

(** C4 does not hold as stated: a negated authentication criterion with a
    credential table yields match (1) for a session that is not
    authenticated, and the rule is selected. *)
Lemma C4_counterexample :
  let m := set_smtp_auth (-1) (Some "credentials") ex_match in
  smtp_auth m <> 0
  /\ smtp_auth_table m = Some "credentials"
  /\ ruleset_match_smtp_auth m (ex_envelope 0) st0 = (1, st0)
  /\ fst (ruleset_match_new ex_world [m] (ex_envelope 0) st0) = Some m
  /\ outcome_of (ruleset_match_new ex_world [m] (ex_envelope 0) st0)
     <> Indeterminate.
Proof.
  cbv zeta; repeat split; try discriminate.
Qed.

(** C4, amended.  A present transport-security criterion and a present
    origin criterion with [from_socket] set always yield -1, and a present
    authentication criterion with a credential table yields -1 for an
    authenticated session; none of them queries a table, and an iteration
    over a rule holding one of them never reaches [matched].  For a session
    that is not authenticated, the authentication criterion with a
    credential table is decided without the table: see C10. *)
Theorem C4_unsupported_criteria_fail_closed :
  forall (w : collaborators) (m : match_) (evp : envelope) (s : state),
    (smtp_starttls m <> 0 ->
     ruleset_match_smtp_starttls m evp s = (-1, s)
     /\ fst (ruleset_match_new_rule w evp m s) <> Matched)
    /\ (from m <> 0 -> from_socket m = true ->
        ruleset_match_from w m evp s = (-1, s)
        /\ fst (ruleset_match_new_rule w evp m s) <> Matched)
    /\ (smtp_auth m <> 0 -> smtp_auth_table m <> None ->
        Z.land (flags evp) EF_AUTHENTICATED <> 0 ->
        ruleset_match_smtp_auth m evp s = (-1, s)
        /\ fst (ruleset_match_new_rule w evp m s) <> Matched).
Proof.
  intros w m evp s; repeat split.
  - unfold ruleset_match_smtp_starttls.
    apply Z.eqb_neq in H; now rewrite H.
  - rewrite ruleset_match_new_rule_stmts.
    apply (run_stmts_blocked
             (map MATCH_EVAL [ruleset_match_tag w m evp;
                              ruleset_match_from w m evp;
                              ruleset_match_to w m evp;
                              ruleset_match_smtp_helo w m evp;
                              ruleset_match_smtp_auth m evp])
             (MATCH_EVAL (ruleset_match_smtp_starttls m evp))
             (map MATCH_EVAL [ruleset_match_smtp_mail_from w m evp;
                              ruleset_match_smtp_rcpt_to w m evp])).
    + apply Forall_MATCH_EVAL_not_matched.
    + apply MATCH_EVAL_fault; intros s'; unfold ruleset_match_smtp_starttls.
      apply Z.eqb_neq in H; now rewrite H.
  - unfold ruleset_match_from.
    apply Z.eqb_neq in H; now rewrite H, H0.
  - rewrite ruleset_match_new_rule_stmts.
    apply (run_stmts_blocked
             (map MATCH_EVAL [ruleset_match_tag w m evp])
             (MATCH_EVAL (ruleset_match_from w m evp))
             (map MATCH_EVAL [ruleset_match_to w m evp;
                              ruleset_match_smtp_helo w m evp;
                              ruleset_match_smtp_auth m evp;
                              ruleset_match_smtp_starttls m evp;
                              ruleset_match_smtp_mail_from w m evp;
                              ruleset_match_smtp_rcpt_to w m evp])).
    + apply Forall_MATCH_EVAL_not_matched.
    + apply MATCH_EVAL_fault; intros s'; unfold ruleset_match_from.
      apply Z.eqb_neq in H; now rewrite H, H0.
  - now apply smtp_auth_table_authenticated.
  - rewrite ruleset_match_new_rule_stmts.
    apply (run_stmts_blocked
             (map MATCH_EVAL [ruleset_match_tag w m evp;
                              ruleset_match_from w m evp;
                              ruleset_match_to w m evp;
                              ruleset_match_smtp_helo w m evp])
             (MATCH_EVAL (ruleset_match_smtp_auth m evp))
             (map MATCH_EVAL [ruleset_match_smtp_starttls m evp;
                              ruleset_match_smtp_mail_from w m evp;
                              ruleset_match_smtp_rcpt_to w m evp])).
    + apply Forall_MATCH_EVAL_not_matched.
    + apply MATCH_EVAL_fault; intros s'.
      now rewrite smtp_auth_table_authenticated.
Qed.

(** C4 as amended, at work on the three criteria. *)
Lemma C4_unsupported_criteria_fail_closed_witness :
  let m_tls := set_smtp_starttls 1 ex_match in
  let m_sock := set_from_socket true (set_from 1 (Some "localhost") ex_match) in
  let m_auth := set_smtp_auth 1 (Some "credentials") ex_match in
  ruleset_match_smtp_starttls m_tls (ex_envelope 0) st0 = (-1, st0)
  /\ ruleset_match_from ex_world m_sock (ex_envelope 0) st0 = (-1, st0)
  /\ ruleset_match_smtp_auth m_auth (ex_envelope EF_AUTHENTICATED) st0
     = (-1, st0).
Proof.
  intros m_tls m_sock m_auth; split; [ | split ].
  - refine (proj1 (proj1
      (C4_unsupported_criteria_fail_closed ex_world m_tls (ex_envelope 0) st0)
      _)).
    discriminate.
  - refine (proj1 (proj1 (proj2
      (C4_unsupported_criteria_fail_closed ex_world m_sock (ex_envelope 0) st0))
      _ _)).
    + discriminate.
    + reflexivity.
  - refine (proj1 (proj2 (proj2
      (C4_unsupported_criteria_fail_closed ex_world m_auth
         (ex_envelope EF_AUTHENTICATED) st0))
      _ _ _)).
    + discriminate.
    + discriminate.
    + discriminate.
Defined.

(** ** C2 *)

(** C2 does not hold as stated: for a session that is authenticated but not
    internal, [ruleset_match_from] queries the table with the text of the
    network address, and so misses a table that holds "local", where
    [ruleset_check_source] asks for "local" and finds it. *)
Lemma C2_counterexample :
  let evp := ex_envelope EF_AUTHENTICATED in
  let m := set_from 1 (Some "localhost") ex_match in
  Z.land (flags evp) EF_AUTHENTICATED <> 0
  /\ from m <> 0
  /\ ruleset_match_from ex_world m evp st0
     = (0, {| errno := 0;
              log := [EvLookup (tbl "localhost") "192.0.2.1" K_NETADDR] |})
  /\ ruleset_check_source ex_world (tbl "localhost") (ss evp) (flags evp) st0
     = (1, {| errno := 0;
              log := [EvLookup (tbl "localhost") "local" K_NETADDR] |}).
Proof.
  cbv zeta; repeat split; discriminate.
Qed.

(** C2, amended.  [ruleset_check_source] (the attribute-bundle matcher)
    queries the source table with the key "local" whenever the session is
    authenticated or internal.  [ruleset_match_from] (the ordered-criterion
    matcher), for a present origin criterion without [from_socket], queries
    with "local" when the session is internal, and with the text of the
    network address otherwise, also when the session is authenticated. *)
Theorem C2_local_key_substitution :
  forall (w : collaborators) (evp : envelope) (s : state),
    (forall t,
        Z.land (flags evp) EF_AUTHENTICATED <> 0
        \/ Z.land (flags evp) EF_INTERNAL <> 0 ->
        let q := table_query w t "local" K_NETADDR in
        ruleset_check_source w t (ss evp) (flags evp) s
        = (lookup_int q, logs s (lookup_lines t "local" K_NETADDR q)))
    /\
    (forall m,
        from m <> 0 -> from_socket m = false ->
        let t := table_find w (from_table m) in
        (Z.land (flags evp) EF_INTERNAL <> 0 ->
         let q := table_query w t "local" K_NETADDR in
         ruleset_match_from w m evp s
         = (signed (from m) (lookup_int q),
            logs s (lookup_lines t "local" K_NETADDR q)))
        /\
        (Z.land (flags evp) EF_INTERNAL = 0 ->
         let key := ss_to_text w (ss evp) in
         let q := table_query w t key K_NETADDR in
         ruleset_match_from w m evp s
         = (signed (from m) (lookup_int q),
            logs s (lookup_lines t key K_NETADDR q)))).
Proof.
  intros w evp s; split.
  - intros t H q; rewrite ruleset_check_source_closed; cbv zeta.
    destruct (Z.eqb_spec
                (Z.land (flags evp) (Z.lor EF_AUTHENTICATED EF_INTERNAL)) 0)
      as [E|E]; [ | reflexivity ].
    apply land_mask_either in E; destruct E, H; contradiction.
  - intros m Hp Hs t; split; intros Hi; cbv zeta;
      rewrite ruleset_match_from_closed by assumption; cbv zeta.
    + apply Z.eqb_neq in Hi; rewrite Hi; reflexivity.
    + rewrite Hi; reflexivity.
Qed.

(** C2 as amended, at work: an authenticated remote session in
    [ruleset_check_source], an internal one in [ruleset_match_from]. *)
Lemma C2_local_key_substitution_witness :
  let m := set_from 1 (Some "localhost") ex_match in
  ruleset_check_source ex_world (tbl "localhost") ex_ss EF_AUTHENTICATED st0
  = (1, {| errno := 0;
           log := [EvLookup (tbl "localhost") "local" K_NETADDR] |})
  /\ ruleset_match_from ex_world m (ex_envelope EF_INTERNAL) st0
     = (1, {| errno := 0;
              log := [EvLookup (tbl "localhost") "local" K_NETADDR] |})
  /\ ruleset_match_from ex_world m (ex_envelope EF_AUTHENTICATED) st0
     = (0, {| errno := 0;
              log := [EvLookup (tbl "localhost") "192.0.2.1" K_NETADDR] |}).
Proof.
  intros m; split; [ | split ].
  - refine (proj1 (C2_local_key_substitution ex_world
                     (ex_envelope EF_AUTHENTICATED) st0)
              (tbl "localhost") _).
    left; discriminate.
  - refine (proj1 (proj2 (C2_local_key_substitution ex_world
                            (ex_envelope EF_INTERNAL) st0)
                     m _ _) _).
    + discriminate.
    + reflexivity.
    + discriminate.
  - refine (proj2 (proj2 (C2_local_key_substitution ex_world
                            (ex_envelope EF_AUTHENTICATED) st0)
                     m _ _) _).
    + discriminate.
    + reflexivity.
    + reflexivity.
Defined.

(** ** C5 *)

Lemma sign_tests p n :
  0 < p -> n < 0 ->
  (p =? 0) = false /\ (p <? 0) = false /\ (n =? 0) = false /\ (n <? 0) = true.
Proof.
  intros Hp Hn; repeat split;
    [ apply Z.eqb_neq | apply Z.ltb_ge | apply Z.eqb_neq | apply Z.ltb_lt ]; lia.
Qed.

Ltac sign_cases Hp Hn :=
  destruct (sign_tests _ _ Hp Hn) as (E1 & E2 & E3 & E4);
  cbn [m_tag tag_table from from_socket from_table to to_table smtp_helo
       smtp_helo_table smtp_auth smtp_auth_table smtp_starttls smtp_mail_from
       smtp_mail_from_table smtp_rcpt_to smtp_rcpt_to_table
       set_m_tag set_from set_to set_smtp_helo set_smtp_auth set_smtp_starttls
       set_smtp_mail_from set_smtp_rcpt_to];
  rewrite ?E1, ?E2, ?E3, ?E4.

Ltac lookup_cases :=
  unfold mbind; rewrite ?ruleset_match_table_lookup_closed;
  match goal with
  | |- context [table_query ?w ?t ?k ?svc] =>
      destruct (table_query w t k svc); reflexivity
  end.

Lemma signed_apply_sign x q :
  signed x (lookup_int q) = apply_sign (x <? 0) (lookup_int q).
Proof. unfold signed, apply_sign; destruct q, (x <? 0); reflexivity. Qed.

(** Every criterion of [struct match] returns -1, 0 or 1. *)
Lemma match_criteria_range w evp m c s :
  In c (match_criteria w evp m) -> In (fst (c s)) [-1; 0; 1].
Proof.
  unfold match_criteria; cbn [In]; intros H.
  repeat (destruct H as [<- | H]); [ .. | contradiction ].
  - unfold ruleset_match_tag; destruct (m_tag m =? 0); [cbn; tauto|].
    unfold mbind; rewrite ruleset_match_table_lookup_closed.
    destruct (table_query w _ _ _), (m_tag m <? 0); cbn; tauto.
  - unfold ruleset_match_from; destruct (from m =? 0); [cbn; tauto|].
    destruct (from_socket m); [cbn; tauto|].
    unfold mbind; rewrite ruleset_match_table_lookup_closed.
    destruct (table_query w _ _ _), (from m <? 0); cbn; tauto.
  - unfold ruleset_match_to; destruct (to m =? 0); [cbn; tauto|].
    unfold mbind; rewrite ruleset_match_table_lookup_closed.
    destruct (table_query w _ _ _), (to m <? 0); cbn; tauto.
  - unfold ruleset_match_smtp_helo; destruct (smtp_helo m =? 0); [cbn; tauto|].
    unfold mbind; rewrite ruleset_match_table_lookup_closed.
    destruct (table_query w _ _ _), (smtp_helo m <? 0); cbn; tauto.
  - unfold ruleset_match_smtp_auth; destruct (smtp_auth m =? 0); [cbn; tauto|].
    destruct (Z.land (flags evp) EF_AUTHENTICATED =? 0),
             (smtp_auth_table m), (smtp_auth m <? 0); cbn; tauto.
  - unfold ruleset_match_smtp_starttls;
      destruct (smtp_starttls m =? 0); cbn; tauto.
  - unfold ruleset_match_smtp_mail_from;
      destruct (smtp_mail_from m =? 0); [cbn; tauto|].
    destruct (mailaddr_to_text w (sender evp)); [|cbn; tauto].
    unfold mbind; rewrite ruleset_match_table_lookup_closed.
    destruct (table_query w _ _ _), (smtp_mail_from m <? 0); cbn; tauto.
  - unfold ruleset_match_smtp_rcpt_to;
      destruct (smtp_rcpt_to m =? 0); [cbn; tauto|].
    destruct (mailaddr_to_text w (dest evp)); [|cbn; tauto].
    unfold mbind; rewrite ruleset_match_table_lookup_closed.
    destruct (table_query w _ _ _), (smtp_rcpt_to m <? 0); cbn; tauto.
Qed.

(** C5.  [invert] swaps match (1) and no-match (0) and leaves
    indeterminate (-1).  Each criterion of [struct match] with a negative
    sign returns [invert] of what the same criterion returns with a positive
    sign, and leaves the same state: the sign is applied after the lookup,
    to its boolean result only.  The result itself is the raw result under
    the sign: the raw result of a table criterion is what the table says
    (1 found, 0 not found, -1 failure, and -1 for an address without a
    text), that of the authentication criterion is the session flag, or -1
    with a credential table on an authenticated session, and the result is
    the raw one for a positive sign and its [invert] for a negative one.
    The statements of [ruleset_match] do the same with their [r_not...]
    flags: each ends as its raw result (fall through on found, skip the
    rule on not found, temporary failure on a failed lookup) says, inverted
    when the flag is set, a temporary failure staying one. *)
Theorem C5_sign_inverts_boolean_results_only :
  forall (w : collaborators) (evp : envelope) (s : state) (p n : Z),
    0 < p -> n < 0 ->
    (invert 1 = 0 /\ invert 0 = 1 /\ invert (-1) = -1)
    /\ (forall m c, In c (match_criteria w evp m) -> In (fst (c s)) [-1; 0; 1])
    /\ (forall m t,
           ruleset_match_tag w (set_m_tag n t m) evp s
           = (invert (fst (ruleset_match_tag w (set_m_tag p t m) evp s)),
              snd (ruleset_match_tag w (set_m_tag p t m) evp s)))
    /\ (forall m t,
           ruleset_match_from w (set_from n t m) evp s
           = (invert (fst (ruleset_match_from w (set_from p t m) evp s)),
              snd (ruleset_match_from w (set_from p t m) evp s)))
    /\ (forall m t,
           ruleset_match_to w (set_to n t m) evp s
           = (invert (fst (ruleset_match_to w (set_to p t m) evp s)),
              snd (ruleset_match_to w (set_to p t m) evp s)))
    /\ (forall m t,
           ruleset_match_smtp_helo w (set_smtp_helo n t m) evp s
           = (invert (fst (ruleset_match_smtp_helo w (set_smtp_helo p t m) evp s)),
              snd (ruleset_match_smtp_helo w (set_smtp_helo p t m) evp s)))
    /\ (forall m t,
           ruleset_match_smtp_auth (set_smtp_auth n t m) evp s
           = (invert (fst (ruleset_match_smtp_auth (set_smtp_auth p t m) evp s)),
              snd (ruleset_match_smtp_auth (set_smtp_auth p t m) evp s)))
    /\ (forall m,
           ruleset_match_smtp_starttls (set_smtp_starttls n m) evp s
           = (invert (fst (ruleset_match_smtp_starttls
                             (set_smtp_starttls p m) evp s)),
              snd (ruleset_match_smtp_starttls (set_smtp_starttls p m) evp s)))
    /\ (forall m t,
           ruleset_match_smtp_mail_from w (set_smtp_mail_from n t m) evp s
           = (invert (fst (ruleset_match_smtp_mail_from w
                             (set_smtp_mail_from p t m) evp s)),
              snd (ruleset_match_smtp_mail_from w
                     (set_smtp_mail_from p t m) evp s)))
    /\ (forall m t,
           ruleset_match_smtp_rcpt_to w (set_smtp_rcpt_to n t m) evp s
           = (invert (fst (ruleset_match_smtp_rcpt_to w
                             (set_smtp_rcpt_to p t m) evp s)),
              snd (ruleset_match_smtp_rcpt_to w
                     (set_smtp_rcpt_to p t m) evp s)))
    /\ (forall check,
           fail_or_skip check true s
           = (invert_ctl (fst (fail_or_skip check false s)),
              snd (fail_or_skip check false s)))
    /\ (forall r,
           r_tag r <> "" ->
           rule_tag evp (set_r_nottag true r) s
           = (invert_ctl (fst (rule_tag evp (set_r_nottag false r) s)),
              snd (rule_tag evp (set_r_nottag false r) s)))
    /\ (forall r,
           r_wantauth r = true ->
           rule_wantauth evp (set_r_negwantauth true r) s
           = (invert_ctl (fst (rule_wantauth evp (set_r_negwantauth false r) s)),
              snd (rule_wantauth evp (set_r_negwantauth false r) s)))
    /\ (forall m,
           (m_tag m <> 0 ->
            let t := table_find w (tag_table m) in
            let q := table_query w t (tag evp) K_STRING in
            ruleset_match_tag w m evp s
            = (apply_sign (m_tag m <? 0) (lookup_int q),
               logs s (lookup_lines t (tag evp) K_STRING q)))
           /\ (from m <> 0 -> from_socket m = false ->
               let t := table_find w (from_table m) in
               let key := if negb (Z.land (flags evp) EF_INTERNAL =? 0)
                          then "local" else ss_to_text w (ss evp) in
               let q := table_query w t key K_NETADDR in
               ruleset_match_from w m evp s
               = (apply_sign (from m <? 0) (lookup_int q),
                  logs s (lookup_lines t key K_NETADDR q)))
           /\ (to m <> 0 ->
               let t := table_find w (to_table m) in
               let q := table_query w t (domain (dest evp)) K_DOMAIN in
               ruleset_match_to w m evp s
               = (apply_sign (to m <? 0) (lookup_int q),
                  logs s (lookup_lines t (domain (dest evp)) K_DOMAIN q)))
           /\ (smtp_helo m <> 0 ->
               let t := table_find w (smtp_helo_table m) in
               let q := table_query w t (helo evp) K_DOMAIN in
               ruleset_match_smtp_helo w m evp s
               = (apply_sign (smtp_helo m <? 0) (lookup_int q),
                  logs s (lookup_lines t (helo evp) K_DOMAIN q)))
           /\ (smtp_auth m <> 0 ->
               ruleset_match_smtp_auth m evp s
               = (apply_sign (smtp_auth m <? 0)
                    (if Z.land (flags evp) EF_AUTHENTICATED =? 0 then 0
                     else match smtp_auth_table m with
                          | Some _ => -1
                          | None => 1
                          end), s))
           /\ (smtp_starttls m <> 0 ->
               ruleset_match_smtp_starttls m evp s
               = (apply_sign (smtp_starttls m <? 0) (-1), s))
           /\ (smtp_mail_from m <> 0 ->
               let t := table_find w (smtp_mail_from_table m) in
               ruleset_match_smtp_mail_from w m evp s
               = match mailaddr_to_text w (sender evp) with
                 | None => (apply_sign (smtp_mail_from m <? 0) (-1), s)
                 | Some key =>
                     (apply_sign (smtp_mail_from m <? 0)
                        (lookup_int (table_query w t key K_MAILADDR)),
                      logs s (lookup_lines t key K_MAILADDR
                                (table_query w t key K_MAILADDR)))
                 end)
           /\ (smtp_rcpt_to m <> 0 ->
               let t := table_find w (smtp_rcpt_to_table m) in
               ruleset_match_smtp_rcpt_to w m evp s
               = match mailaddr_to_text w (dest evp) with
                 | None => (apply_sign (smtp_rcpt_to m <? 0) (-1), s)
                 | Some key =>
                     (apply_sign (smtp_rcpt_to m <? 0)
                        (lookup_int (table_query w t key K_MAILADDR)),
                      logs s (lookup_lines t key K_MAILADDR
                                (table_query w t key K_MAILADDR)))
                 end))
    /\ (forall r,
           (r_tag r <> "" ->
            rule_tag evp r s
            = (apply_not (r_nottag r)
                 (if (r_tag r =? tag evp)%string then Fallthrough
                  else Continue), s))
           /\ (r_wantauth r = true ->
               rule_wantauth evp r s
               = (apply_not (r_negwantauth r)
                    (if Z.land (flags evp) EF_AUTHENTICATED =? 0
                     then Continue else Fallthrough), s))
           /\ fst (rule_sources w evp r s)
              = apply_not (r_notsources r)
                  (raw_ctl (table_query w (r_sources r) (source_key w evp)
                              K_NETADDR))
           /\ (r_senders r <> None ->
               fst (rule_senders w evp r s)
               = apply_not (r_notsenders r)
                   match mailaddr_to_text w (sender evp) with
                   | None => Tempfail
                   | Some key =>
                       raw_ctl (table_query w (r_senders r) key K_MAILADDR)
                   end)
           /\ (r_recipients r <> None ->
               fst (rule_recipients w evp r s)
               = apply_not (r_notrecipients r)
                   match mailaddr_to_text w (dest evp) with
                   | None => Tempfail
                   | Some key =>
                       raw_ctl (table_query w (r_recipients r) key K_MAILADDR)
                   end)
           /\ fst (rule_destination w evp r s)
              = apply_not (r_notdestination r)
                  match r_destination r with
                  | None => Fallthrough
                  | Some _ =>
                      raw_ctl (table_query w (r_destination r)
                                 (domain (dest evp)) K_DOMAIN)
                  end).
Proof.
  intros w evp s p n Hp Hn.
  split; [repeat split|].
  split; [intros m c; apply match_criteria_range|].
  repeat match goal with |- _ /\ _ => split end.
  13:{ intros r; split; [ | split; [ | split; [ | split; [ | split ] ] ] ].
       - intros Hr; unfold rule_tag.
         apply String.eqb_neq in Hr; rewrite Hr; cbv zeta; cbn [negb].
         rewrite strcmp_eqb.
         destruct (r_tag r =? tag evp)%string, (r_nottag r); reflexivity.
       - intros Hr; unfold rule_wantauth; rewrite Hr.
         destruct (Z.land (flags evp) EF_AUTHENTICATED =? 0),
           (r_negwantauth r); reflexivity.
       - unfold rule_sources; rewrite fst_fail_or_skip.
         rewrite ruleset_check_source_closed; cbv zeta; cbn [fst].
         fold (source_key w evp).
         destruct (table_query w (r_sources r) (source_key w evp) K_NETADDR),
           (r_notsources r); reflexivity.
       - intros Hr; unfold rule_senders.
         destruct (r_senders r) as [t|]; [ | congruence ].
         rewrite fst_fail_or_skip.
         destruct (mailaddr_to_text w (sender evp)) as [key|] eqn:E.
         + rewrite (ruleset_check_mailaddr_closed w (Some t) _ key s E).
           cbn [fst].
           destruct (table_query w (Some t) key K_MAILADDR),
             (r_notsenders r); reflexivity.
         + unfold ruleset_check_mailaddr; rewrite E.
           destruct (r_notsenders r); reflexivity.
       - intros Hr; unfold rule_recipients.
         destruct (r_recipients r) as [t|]; [ | congruence ].
         rewrite fst_fail_or_skip.
         destruct (mailaddr_to_text w (dest evp)) as [key|] eqn:E.
         + rewrite (ruleset_check_mailaddr_closed w (Some t) _ key s E).
           cbn [fst].
           destruct (table_query w (Some t) key K_MAILADDR),
             (r_notrecipients r); reflexivity.
         + unfold ruleset_check_mailaddr; rewrite E.
           destruct (r_notrecipients r); reflexivity.
       - unfold rule_destination; rewrite fst_fail_or_skip.
         destruct (r_destination r) as [t|].
         + rewrite table_lookup_closed; cbn [fst].
           destruct (table_query w (Some t) (domain (dest evp)) K_DOMAIN),
             (r_notdestination r); reflexivity.
         + destruct (r_notdestination r); reflexivity. }
  12:{ intros m;
         split; [ | split; [ | split; [ | split; [ | split;
           [ | split; [ | split ] ] ] ] ] ].
       - intros H; rewrite ruleset_match_tag_closed by exact H; cbv zeta.
         now rewrite signed_apply_sign.
       - intros H H'; rewrite ruleset_match_from_closed by assumption.
         cbv zeta; now rewrite signed_apply_sign.
       - intros H; rewrite ruleset_match_to_closed by exact H; cbv zeta.
         now rewrite signed_apply_sign.
       - intros H; rewrite ruleset_match_smtp_helo_closed by exact H.
         cbv zeta; now rewrite signed_apply_sign.
       - intros H; rewrite ruleset_match_smtp_auth_closed by exact H.
         destruct (Z.land (flags evp) EF_AUTHENTICATED =? 0),
           (smtp_auth_table m), (smtp_auth m <? 0); reflexivity.
       - intros H; unfold ruleset_match_smtp_starttls.
         apply Z.eqb_neq in H; rewrite H.
         destruct (smtp_starttls m <? 0); reflexivity.
       - intros H; cbv zeta.
         destruct (mailaddr_to_text w (sender evp)) as [key|] eqn:E.
         + rewrite (ruleset_match_smtp_mail_from_closed w m evp key s H E).
           cbv zeta; now rewrite signed_apply_sign.
         + unfold ruleset_match_smtp_mail_from.
           apply Z.eqb_neq in H; rewrite H, E.
           destruct (smtp_mail_from m <? 0); reflexivity.
       - intros H; cbv zeta.
         destruct (mailaddr_to_text w (dest evp)) as [key|] eqn:E.
         + rewrite (ruleset_match_smtp_rcpt_to_closed w m evp key s H E).
           cbv zeta; now rewrite signed_apply_sign.
         + unfold ruleset_match_smtp_rcpt_to.
           apply Z.eqb_neq in H; rewrite H, E.
           destruct (smtp_rcpt_to m <? 0); reflexivity. }
  - intros m t; unfold ruleset_match_tag; sign_cases Hp Hn; lookup_cases.
  - intros m t; unfold ruleset_match_from; sign_cases Hp Hn.
    destruct (from_socket m); [reflexivity | lookup_cases].
  - intros m t; unfold ruleset_match_to; sign_cases Hp Hn; lookup_cases.
  - intros m t; unfold ruleset_match_smtp_helo; sign_cases Hp Hn; lookup_cases.
  - intros m t; unfold ruleset_match_smtp_auth; sign_cases Hp Hn.
    destruct (Z.land (flags evp) EF_AUTHENTICATED =? 0); [reflexivity|].
    destruct t; reflexivity.
  - intros m; unfold ruleset_match_smtp_starttls; sign_cases Hp Hn; reflexivity.
  - intros m t; unfold ruleset_match_smtp_mail_from; sign_cases Hp Hn.
    destruct (mailaddr_to_text w (sender evp)); [lookup_cases | reflexivity].
  - intros m t; unfold ruleset_match_smtp_rcpt_to; sign_cases Hp Hn.
    destruct (mailaddr_to_text w (dest evp)); [lookup_cases | reflexivity].
  - intros check; unfold fail_or_skip, mbind.
    destruct (check s) as [v s1].
    destruct (Z.eqb_spec v (-1)); [reflexivity|].
    destruct (Z.eqb_spec v 0); reflexivity.
  - intros r Hr; unfold rule_tag; cbn [r_tag r_nottag set_r_nottag].
    apply String.eqb_neq in Hr; rewrite Hr; cbv zeta.
    destruct (strcmp (r_tag r) (tag evp) =? 0); reflexivity.
  - intros r Hr; unfold rule_wantauth;
      cbn [r_wantauth r_negwantauth set_r_negwantauth]; rewrite Hr.
    destruct (Z.land (flags evp) EF_AUTHENTICATED =? 0); reflexivity.
Qed.

(** C5, at work: a sender table that holds the address, plain and
    negated; a failing one, plain and negated. *)
Lemma C5_sign_inverts_boolean_results_only_witness :
  let evp := ex_envelope 0 in
  ruleset_match_smtp_mail_from ex_world
    (set_smtp_mail_from (-1) (Some "anyhost") ex_match) evp st0
  = (invert (fst (ruleset_match_smtp_mail_from ex_world
                    (set_smtp_mail_from 1 (Some "anyhost") ex_match) evp st0)),
     snd (ruleset_match_smtp_mail_from ex_world
            (set_smtp_mail_from 1 (Some "anyhost") ex_match) evp st0))
  /\ fst (ruleset_match_smtp_mail_from ex_world
            (set_smtp_mail_from 1 (Some "anyhost") ex_match) evp st0) = 1
  /\ fst (ruleset_match_smtp_mail_from ex_world
            (set_smtp_mail_from (-1) (Some "anyhost") ex_match) evp st0) = 0
  /\ fst (ruleset_match_smtp_mail_from ex_world
            (set_smtp_mail_from 1 (Some "broken") ex_match) evp st0) = -1
  /\ fst (ruleset_match_smtp_mail_from ex_world
            (set_smtp_mail_from (-1) (Some "broken") ex_match) evp st0) = -1.
Proof.
  intros evp; split; [ | repeat split ].
  refine (proj1 (proj2 (proj2 (proj2 (proj2 (proj2 (proj2 (proj2 (proj2
    (C5_sign_inverts_boolean_results_only ex_world evp st0 1 (-1) _ _)))))))))
    ex_match (Some "anyhost")).
  - reflexivity.
  - reflexivity.
Defined.

(** ** C8 *)

Lemma rule_sources_closed w evp r s :
  let q := table_query w (r_sources r) (source_key w evp) K_NETADDR in
  let v := source_verdict q (r_notsources r) in
  rule_sources w evp r s
  = (v, failing v (logs s (lookup_lines (r_sources r) (source_key w evp)
                             K_NETADDR q))).
Proof.
  intros q v; unfold rule_sources, fail_or_skip, mbind.
  rewrite ruleset_check_source_closed; cbv zeta.
  fold (source_key w evp); fold q; subst v.
  destruct q, (r_notsources r); reflexivity.
Qed.






(** ** C9 *)

(** An iteration that leaves on the temporary-failure path ends the call. *)
Lemma ruleset_match_tempfail w evp pre r post s :
  Forall (fun r' => yields (ruleset_match_rule w evp r') Continue) pre ->
  yields (ruleset_match_rule w evp r) Tempfail ->
  ruleset_match w (pre ++ r :: post) evp s
  = (None,
     {| errno := EAGAIN;
        log := log (snd (ruleset_match_rule w evp r
                 (snd (exec (map (ruleset_match_rule w evp) pre) s)))) |}).
Proof.
  intros Hpre Hr.
  rewrite ruleset_match_skip, ruleset_match_step, (Hr _) by exact Hpre.
  cbv zeta; f_equal.
  rewrite (stmt_ok_ruleset_match_rule w evp r), (Hr st0 : val _ = _).
  reflexivity.
Qed.

Lemma ruleset_match_new_tempfail w evp pre m post s :
  Forall (fun m' => yields (ruleset_match_new_rule w evp m') Continue) pre ->
  yields (ruleset_match_new_rule w evp m) Tempfail ->
  ruleset_match_new w (pre ++ m :: post) evp s
  = (None,
     {| errno := EAGAIN;
        log := log (snd (ruleset_match_new_rule w evp m
                 (snd (exec (map (ruleset_match_new_rule w evp) pre) s))))
               ++ [EvTraceTempfail] |}).
Proof.
  intros Hpre Hm; unfold ruleset_match_new.
  rewrite ruleset_match_new_skip, ruleset_match_new_step, (Hm _) by exact Hpre.
  reflexivity.
Qed.

(** The elements before position [i] of a list, when all of them satisfy
    what the positions below [i] satisfy. *)
Lemma nth_error_prefix {A} (P : A -> Prop) (l : list A) (i : nat) (a : A) :
  nth_error l i = Some a ->
  (forall k c, (k < i)%nat -> nth_error l k = Some c -> P c) ->
  exists l1 l2, l = l1 ++ a :: l2 /\ Forall P l1.
Proof.
  intros Hi Hbefore.
  destruct (nth_error_split l i Hi) as (l1 & l2 & -> & Hlen).
  exists l1, l2; split; [reflexivity|].
  apply Forall_forall; intros c Hc.
  destruct (In_nth_error l1 c Hc) as (k & Hk).
  assert (Hlt : (k < List.length l1)%nat)
    by (apply nth_error_Some; congruence).
  apply (Hbefore k c); [lia|].
  rewrite nth_error_app1 by exact Hlt; exact Hk.
Qed.

(** C9 does not hold as stated for [ruleset_match]: with the origin
    criterion indeterminate (its table fails) and the authentication
    criterion no-match, origin before authentication in the documented
    order, the rule is passed over and the next rule is returned, the
    failing table never queried. *)
Lemma C9_counterexample :
  let evp := ex_envelope 0 in
  let r := {| r_tag := ""; r_nottag := false;
              r_wantauth := true; r_negwantauth := false;
              r_sources := tbl "broken"; r_notsources := false;
              r_senders := None; r_notsenders := false;
              r_recipients := None; r_notrecipients := false;
              r_destination := None; r_notdestination := false |} in
  fst (ruleset_check_source ex_world (r_sources r) (ss evp) (flags evp) st0) = -1
  /\ fst (rule_sources ex_world evp r st0) = Tempfail
  /\ fst (rule_wantauth evp r st0) = Continue
  /\ fst (ruleset_match_rule ex_world evp r st0) = Continue
  /\ ruleset_match ex_world [r; ex_rule "anyhost"] evp st0
     = (Some (ex_rule "anyhost"),
        {| errno := 0;
           log := [ EvLookup (tbl "anyhost") "192.0.2.1" K_NETADDR;
                    EvTraceRuleMatched (ex_rule "anyhost") ] |})
  /\ outcome_of (ruleset_match ex_world [r; ex_rule "anyhost"] evp st0)
     <> Indeterminate.
Proof.
  cbv zeta; repeat split; discriminate.
Qed.

(** C9, amended.  [ruleset_match_new] evaluates the criteria of a rule in
    the documented order: tag, origin, destination, identity,
    authentication, transport-security, sender, recipient.
    [ruleset_match] evaluates in an order of its own: tag, authentication,
    origin, sender, recipient, destination.  In each matcher, taking the
    criteria in that matcher's order, when one yields indeterminate, a
    later one yields no-match and those before the first pass, the rule
    ends on the temporary-failure path, and the call, once the rule is
    reached, returns [Indeterminate] exactly as if the list ended at that
    rule: no later rule is evaluated. *)
Theorem C9_fixed_order_and_fault_precedence :
  forall (w : collaborators) (evp : envelope) (s : state),
    (forall m,
        ruleset_match_new_rule w evp m
        = run_stmts (map MATCH_EVAL
            [ ruleset_match_tag w m evp; ruleset_match_from w m evp;
              ruleset_match_to w m evp; ruleset_match_smtp_helo w m evp;
              ruleset_match_smtp_auth m evp; ruleset_match_smtp_starttls m evp;
              ruleset_match_smtp_mail_from w m evp;
              ruleset_match_smtp_rcpt_to w m evp ]))
    /\
    (forall r,
        ruleset_match_rule w evp r
        = run_stmts
            [ rule_tag evp r; rule_wantauth evp r; rule_sources w evp r;
              rule_senders w evp r; rule_recipients w evp r;
              rule_destination w evp r ])
    /\
    (forall pre m post i j A B,
        (i < j)%nat ->
        nth_error (match_criteria w evp m) i = Some A ->
        nth_error (match_criteria w evp m) j = Some B ->
        yields A (-1) -> yields B 0 ->
        (forall k c, (k < i)%nat ->
                     nth_error (match_criteria w evp m) k = Some c ->
                     yields c 1) ->
        yields (ruleset_match_new_rule w evp m) Tempfail
        /\ (Forall (fun m' => yields (ruleset_match_new_rule w evp m') Continue)
                   pre ->
            ruleset_match_new w (pre ++ m :: post) evp s
            = ruleset_match_new w (pre ++ [m]) evp s
            /\ outcome_of (ruleset_match_new w (pre ++ m :: post) evp s)
               = Indeterminate))
    /\
    (forall pre r post i j A B,
        (i < j)%nat ->
        nth_error (rule_stmts w evp r) i = Some A ->
        nth_error (rule_stmts w evp r) j = Some B ->
        yields A Tempfail -> yields B Continue ->
        (forall k c, (k < i)%nat ->
                     nth_error (rule_stmts w evp r) k = Some c ->
                     yields c Fallthrough) ->
        yields (ruleset_match_rule w evp r) Tempfail
        /\ (Forall (fun r' => yields (ruleset_match_rule w evp r') Continue)
                   pre ->
            ruleset_match w (pre ++ r :: post) evp s
            = ruleset_match w (pre ++ [r]) evp s
            /\ outcome_of (ruleset_match w (pre ++ r :: post) evp s)
               = Indeterminate)).
Proof.
  intros w evp s; split; [reflexivity | split; [reflexivity | split]].
  - intros pre m post i j A B _ Hi _ HA _ Hbefore.
    destruct (nth_error_prefix (fun c => yields c 1) _ i A Hi Hbefore)
      as (cs1 & cs2 & Hsplit & Hcs1).
    assert (Hm : yields (ruleset_match_new_rule w evp m) Tempfail).
    { intros s'; rewrite ruleset_match_new_rule_stmts, Hsplit, map_app.
      cbn [map].
      rewrite (run_stmts_leave (map MATCH_EVAL cs1) (MATCH_EVAL A)
                 (map MATCH_EVAL cs2) Tempfail);
        [ reflexivity | | now apply yields_MATCH_EVAL_fault | discriminate ].
      apply Forall_forall; intros b Hb.
      apply in_map_iff in Hb as (c' & <- & Hc').
      apply yields_MATCH_EVAL_pass.
      rewrite Forall_forall in Hcs1; now apply Hcs1. }
    split; [exact Hm|].
    intros Hpre.
    rewrite !(ruleset_match_new_tempfail w evp pre m) by assumption.
    split; reflexivity.
  - intros pre r post i j A B _ Hi _ HA _ Hbefore.
    destruct (nth_error_prefix (fun c => yields c Fallthrough) _ i A Hi Hbefore)
      as (bs1 & bs2 & Hsplit & Hbs1).
    assert (Hr : yields (ruleset_match_rule w evp r) Tempfail).
    { intros s'; rewrite ruleset_match_rule_stmts, Hsplit.
      rewrite (run_stmts_leave bs1 A bs2 Tempfail);
        [ reflexivity | assumption | assumption | discriminate ]. }
    split; [exact Hr|].
    intros Hpre.
    rewrite !(ruleset_match_tempfail w evp pre r) by assumption.
    split; reflexivity.
Qed.

(** C9 as amended, at work: in [ruleset_match_new] a failing origin table
    comes before a sender that is not listed; in [ruleset_match] a failing
    sender table comes before a destination that is not listed. *)
Lemma C9_fixed_order_and_fault_precedence_witness :
  let evp := ex_envelope 0 in
  let m := set_smtp_mail_from 1 (Some "localhost")
             (set_from 1 (Some "broken") ex_match) in
  let r := {| r_tag := ""; r_nottag := false;
              r_wantauth := false; r_negwantauth := false;
              r_sources := tbl "anyhost"; r_notsources := false;
              r_senders := tbl "broken"; r_notsenders := false;
              r_recipients := None; r_notrecipients := false;
              r_destination := tbl "localhost"; r_notdestination := false |} in
  outcome_of (ruleset_match_new ex_world [m; ex_match] evp st0) = Indeterminate
  /\ outcome_of (ruleset_match ex_world [r; ex_rule "anyhost"] evp st0)
     = Indeterminate.
Proof.
  intros evp m r; split.
  - refine (proj2 (proj2 (proj1 (proj2 (proj2
      (C9_fixed_order_and_fault_precedence ex_world evp st0)))
      [] m [ex_match] 1%nat 6%nat
      (ruleset_match_from ex_world m evp)
      (ruleset_match_smtp_mail_from ex_world m evp) _ _ _ _ _ _) _)).
    + repeat constructor.
    + reflexivity.
    + reflexivity.
    + intros s; reflexivity.
    + intros s; reflexivity.
    + intros k c Hk; destruct k as [|k]; [ | exfalso; lia ].
      intros E; injection E as <-; intros s; reflexivity.
    + constructor.
  - refine (proj2 (proj2 (proj2 (proj2 (proj2
      (C9_fixed_order_and_fault_precedence ex_world evp st0)))
      [] r [ex_rule "anyhost"] 3%nat 5%nat
      (rule_senders ex_world evp r)
      (rule_destination ex_world evp r) _ _ _ _ _ _) _)).
    + repeat constructor.
    + reflexivity.
    + reflexivity.
    + intros s; reflexivity.
    + intros s; reflexivity.
    + intros k c Hk.
      destruct k as [|[|[|k]]]; [ | | | exfalso; lia ];
        intros E; injection E as <-; intros s; reflexivity.
    + constructor.
Defined.

(** ** C3 *)

Lemma source_key_internal w evp :
  (Z.land (flags evp) EF_AUTHENTICATED <> 0 ->
   Z.land (flags evp) EF_INTERNAL <> 0) ->
  source_key w evp
  = if negb (Z.land (flags evp) EF_INTERNAL =? 0)
    then "local" else ss_to_text w (ss evp).
Proof.
  intros H; unfold source_key.
  destruct (Z.eqb_spec (Z.land (flags evp) (Z.lor EF_AUTHENTICATED EF_INTERNAL)) 0)
    as [E|E].
  - apply land_mask_either in E as [_ E]; now rewrite E.
  - destruct (Z.eqb_spec (Z.land (flags evp) EF_INTERNAL) 0) as [Ei|Ei];
      [ | reflexivity ].
    exfalso; apply E, land_mask_either; split; [ | exact Ei ].
    destruct (Z.eq_dec (Z.land (flags evp) EF_AUTHENTICATED) 0) as [Ea|Ea];
      [ exact Ea | now apply H in Ea ].
Qed.

(** Criterion by criterion, a [struct match] that says the same as a
    [struct rule] ends the same way. *)

Lemma agree_tag w evp r m s s' :
  same_tag w r m ->
  fst (MATCH_EVAL (ruleset_match_tag w m evp) s') = fst (rule_tag evp r s).
Proof.
  unfold same_tag, rule_tag; intros H.
  destruct (r_tag r =? "")%string; cbn [negb].
  - rewrite fst_MATCH_EVAL; unfold ruleset_match_tag; now rewrite H.
  - destruct H as (Hp & Hs & Ht).
    rewrite fst_MATCH_EVAL, ruleset_match_tag_closed by exact Hp.
    cbv zeta; cbn [fst]; unfold signed; rewrite Ht, strcmp_eqb, Hs.
    rewrite (String.eqb_sym (tag evp) (r_tag r)).
    destruct (r_tag r =? tag evp)%string, (r_nottag r); reflexivity.
Qed.

Lemma agree_auth evp r m s s' :
  (if r_wantauth r
   then smtp_auth m <> 0 /\ (smtp_auth m <? 0) = r_negwantauth r
        /\ smtp_auth_table m = None
   else smtp_auth m = 0) ->
  fst (MATCH_EVAL (ruleset_match_smtp_auth m evp) s')
  = fst (rule_wantauth evp r s).
Proof.
  unfold rule_wantauth; intros H.
  rewrite fst_MATCH_EVAL.
  destruct (r_wantauth r).
  - destruct H as (Hp & Hs & Ht).
    rewrite ruleset_match_smtp_auth_closed, Ht, Hs by exact Hp; cbn [fst].
    destruct (Z.land (flags evp) EF_AUTHENTICATED =? 0), (r_negwantauth r);
      reflexivity.
  - unfold ruleset_match_smtp_auth; now rewrite H.
Qed.

Lemma agree_from w evp r m s s' :
  (Z.land (flags evp) EF_AUTHENTICATED <> 0 ->
   Z.land (flags evp) EF_INTERNAL <> 0) ->
  from m <> 0 /\ (from m <? 0) = r_notsources r
  /\ from_socket m = false /\ table_find w (from_table m) = r_sources r ->
  fst (MATCH_EVAL (ruleset_match_from w m evp) s')
  = fst (rule_sources w evp r s).
Proof.
  intros Hk (Hp & Hs & Hsock & Ht).
  rewrite rule_sources_closed, fst_MATCH_EVAL,
    ruleset_match_from_closed by assumption.
  cbv zeta; cbn [fst].
  unfold signed, source_verdict.
  rewrite Ht, Hs, <- (source_key_internal w evp Hk).
  destruct (table_query w (r_sources r) (source_key w evp) K_NETADDR),
    (r_notsources r); reflexivity.
Qed.

Lemma agree_to w evp r m s s' :
  same_criterion w (r_destination r) (r_notdestination r) (to m) (to_table m)
  /\ (r_destination r = None -> r_notdestination r = false) ->
  fst (MATCH_EVAL (ruleset_match_to w m evp) s')
  = fst (rule_destination w evp r s).
Proof.
  unfold same_criterion, rule_destination; intros (H & Hn).
  rewrite fst_MATCH_EVAL, fst_fail_or_skip.
  destruct (r_destination r) as [t|].
  - destruct H as (Hp & Hs & Ht).
    rewrite ruleset_match_to_closed, table_lookup_closed by exact Hp.
    cbv zeta; cbn [fst]; unfold signed; rewrite Ht, Hs.
    destruct (table_query w (Some t) (domain (dest evp)) K_DOMAIN),
      (r_notdestination r); reflexivity.
  - unfold ruleset_match_to; rewrite H, (Hn eq_refl); reflexivity.
Qed.

Lemma agree_mailaddr w t not_ x name a s s' (crit : M Z) :
  same_criterion w t not_ x name ->
  (x = 0 -> crit s' = (1, s')) ->
  (x <> 0 -> mailaddr_to_text w a = None -> fst (crit s') = -1) ->
  (forall key, x <> 0 -> mailaddr_to_text w a = Some key ->
     fst (crit s')
     = signed x (lookup_int (table_query w (table_find w name) key K_MAILADDR))) ->
  fst (MATCH_EVAL crit s')
  = fst (match t with
         | Some _ => fail_or_skip (ruleset_check_mailaddr w t a) not_
         | None => mret Fallthrough
         end s).
Proof.
  unfold same_criterion; intros H H0 Hnone Hsome.
  rewrite fst_MATCH_EVAL.
  destruct t as [t|].
  - destruct H as (Hp & Hs & Ht).
    rewrite fst_fail_or_skip.
    destruct (mailaddr_to_text w a) as [key|] eqn:E.
    + rewrite (Hsome key Hp eq_refl); unfold signed; rewrite Ht, Hs.
      rewrite (ruleset_check_mailaddr_closed w (Some t) a key s E).
      cbn [fst].
      destruct (table_query w (Some t) key K_MAILADDR), not_; reflexivity.
    + rewrite (Hnone Hp eq_refl).
      unfold ruleset_check_mailaddr; rewrite E; reflexivity.
  - rewrite (H0 H); reflexivity.
Qed.

Lemma agree_mail_from w evp r m s s' :
  same_criterion w (r_senders r) (r_notsenders r)
    (smtp_mail_from m) (smtp_mail_from_table m) ->
  fst (MATCH_EVAL (ruleset_match_smtp_mail_from w m evp) s')
  = fst (rule_senders w evp r s).
Proof.
  intros H; unfold rule_senders.
  apply (agree_mailaddr w _ _ _ _ (sender evp) s s' _ H).
  - intros E; unfold ruleset_match_smtp_mail_from; now rewrite E.
  - intros Hp E; unfold ruleset_match_smtp_mail_from.
    apply Z.eqb_neq in Hp; now rewrite Hp, E.
  - intros key Hp E.
    now rewrite (ruleset_match_smtp_mail_from_closed w m evp key s' Hp E).
Qed.

Lemma agree_rcpt_to w evp r m s s' :
  same_criterion w (r_recipients r) (r_notrecipients r)
    (smtp_rcpt_to m) (smtp_rcpt_to_table m) ->
  fst (MATCH_EVAL (ruleset_match_smtp_rcpt_to w m evp) s')
  = fst (rule_recipients w evp r s).
Proof.
  intros H; unfold rule_recipients.
  apply (agree_mailaddr w _ _ _ _ (dest evp) s s' _ H).
  - intros E; unfold ruleset_match_smtp_rcpt_to; now rewrite E.
  - intros Hp E; unfold ruleset_match_smtp_rcpt_to.
    apply Z.eqb_neq in Hp; now rewrite Hp, E.
  - intros key Hp E.
    now rewrite (ruleset_match_smtp_rcpt_to_closed w m evp key s' Hp E).
Qed.

Lemma fst_run_stmts bs :
  Forall (fun b : M ctl => forall s, fst (b s) = val b) bs ->
  forall s, fst (run_stmts bs s) = reduce_vals (map val bs).
Proof.
  induction 1 as [|b bs Hb _ IH]; intros s; [reflexivity|].
  rewrite run_stmts_cons, (Hb s); cbn [map reduce_vals fold_right].
  destruct (val b); try reflexivity; apply IH.
Qed.

Lemma stmt_ok_fst (b : M ctl) : stmt_ok b -> forall s, fst (b s) = val b.
Proof. intros H s; now rewrite H. Qed.

(** The order in which [ruleset_match_new] takes the criteria that
    [ruleset_match] takes as tag, authentication, origin, sender,
    recipient, destination shows in the result exactly on a [conflict]. *)
Lemma reduce_reorder t a o sn rc d :
  Forall (fun v => v <> Matched) [t; a; o; sn; rc; d] ->
  t <> Tempfail -> a <> Tempfail ->
  reduce_vals [t; o; d; Fallthrough; a; Fallthrough; sn; rc]
  = reduce_vals [t; a; o; sn; rc; d]
  <-> ~ conflict t a o sn rc d.
Proof.
  intros Hm Ht Ha.
  repeat (apply Forall_cons_iff in Hm; destruct Hm as [? Hm]).
  clear Hm; unfold conflict.
  destruct t; try congruence; destruct a; try congruence;
    destruct o; try congruence; destruct sn; try congruence;
    destruct rc; try congruence; destruct d; try congruence;
    cbn; clear;
    (split;
     [ intros H C; try discriminate H;
       destruct C as (Ct & C); try discriminate Ct;
       intuition discriminate
     | intros C;
       first [ reflexivity
             | exfalso; apply C; clear C; split; [reflexivity | tauto] ] ]).
Qed.

Lemma rule_stmts_not_matched w evp r :
  Forall (fun b : M ctl => val b <> Matched) (rule_stmts w evp r).
Proof.
  unfold rule_stmts, val; repeat constructor.
  - unfold rule_tag.
    destruct (negb (r_tag r =? "")%string); [|discriminate]; cbv zeta.
    destruct (negb (strcmp (r_tag r) (tag evp) =? 0) && negb (r_nottag r));
      [discriminate|].
    destruct ((strcmp (r_tag r) (tag evp) =? 0) && r_nottag r); discriminate.
  - unfold rule_wantauth.
    destruct (r_wantauth r && negb (r_negwantauth r)
              && (Z.land (flags evp) EF_AUTHENTICATED =? 0)); [discriminate|].
    destruct (r_wantauth r && r_negwantauth r
              && negb (Z.land (flags evp) EF_AUTHENTICATED =? 0)); discriminate.
  - unfold rule_sources; rewrite fst_fail_or_skip.
    destruct (_ =? -1); [discriminate|]; destruct (_ || _); discriminate.
  - unfold rule_senders; destruct (r_senders r); [|discriminate].
    rewrite fst_fail_or_skip.
    destruct (_ =? -1); [discriminate|]; destruct (_ || _); discriminate.
  - unfold rule_recipients; destruct (r_recipients r); [|discriminate].
    rewrite fst_fail_or_skip.
    destruct (_ =? -1); [discriminate|]; destruct (_ || _); discriminate.
  - unfold rule_destination; rewrite fst_fail_or_skip.
    destruct (_ =? -1); [discriminate|]; destruct (_ || _); discriminate.
Qed.

(** A [struct match] that says the same as a [struct rule] ends its
    iteration the same way exactly when the order of the criteria does not
    show. *)
Lemma agree_rule w evp r m :
  (Z.land (flags evp) EF_AUTHENTICATED <> 0 ->
   Z.land (flags evp) EF_INTERNAL <> 0) ->
  same_rule w r m ->
  val (ruleset_match_new_rule w evp m) = val (ruleset_match_rule w evp r)
  <-> ~ order_conflict w evp r.
Proof.
  intros Hk (Htag & Hfrom & Hto & Hhelo & Hauth & Htls & Hmf & Hrt).
  unfold val at 1 2.
  rewrite ruleset_match_new_rule_stmts, ruleset_match_rule_stmts.
  rewrite fst_run_stmts.
  2:{ apply Forall_forall; intros b Hb.
      apply in_map_iff in Hb as (c & <- & Hc).
      intros s; apply logging_val, logging_MATCH_EVAL.
      eapply logging_match_criteria; eassumption. }
  rewrite fst_run_stmts.
  2:{ eapply Forall_impl; [ | apply stmt_ok_rule_stmts ].
      intros b Hb; now apply stmt_ok_fst. }
  unfold match_criteria, rule_stmts; cbn [map].
  unfold val at 1 2 3 4 5 6 7 8.
  rewrite (agree_tag w evp r m st0 st0 Htag).
  rewrite (agree_from w evp r m st0 st0 Hk Hfrom).
  rewrite (agree_to w evp r m st0 st0 Hto).
  rewrite (agree_auth evp r m st0 st0 Hauth).
  rewrite (agree_mail_from w evp r m st0 st0 Hmf).
  rewrite (agree_rcpt_to w evp r m st0 st0 Hrt).
  replace (fst (MATCH_EVAL (ruleset_match_smtp_helo w m evp) st0))
    with Fallthrough
    by (unfold ruleset_match_smtp_helo; now rewrite Hhelo).
  replace (fst (MATCH_EVAL (ruleset_match_smtp_starttls m evp) st0))
    with Fallthrough
    by (unfold ruleset_match_smtp_starttls; now rewrite Htls).
  apply reduce_reorder.
  - change (Forall (fun v => v <> Matched) (map val (rule_stmts w evp r))).
    apply Forall_map, rule_stmts_not_matched.
  - apply rule_tag_not_tempfail.
  - apply rule_wantauth_not_tempfail.
Qed.

Lemma same_selection_cons r rest m rest' x y :
  same_selection rest rest' x y ->
  same_selection (r :: rest) (m :: rest') x y.
Proof.
  unfold same_selection; destruct (fst x), (fst y); try tauto.
  intros (k & H1 & H2); exists (S k); split; assumption.
Qed.

Lemma agree_loops w evp rules matches :
  (Z.land (flags evp) EF_AUTHENTICATED <> 0 ->
   Z.land (flags evp) EF_INTERNAL <> 0) ->
  Forall2 (same_rule w) rules matches ->
  (forall pre r post,
      rules = pre ++ r :: post ->
      Forall (fun r' => yields (ruleset_match_rule w evp r') Continue) pre ->
      ~ order_conflict w evp r) ->
  forall i s s',
    same_selection rules matches
      (ruleset_match w rules evp s)
      (ruleset_match_new_from w i matches evp s').
Proof.
  intros Hk Hsame; induction Hsame as [|r m rest rest' Hrm _ IH];
    intros Hord i s s'.
  - reflexivity.
  - rewrite ruleset_match_cons, ruleset_match_new_cons; cbv zeta.
    assert (Hr : ~ order_conflict w evp r)
      by (apply (Hord [] r rest); [reflexivity | constructor]).
    rewrite (proj2 (agree_rule w evp r m Hk Hrm) Hr).
    assert (Hrest : val (ruleset_match_rule w evp r) = Continue ->
                    forall pre r' post,
                      rest = pre ++ r' :: post ->
                      Forall (fun r0 => yields (ruleset_match_rule w evp r0)
                                          Continue) pre ->
                      ~ order_conflict w evp r').
    { intros Hv pre r' post -> Hpre.
      apply (Hord (r :: pre) r' post); [reflexivity|].
      constructor; [ | exact Hpre ].
      intros s0.
      now rewrite (stmt_ok_fst _ (stmt_ok_ruleset_match_rule w evp r)). }
    destruct (val (ruleset_match_rule w evp r)) eqn:Ev.
    + exfalso; apply (run_stmts_not_fallthrough (rule_stmts w evp r) st0).
      rewrite <- ruleset_match_rule_stmts; exact Ev.
    + apply same_selection_cons, IH, Hrest; reflexivity.
    + reflexivity.
    + exists 0%nat; split; reflexivity.
Qed.

(** C3 does not hold as stated, on two counts.  A rule with a source table
    of local sources and nothing else, written in both shapes, is returned
    by [ruleset_match] for an authenticated remote session and passed over
    by [ruleset_match_new]: the origin keys differ.  A rule that wants
    authentication and has a failing source table, written in both shapes,
    is passed over by [ruleset_match] for a session that is not
    authenticated and makes [ruleset_match_new] fail temporarily: the
    orders of the criteria differ. *)
Lemma C3_counterexample :
  (let evp := ex_envelope EF_AUTHENTICATED in
   let r := ex_rule "localhost" in
   let m := set_from 1 (Some "localhost") ex_match in
   same_rule ex_world r m
   /\ outcome_of (ruleset_match ex_world [r] evp st0) = Selected r
   /\ outcome_of (ruleset_match_new ex_world [m] evp st0) = NoRuleMatched)
  /\
  (let evp := ex_envelope 0 in
   let r := {| r_tag := ""; r_nottag := false;
               r_wantauth := true; r_negwantauth := false;
               r_sources := tbl "broken"; r_notsources := false;
               r_senders := None; r_notsenders := false;
               r_recipients := None; r_notrecipients := false;
               r_destination := None; r_notdestination := false |} in
   let m := set_smtp_auth 1 None (set_from 1 (Some "broken") ex_match) in
   same_rule ex_world r m
   /\ (Z.land (flags evp) EF_AUTHENTICATED <> 0 ->
       Z.land (flags evp) EF_INTERNAL <> 0)
   /\ outcome_of (ruleset_match ex_world [r] evp st0) = NoRuleMatched
   /\ outcome_of (ruleset_match_new ex_world [m] evp st0) = Indeterminate).
Proof.
  cbv zeta; split.
  - split; [ | split; reflexivity ].
    unfold same_rule, same_tag, same_criterion; cbn.
    repeat split; discriminate.
  - split; [ | split; [ | split; reflexivity ] ].
    + unfold same_rule, same_tag, same_criterion; cbn.
      repeat split; discriminate.
    + intros H; exfalso; apply H; reflexivity.
Qed.

(** C3, amended.  Both matchers reduce the outcomes of their rules by the
    same algorithm, [first_match].  For a rule that says the same in both
    shapes ([same_rule]), and a session that is internal whenever it is
    authenticated (else the origin keys differ), the two iterations end the
    same way exactly when the order of the criteria does not show
    ([order_conflict]): that is, unless a no-match and a fault meet in
    authentication and origin, authentication and destination, sender and
    destination, or recipient and destination, with nothing decided before
    them.  For rule lists that say the same rule by rule, the two matchers
    then select the rule at the same position, or both return [NULL] with
    the same [errno], provided no rule that is reached (every rule before
    it ends in no-match) has such a conflict; rules behind the deciding
    one are free. *)
Theorem C3_matchers_agree_on_common_rules :
  forall (w : collaborators) (evp : envelope)
         (rules : list rule) (matches : list match_) (s s' : state),
    (outcome_of (ruleset_match w rules evp s)
     = first_match (fun r => val (ruleset_match_rule w evp r)) rules
     /\ outcome_of (ruleset_match_new w matches evp s')
        = first_match (fun m => val (ruleset_match_new_rule w evp m)) matches)
    /\
    (forall r m,
        same_rule w r m ->
        (Z.land (flags evp) EF_AUTHENTICATED <> 0 ->
         Z.land (flags evp) EF_INTERNAL <> 0) ->
        (yields (ruleset_match_new_rule w evp m)
                (val (ruleset_match_rule w evp r))
         <-> ~ order_conflict w evp r))
    /\
    (Forall2 (same_rule w) rules matches ->
     (Z.land (flags evp) EF_AUTHENTICATED <> 0 ->
      Z.land (flags evp) EF_INTERNAL <> 0) ->
     (forall pre r post,
         rules = pre ++ r :: post ->
         Forall (fun r' => yields (ruleset_match_rule w evp r') Continue) pre ->
         ~ order_conflict w evp r) ->
     same_selection rules matches
       (ruleset_match w rules evp s) (ruleset_match_new w matches evp s')).
Proof.
  intros w evp rules matches s s'; split; [split | split].
  - apply ruleset_match_first_match.
  - apply ruleset_match_new_first_match.
  - intros r m Hrm Hk.
    rewrite <- (agree_rule w evp r m Hk Hrm); split.
    + intros H; apply H.
    + intros H s0.
      now rewrite (logging_val _ s0 (logging_ruleset_match_new_rule w evp m)).
  - intros Hsame Hk Hord; now apply agree_loops.
Qed.

(** C3 as amended, at work on a remote session that is not authenticated.
    The first rule wants a tag the envelope does not carry, so that its
    wanted authentication (no-match) and its failing source table are not
    reached in either matcher; the second is for any source; the third,
    behind the deciding one, has the conflict of the counterexample.  Both
    matchers return the second rule. *)
Lemma C3_matchers_agree_on_common_rules_witness :
  let evp := ex_envelope 0 in
  let r1 := {| r_tag := "local"; r_nottag := false;
               r_wantauth := true; r_negwantauth := false;
               r_sources := tbl "broken"; r_notsources := false;
               r_senders := None; r_notsenders := false;
               r_recipients := None; r_notrecipients := false;
               r_destination := None; r_notdestination := false |} in
  let r3 := {| r_tag := ""; r_nottag := false;
               r_wantauth := true; r_negwantauth := false;
               r_sources := tbl "broken"; r_notsources := false;
               r_senders := None; r_notsenders := false;
               r_recipients := None; r_notrecipients := false;
               r_destination := None; r_notdestination := false |} in
  let m1 := set_m_tag 1 (Some "localhost")
              (set_smtp_auth 1 None (set_from 1 (Some "broken") ex_match)) in
  let m2 := set_from 1 (Some "anyhost") ex_match in
  let m3 := set_smtp_auth 1 None (set_from 1 (Some "broken") ex_match) in
  same_selection [r1; ex_rule "anyhost"; r3] [m1; m2; m3]
    (ruleset_match ex_world [r1; ex_rule "anyhost"; r3] evp st0)
    (ruleset_match_new ex_world [m1; m2; m3] evp st0)
  /\ fst (ruleset_match ex_world [r1; ex_rule "anyhost"; r3] evp st0)
     = Some (ex_rule "anyhost")
  /\ fst (ruleset_match_new ex_world [m1; m2; m3] evp st0) = Some m2
  /\ order_conflict ex_world evp r3.
Proof.
  intros evp r1 r3 m1 m2 m3; split; [ | split; [ | split ] ];
    [ | reflexivity | reflexivity
      | unfold order_conflict, conflict; cbn; split; [reflexivity|];
        left; split; reflexivity ].
  refine (proj2 (proj2 (C3_matchers_agree_on_common_rules ex_world evp
                   [r1; ex_rule "anyhost"; r3] [m1; m2; m3] st0 st0))
            _ _ _).
  - repeat constructor; try discriminate;
      intros key; cbn;
      destruct (key =? "local")%string; reflexivity.
  - intros H; exfalso; apply H; reflexivity.
  - intros pre r post E Hpre.
    destruct pre as [|p0 [|p1 [|p2 pre]]]; cbn in E.
    + injection E as <- _.
      unfold order_conflict, conflict; cbn; intros (C & _); discriminate.
    + injection E as _ <- _.
      unfold order_conflict, conflict; cbn.
      intros (_ & C); intuition discriminate.
    + injection E as _ <- _ _.
      exfalso.
      apply Forall_cons_iff in Hpre as [_ Hpre].
      apply Forall_cons_iff in Hpre as [Hp _].
      specialize (Hp st0); discriminate.
    + injection E as _ _ _ E; destruct pre; discriminate.
Defined.

(** * Further properties of the two matchers *)

(** ** X1 *)

Lemma yields_MATCH_EVAL_skip c : yields c 0 -> yields (MATCH_EVAL c) Continue.
Proof.
  intros H s; specialize (H s); unfold MATCH_EVAL, mbind.
  destruct (c s) as [v s1]; simpl in H; subst v; reflexivity.
Qed.

(** X1.  A criterion that does not match ends the evaluation of its rule
    at once: the iteration [continue]s in the state reached right after
    that criterion, so no later criterion of the rule is evaluated and no
    table is queried for one, and the loop goes on with the next rule from
    that state.  This holds in [ruleset_match_new] (a criterion returning
    0) and in [ruleset_match] (a statement that [continue]s). *)
Theorem X1_no_match_skips_the_rest_of_the_rule :
  forall (w : collaborators) (evp : envelope) (s : state),
    (forall m rest i cs1 c cs2,
        match_criteria w evp m = cs1 ++ c :: cs2 ->
        Forall (fun c' => yields c' 1) cs1 ->
        yields c 0 ->
        ruleset_match_new_rule w evp m s
        = (Continue, snd (exec (cs1 ++ [c]) s))
        /\ ruleset_match_new_from w i (m :: rest) evp s
           = ruleset_match_new_from w (i + 1) rest evp
               (snd (exec (cs1 ++ [c]) s)))
    /\
    (forall r rest bs1 b bs2,
        rule_stmts w evp r = bs1 ++ b :: bs2 ->
        Forall (fun b' => yields b' Fallthrough) bs1 ->
        yields b Continue ->
        ruleset_match_rule w evp r s = (Continue, snd (exec (bs1 ++ [b]) s))
        /\ ruleset_match w (r :: rest) evp s
           = ruleset_match w rest evp (snd (exec (bs1 ++ [b]) s))).
Proof.
  intros w evp s; split.
  - intros m rest i cs1 c cs2 Hcrit Hcs1 Hc.
    assert (E : ruleset_match_new_rule w evp m s
                = (Continue, snd (exec (cs1 ++ [c]) s))).
    { rewrite ruleset_match_new_rule_stmts, Hcrit, map_app; cbn [map].
      rewrite (run_stmts_leave (map MATCH_EVAL cs1) (MATCH_EVAL c)
                 (map MATCH_EVAL cs2) Continue);
        [ | | now apply yields_MATCH_EVAL_skip | discriminate ].
      - change (map MATCH_EVAL cs1 ++ [MATCH_EVAL c])
          with (map MATCH_EVAL cs1 ++ map MATCH_EVAL [c]).
        rewrite <- map_app, exec_MATCH_EVAL; reflexivity.
      - apply Forall_forall; intros b Hb.
        apply in_map_iff in Hb as (c' & <- & Hc').
        apply yields_MATCH_EVAL_pass.
        rewrite Forall_forall in Hcs1; now apply Hcs1. }
    split; [exact E | now rewrite ruleset_match_new_step, E].
  - intros r rest bs1 b bs2 Hstmts Hbs1 Hb.
    assert (E : ruleset_match_rule w evp r s
                = (Continue, snd (exec (bs1 ++ [b]) s))).
    { rewrite ruleset_match_rule_stmts, Hstmts.
      apply run_stmts_leave; [assumption | assumption | discriminate]. }
    split; [exact E | now rewrite ruleset_match_step, E].
Qed.

(** X1, at work: a remote client against a rule for local sources with a
    failing sender table: the sender table is never queried. *)
Lemma X1_no_match_skips_the_rest_of_the_rule_witness :
  let evp := ex_envelope 0 in
  let m := set_smtp_mail_from 1 (Some "broken")
             (set_from 1 (Some "localhost") ex_match) in
  let r := {| r_tag := ""; r_nottag := false;
              r_wantauth := false; r_negwantauth := false;
              r_sources := tbl "localhost"; r_notsources := false;
              r_senders := tbl "broken"; r_notsenders := false;
              r_recipients := None; r_notrecipients := false;
              r_destination := None; r_notdestination := false |} in
  ruleset_match_new_rule ex_world evp m st0
  = (Continue,
     {| errno := 0;
        log := [EvLookup (tbl "localhost") "192.0.2.1" K_NETADDR] |})
  /\ ruleset_match_rule ex_world evp r st0
     = (Continue,
        {| errno := 0;
           log := [EvLookup (tbl "localhost") "192.0.2.1" K_NETADDR] |}).
Proof.
  intros evp m r; split.
  - refine (proj1 (proj1
      (X1_no_match_skips_the_rest_of_the_rule ex_world evp st0)
      m [] 0 [ruleset_match_tag ex_world m evp]
      (ruleset_match_from ex_world m evp) _ _ _ _)).
    + reflexivity.
    + repeat constructor; intros s; reflexivity.
    + intros s; reflexivity.
  - refine (proj1 (proj2
      (X1_no_match_skips_the_rest_of_the_rule ex_world evp st0)
      r [] [rule_tag evp r; rule_wantauth evp r]
      (rule_sources ex_world evp r) _ _ _ _)).
    + reflexivity.
    + repeat constructor; intros s; reflexivity.
    + intros s; reflexivity.
Defined.

(** ** X2 *)

Lemma ruleset_match_protocol w evp rules s :
  (exists tr, log (snd (ruleset_match w rules evp s)) = log s ++ tr)
  /\ ((exists r, fst (ruleset_match w rules evp s) = Some r /\ In r rules
                 /\ errno (snd (ruleset_match w rules evp s)) = errno s)
      \/ (fst (ruleset_match w rules evp s) = None
          /\ errno (snd (ruleset_match w rules evp s)) = 0)
      \/ (fst (ruleset_match w rules evp s) = None
          /\ errno (snd (ruleset_match w rules evp s)) = EAGAIN)).
Proof.
  revert s; induction rules as [|r rest IH]; intros s.
  - split; [now exists [EvTraceNoRule] | right; left; split; reflexivity].
  - rewrite ruleset_match_cons; cbv zeta.
    set (tr := trace (ruleset_match_rule w evp r)).
    assert (Hrec :
      (exists tr0, log (snd (ruleset_match w rest evp (logs s tr)))
                   = log s ++ tr0)
      /\ ((exists r0, fst (ruleset_match w rest evp (logs s tr)) = Some r0
                      /\ In r0 (r :: rest)
                      /\ errno (snd (ruleset_match w rest evp (logs s tr)))
                         = errno s)
          \/ (fst (ruleset_match w rest evp (logs s tr)) = None
              /\ errno (snd (ruleset_match w rest evp (logs s tr))) = 0)
          \/ (fst (ruleset_match w rest evp (logs s tr)) = None
              /\ errno (snd (ruleset_match w rest evp (logs s tr))) = EAGAIN))).
    { destruct (IH (logs s tr)) as ((tr0 & Hlog) & Hres); split.
      - exists (tr ++ tr0); rewrite Hlog; cbn; now rewrite app_assoc.
      - destruct Hres as [(r0 & H1 & H2 & H3) | H]; [left | right; exact H].
        exists r0; repeat split; [exact H1 | now right | exact H3]. }
    destruct (val (ruleset_match_rule w evp r)); try exact Hrec.
    + split; [now exists tr | right; right; split; reflexivity].
    + split.
      * exists (tr ++ [EvTraceRuleMatched r]); cbn; now rewrite app_assoc.
      * left; exists r; repeat split; now left.
Qed.

Lemma ruleset_match_new_protocol w evp matches i s :
  (exists tr, log (snd (ruleset_match_new_from w i matches evp s))
              = log s ++ tr)
  /\ ((exists m, fst (ruleset_match_new_from w i matches evp s) = Some m
                 /\ In m matches
                 /\ errno (snd (ruleset_match_new_from w i matches evp s))
                    = errno s)
      \/ (fst (ruleset_match_new_from w i matches evp s) = None
          /\ errno (snd (ruleset_match_new_from w i matches evp s)) = 0)
      \/ (fst (ruleset_match_new_from w i matches evp s) = None
          /\ errno (snd (ruleset_match_new_from w i matches evp s)) = EAGAIN)).
Proof.
  revert i s; induction matches as [|m rest IH]; intros i s.
  - split; [now exists [EvTraceNoRule] | right; left; split; reflexivity].
  - rewrite ruleset_match_new_cons; cbv zeta.
    set (tr := trace (ruleset_match_new_rule w evp m)).
    assert (Hrec :
      (exists tr0,
          log (snd (ruleset_match_new_from w (i + 1) rest evp (logs s tr)))
          = log s ++ tr0)
      /\ ((exists m0,
              fst (ruleset_match_new_from w (i + 1) rest evp (logs s tr))
              = Some m0
              /\ In m0 (m :: rest)
              /\ errno (snd (ruleset_match_new_from w (i + 1) rest evp
                               (logs s tr))) = errno s)
          \/ (fst (ruleset_match_new_from w (i + 1) rest evp (logs s tr)) = None
              /\ errno (snd (ruleset_match_new_from w (i + 1) rest evp
                               (logs s tr))) = 0)
          \/ (fst (ruleset_match_new_from w (i + 1) rest evp (logs s tr)) = None
              /\ errno (snd (ruleset_match_new_from w (i + 1) rest evp
                               (logs s tr))) = EAGAIN))).
    { destruct (IH (i + 1) (logs s tr)) as ((tr0 & Hlog) & Hres); split.
      - exists (tr ++ tr0); rewrite Hlog; cbn; now rewrite app_assoc.
      - destruct Hres as [(m0 & H1 & H2 & H3) | H]; [left | right; exact H].
        exists m0; repeat split; [exact H1 | now right | exact H3]. }
    destruct (val (ruleset_match_new_rule w evp m)); try exact Hrec.
    + split.
      * exists (tr ++ [EvTraceTempfail]); cbn; now rewrite app_assoc.
      * right; right; split; reflexivity.
    + split.
      * exists (tr ++ [EvTraceMatchMatched (i + 1) m]); cbn.
        now rewrite app_assoc.
      * left; exists m; repeat split; now left.
Qed.

(** X2.  What a caller gets from either matcher is one of three things: a
    rule of the list, with [errno] left as it was before the call; [NULL]
    with [errno] set to 0; [NULL] with [errno] set to [EAGAIN].  So [errno]
    is meaningful only next to [NULL], and a [NULL] never leaves a stale
    [errno].  The log is only ever extended. *)
Theorem X2_result_and_errno_protocol :
  forall (w : collaborators) (evp : envelope) (s : state),
    (forall rules,
        (exists tr, log (snd (ruleset_match w rules evp s)) = log s ++ tr)
        /\ ((exists r, fst (ruleset_match w rules evp s) = Some r
                       /\ In r rules
                       /\ errno (snd (ruleset_match w rules evp s)) = errno s)
            \/ (fst (ruleset_match w rules evp s) = None
                /\ errno (snd (ruleset_match w rules evp s)) = 0)
            \/ (fst (ruleset_match w rules evp s) = None
                /\ errno (snd (ruleset_match w rules evp s)) = EAGAIN)))
    /\
    (forall matches,
        (exists tr, log (snd (ruleset_match_new w matches evp s)) = log s ++ tr)
        /\ ((exists m, fst (ruleset_match_new w matches evp s) = Some m
                       /\ In m matches
                       /\ errno (snd (ruleset_match_new w matches evp s))
                          = errno s)
            \/ (fst (ruleset_match_new w matches evp s) = None
                /\ errno (snd (ruleset_match_new w matches evp s)) = 0)
            \/ (fst (ruleset_match_new w matches evp s) = None
                /\ errno (snd (ruleset_match_new w matches evp s)) = EAGAIN))).
Proof.
  intros w evp s; split.
  - intros rules; apply ruleset_match_protocol.
  - intros matches; apply ruleset_match_new_protocol.
Qed.

(** ** X3 *)

Lemma snd_ruleset_match_rule w evp r s :
  val (ruleset_match_rule w evp r) <> Tempfail ->
  snd (ruleset_match_rule w evp r s)
  = logs s (trace (ruleset_match_rule w evp r)).
Proof.
  intros H; rewrite (stmt_ok_ruleset_match_rule w evp r s); cbn [snd].
  destruct (val (ruleset_match_rule w evp r)); try reflexivity; congruence.
Qed.

Lemma ruleset_match_app w evp l1 l2 s :
  ruleset_match w (l1 ++ l2) evp s
  = match outcome_of (ruleset_match w l1 evp s) with
    | NoRuleMatched =>
        ruleset_match w l2 evp
          (snd (exec (map (ruleset_match_rule w evp) l1) s))
    | _ => ruleset_match w l1 evp s
    end.
Proof.
  revert s; induction l1 as [|r l1 IH]; intros s.
  - reflexivity.
  - cbn [app map]; rewrite exec_cons, !ruleset_match_cons; cbv zeta.
    destruct (val (ruleset_match_rule w evp r)) eqn:E; try reflexivity.
    + rewrite IH, snd_ruleset_match_rule by congruence; reflexivity.
    + rewrite IH, snd_ruleset_match_rule by congruence; reflexivity.
Qed.

Lemma ruleset_match_new_app w evp l1 l2 i s :
  ruleset_match_new_from w i (l1 ++ l2) evp s
  = match outcome_of (ruleset_match_new_from w i l1 evp s) with
    | NoRuleMatched =>
        ruleset_match_new_from w (i + Z.of_nat (List.length l1)) l2 evp
          (snd (exec (map (ruleset_match_new_rule w evp) l1) s))
    | _ => ruleset_match_new_from w i l1 evp s
    end.
Proof.
  revert i s; induction l1 as [|m l1 IH]; intros i s.
  - cbn; now rewrite Z.add_0_r.
  - cbn [app map List.length]; rewrite exec_cons, !ruleset_match_new_cons.
    cbv zeta.
    rewrite (logging_ruleset_match_new_rule w evp m s); cbn [snd].
    destruct (val (ruleset_match_new_rule w evp m)) eqn:E; try reflexivity.
    + rewrite IH; destruct (outcome_of _); try reflexivity; f_equal; lia.
    + rewrite IH; destruct (outcome_of _); try reflexivity; f_equal; lia.
Qed.

(** X3.  How a call on a concatenated rule list splits.  When the first
    part alone decides, by a rule or by a temporary failure, the call on the
    whole list is the call on the first part, state included: the second
    part is never looked at.  When the first part alone ends in "no rule",
    the call goes on with the second part from the state the rules of the
    first part left, and [ruleset_match_new] goes on counting positions
    where the first part stopped. *)
Theorem X3_matching_a_concatenated_list :
  forall (w : collaborators) (evp : envelope) (s : state),
    (forall l1 l2,
        ruleset_match w (l1 ++ l2) evp s
        = match outcome_of (ruleset_match w l1 evp s) with
          | NoRuleMatched =>
              ruleset_match w l2 evp
                (snd (exec (map (ruleset_match_rule w evp) l1) s))
          | _ => ruleset_match w l1 evp s
          end)
    /\
    (forall l1 l2,
        ruleset_match_new w (l1 ++ l2) evp s
        = match outcome_of (ruleset_match_new w l1 evp s) with
          | NoRuleMatched =>
              ruleset_match_new_from w (Z.of_nat (List.length l1)) l2 evp
                (snd (exec (map (ruleset_match_new_rule w evp) l1) s))
          | _ => ruleset_match_new w l1 evp s
          end).
Proof.
  intros w evp s; split; intros l1 l2.
  - apply ruleset_match_app.
  - unfold ruleset_match_new; rewrite ruleset_match_new_app; reflexivity.
Qed.

(** ** The reduction, read backwards *)

Lemma first_match_selected {A} (eval : A -> ctl) l a :
  (forall x, eval x <> Fallthrough) ->
  first_match eval l = Selected a ->
  exists pre post, l = pre ++ a :: post
                   /\ Forall (fun x => eval x = Continue) pre
                   /\ eval a = Matched.
Proof.
  intros Hnf; induction l as [|x l IH]; cbn [first_match]; [discriminate|].
  destruct (eval x) eqn:E; try discriminate.
  - now destruct (Hnf x).
  - intros H; destruct (IH H) as (pre & post & -> & Hpre & Ha).
    exists (x :: pre), post; repeat split; [now constructor | exact Ha].
  - intros [= ->]; exists [], l; repeat split; [constructor | exact E].
Qed.

Lemma first_match_indeterminate {A} (eval : A -> ctl) l :
  (forall x, eval x <> Fallthrough) ->
  first_match eval l = Indeterminate ->
  exists pre a post, l = pre ++ a :: post
                     /\ Forall (fun x => eval x = Continue) pre
                     /\ eval a = Tempfail.
Proof.
  intros Hnf; induction l as [|x l IH]; cbn [first_match]; [discriminate|].
  destruct (eval x) eqn:E; try discriminate.
  - now destruct (Hnf x).
  - intros H; destruct (IH H) as (pre & a & post & -> & Hpre & Ha).
    exists (x :: pre), a, post; repeat split; [now constructor | exact Ha].
  - intros _; exists [], x, l; repeat split; [constructor | exact E].
Qed.

Lemma first_match_no_rule {A} (eval : A -> ctl) l :
  (forall x, eval x <> Fallthrough) ->
  first_match eval l = NoRuleMatched ->
  Forall (fun x => eval x = Continue) l.
Proof.
  intros Hnf; induction l as [|x l IH]; cbn [first_match]; [constructor|].
  destruct (eval x) eqn:E; try discriminate.
  - now destruct (Hnf x).
  - intros H; constructor; [exact E | now apply IH].
Qed.

Lemma val_rule_not_fallthrough w evp r :
  val (ruleset_match_rule w evp r) <> Fallthrough.
Proof. unfold val; rewrite ruleset_match_rule_stmts; apply run_stmts_not_fallthrough. Qed.

Lemma val_new_rule_not_fallthrough w evp m :
  val (ruleset_match_new_rule w evp m) <> Fallthrough.
Proof.
  unfold val; rewrite ruleset_match_new_rule_stmts.
  apply run_stmts_not_fallthrough.
Qed.

Lemma yields_rule w evp r v :
  yields (ruleset_match_rule w evp r) v <-> val (ruleset_match_rule w evp r) = v.
Proof.
  split; [intros H; apply H|].
  intros H s; now rewrite (stmt_ok_fst _ (stmt_ok_ruleset_match_rule w evp r)).
Qed.

Lemma yields_new_rule w evp m v :
  yields (ruleset_match_new_rule w evp m) v
  <-> val (ruleset_match_new_rule w evp m) = v.
Proof.
  split; [intros H; apply H|].
  intros H s; now rewrite (logging_val _ s (logging_ruleset_match_new_rule w evp m)).
Qed.

Lemma Forall_yields_rule w evp l v :
  Forall (fun r => yields (ruleset_match_rule w evp r) v) l
  <-> Forall (fun r => val (ruleset_match_rule w evp r) = v) l.
Proof.
  split; apply Forall_impl; intros r; apply yields_rule.
Qed.

Lemma Forall_yields_new_rule w evp l v :
  Forall (fun m => yields (ruleset_match_new_rule w evp m) v) l
  <-> Forall (fun m => val (ruleset_match_new_rule w evp m) = v) l.
Proof.
  split; apply Forall_impl; intros m; apply yields_new_rule.
Qed.

(** The statements of an iteration that ends otherwise than at [matched]:
    some fall through, then one ends the iteration that way. *)
Lemma run_stmts_inv bs v :
  Forall (fun b : M ctl => forall s, fst (b s) = val b) bs ->
  Forall (fun b : M ctl => val b <> Matched) bs ->
  val (run_stmts bs) = v ->
  (v = Matched /\ Forall (fun b => val b = Fallthrough) bs)
  \/ (v <> Matched
      /\ exists bs1 b bs2, bs = bs1 ++ b :: bs2
                           /\ Forall (fun b' => val b' = Fallthrough) bs1
                           /\ val b = v).
Proof.
  intros Hu Hm; revert v; induction Hu as [|b bs Hb Hu IH]; intros v Hv.
  - left; split; [now rewrite <- Hv | constructor].
  - apply Forall_cons_iff in Hm as [Hb' Hm'].
    unfold val in Hv at 1; rewrite run_stmts_cons, (Hb st0) in Hv.
    destruct (val b) eqn:E.
    + assert (Hv' : val (run_stmts bs) = v).
      { rewrite <- Hv; unfold val at 1.
        rewrite !fst_run_stmts by assumption; reflexivity. }
      destruct (IH Hm' v Hv') as [(-> & Hall) | (Hne & bs1 & b0 & bs2 & -> & H1 & H2)].
      * left; split; [reflexivity | now constructor].
      * right; split; [exact Hne|].
        exists (b :: bs1), b0, bs2; repeat split; [now constructor | exact H2].
    + cbn [fst] in Hv; subst v; right; split; [discriminate|].
      exists [], b, bs; repeat split; [constructor | exact E].
    + cbn [fst] in Hv; subst v; right; split; [discriminate|].
      exists [], b, bs; repeat split; [constructor | exact E].
    + congruence.
Qed.

Lemma run_stmts_matched_iff bs :
  Forall (fun b : M ctl => forall s, fst (b s) = val b) bs ->
  Forall (fun b : M ctl => val b <> Matched) bs ->
  val (run_stmts bs) = Matched <-> Forall (fun b => val b = Fallthrough) bs.
Proof.
  intros Hu Hm; split.
  - intros H; destruct (run_stmts_inv bs Matched Hu Hm H) as [(_ & Hall) | (Hne & _)];
      [exact Hall | congruence].
  - intros Hall; unfold val at 1; rewrite fst_run_stmts by exact Hu.
    clear Hu Hm; induction Hall as [|b bs Hb _ IH]; [reflexivity|].
    cbn [map reduce_vals fold_right]; rewrite Hb; exact IH.
Qed.

Lemma uniform_rule_stmts w evp r :
  Forall (fun b : M ctl => forall s, fst (b s) = val b) (rule_stmts w evp r).
Proof.
  eapply Forall_impl; [ | apply stmt_ok_rule_stmts ].
  intros b Hb; now apply stmt_ok_fst.
Qed.

Lemma uniform_match_stmts w evp m :
  Forall (fun b : M ctl => forall s, fst (b s) = val b)
         (map MATCH_EVAL (match_criteria w evp m)).
Proof.
  apply Forall_forall; intros b Hb.
  apply in_map_iff in Hb as (c & <- & Hc).
  intros s; apply logging_val, logging_MATCH_EVAL.
  eapply logging_match_criteria; eassumption.
Qed.

Lemma match_stmts_not_matched w evp m :
  Forall (fun b : M ctl => val b <> Matched)
         (map MATCH_EVAL (match_criteria w evp m)).
Proof.
  apply Forall_forall; intros b Hb.
  apply in_map_iff in Hb as (c & <- & Hc); apply MATCH_EVAL_not_matched.
Qed.

(** ** Criteria and what they ask *)

Lemma signed_passes x q :
  (if signed x (lookup_int q) =? -1 then Tempfail
   else if signed x (lookup_int q) =? 0 then Continue else Fallthrough)
  = Fallthrough
  <-> passes q (x <? 0).
Proof.
  unfold signed, passes; destruct q, (x <? 0); cbn; split;
    intros H; try reflexivity; discriminate.
Qed.

Lemma tag_passes w evp m :
  val (MATCH_EVAL (ruleset_match_tag w m evp)) = Fallthrough
  <-> (m_tag m <> 0 ->
       passes (table_query w (table_find w (tag_table m)) (tag evp) K_STRING)
              (m_tag m <? 0)).
Proof.
  unfold val; rewrite fst_MATCH_EVAL.
  destruct (Z.eq_dec (m_tag m) 0) as [E|E].
  - unfold ruleset_match_tag; rewrite E; cbn; tauto.
  - rewrite ruleset_match_tag_closed by exact E; cbv zeta; cbn [fst].
    rewrite signed_passes; tauto.
Qed.

Lemma from_passes w evp m :
  val (MATCH_EVAL (ruleset_match_from w m evp)) = Fallthrough
  <-> (from m <> 0 ->
       from_socket m = false
       /\ passes (table_query w (table_find w (from_table m))
                    (if negb (Z.land (flags evp) EF_INTERNAL =? 0)
                     then "local" else ss_to_text w (ss evp)) K_NETADDR)
                 (from m <? 0)).
Proof.
  unfold val; rewrite fst_MATCH_EVAL.
  destruct (Z.eq_dec (from m) 0) as [E|E].
  - unfold ruleset_match_from; rewrite E; cbn; tauto.
  - destruct (from_socket m) eqn:Es.
    + unfold ruleset_match_from.
      apply Z.eqb_neq in E; rewrite E, Es; cbn; split; [discriminate|].
      apply Z.eqb_neq in E; intros H; destruct (H E); discriminate.
    + rewrite ruleset_match_from_closed by assumption; cbv zeta; cbn [fst].
      rewrite signed_passes; tauto.
Qed.

Lemma to_passes w evp m :
  val (MATCH_EVAL (ruleset_match_to w m evp)) = Fallthrough
  <-> (to m <> 0 ->
       passes (table_query w (table_find w (to_table m))
                 (domain (dest evp)) K_DOMAIN)
              (to m <? 0)).
Proof.
  unfold val; rewrite fst_MATCH_EVAL.
  destruct (Z.eq_dec (to m) 0) as [E|E].
  - unfold ruleset_match_to; rewrite E; cbn; tauto.
  - rewrite ruleset_match_to_closed by exact E; cbv zeta; cbn [fst].
    rewrite signed_passes; tauto.
Qed.

Lemma helo_passes w evp m :
  val (MATCH_EVAL (ruleset_match_smtp_helo w m evp)) = Fallthrough
  <-> (smtp_helo m <> 0 ->
       passes (table_query w (table_find w (smtp_helo_table m))
                 (helo evp) K_DOMAIN)
              (smtp_helo m <? 0)).
Proof.
  unfold val; rewrite fst_MATCH_EVAL.
  destruct (Z.eq_dec (smtp_helo m) 0) as [E|E].
  - unfold ruleset_match_smtp_helo; rewrite E; cbn; tauto.
  - rewrite ruleset_match_smtp_helo_closed by exact E; cbv zeta; cbn [fst].
    rewrite signed_passes; tauto.
Qed.

Lemma auth_passes evp m :
  val (MATCH_EVAL (ruleset_match_smtp_auth m evp)) = Fallthrough
  <-> (smtp_auth m <> 0 ->
       if smtp_auth m <? 0
       then Z.land (flags evp) EF_AUTHENTICATED = 0
       else Z.land (flags evp) EF_AUTHENTICATED <> 0
            /\ smtp_auth_table m = None).
Proof.
  unfold val; rewrite fst_MATCH_EVAL.
  destruct (Z.eq_dec (smtp_auth m) 0) as [E|E].
  - unfold ruleset_match_smtp_auth; rewrite E; cbn; tauto.
  - rewrite ruleset_match_smtp_auth_closed by exact E; cbn [fst].
    destruct (Z.eqb_spec (Z.land (flags evp) EF_AUTHENTICATED) 0) as [Ea|Ea];
      destruct (smtp_auth m <? 0); destruct (smtp_auth_table m); cbn;
      split; intros H; try reflexivity; try discriminate; try congruence;
      try (specialize (H E)); try tauto;
      try (destruct H; congruence).
Qed.

Lemma starttls_passes evp m :
  val (MATCH_EVAL (ruleset_match_smtp_starttls m evp)) = Fallthrough
  <-> smtp_starttls m = 0.
Proof.
  unfold val; rewrite fst_MATCH_EVAL; unfold ruleset_match_smtp_starttls.
  destruct (Z.eqb_spec (smtp_starttls m) 0) as [E|E]; cbn;
    split; intros H; try reflexivity; try discriminate; congruence.
Qed.

Lemma mailaddr_passes w a x name (crit : M Z) :
  (x = 0 -> crit st0 = (1, st0)) ->
  (x <> 0 -> mailaddr_to_text w a = None -> fst (crit st0) = -1) ->
  (forall key, x <> 0 -> mailaddr_to_text w a = Some key ->
     fst (crit st0)
     = signed x (lookup_int (table_query w (table_find w name) key K_MAILADDR))) ->
  val (MATCH_EVAL crit) = Fallthrough
  <-> (x <> 0 ->
       exists key, mailaddr_to_text w a = Some key
                   /\ passes (table_query w (table_find w name) key K_MAILADDR)
                             (x <? 0)).
Proof.
  intros H0 Hnone Hsome; unfold val; rewrite fst_MATCH_EVAL.
  destruct (Z.eq_dec x 0) as [E|E].
  - rewrite (H0 E); cbn; tauto.
  - destruct (mailaddr_to_text w a) as [key|] eqn:Et.
    + rewrite (Hsome key E eq_refl), signed_passes; split.
      * intros H _; now exists key.
      * intros H; destruct (H E) as (key' & [= <-] & Hp); exact Hp.
    + rewrite (Hnone E eq_refl); cbn; split; [discriminate|].
      intros H; destruct (H E) as (key & Hk & _); discriminate.
Qed.

Lemma mail_from_passes w evp m :
  val (MATCH_EVAL (ruleset_match_smtp_mail_from w m evp)) = Fallthrough
  <-> (smtp_mail_from m <> 0 ->
       exists key, mailaddr_to_text w (sender evp) = Some key
                   /\ passes (table_query w
                                (table_find w (smtp_mail_from_table m))
                                key K_MAILADDR)
                             (smtp_mail_from m <? 0)).
Proof.
  apply mailaddr_passes.
  - intros E; unfold ruleset_match_smtp_mail_from; now rewrite E.
  - intros Hp E; unfold ruleset_match_smtp_mail_from.
    apply Z.eqb_neq in Hp; now rewrite Hp, E.
  - intros key Hp E.
    now rewrite (ruleset_match_smtp_mail_from_closed w m evp key st0 Hp E).
Qed.

Lemma rcpt_to_passes w evp m :
  val (MATCH_EVAL (ruleset_match_smtp_rcpt_to w m evp)) = Fallthrough
  <-> (smtp_rcpt_to m <> 0 ->
       exists key, mailaddr_to_text w (dest evp) = Some key
                   /\ passes (table_query w
                                (table_find w (smtp_rcpt_to_table m))
                                key K_MAILADDR)
                             (smtp_rcpt_to m <? 0)).
Proof.
  apply mailaddr_passes.
  - intros E; unfold ruleset_match_smtp_rcpt_to; now rewrite E.
  - intros Hp E; unfold ruleset_match_smtp_rcpt_to.
    apply Z.eqb_neq in Hp; now rewrite Hp, E.
  - intros key Hp E.
    now rewrite (ruleset_match_smtp_rcpt_to_closed w m evp key st0 Hp E).
Qed.

(** An iteration of [ruleset_match_new] reaches [matched] exactly on the
    rules whose constraints hold. *)
Lemma new_rule_matched_iff w evp m :
  val (ruleset_match_new_rule w evp m) = Matched <-> match_holds w evp m.
Proof.
  rewrite ruleset_match_new_rule_stmts.
  rewrite run_stmts_matched_iff
    by (apply uniform_match_stmts || apply match_stmts_not_matched).
  unfold match_criteria; cbn [map].
  rewrite !Forall_cons_iff, Forall_nil_iff.
  rewrite tag_passes, from_passes, to_passes, helo_passes, auth_passes,
    starttls_passes, mail_from_passes, rcpt_to_passes.
  unfold match_holds; tauto.
Qed.

Lemma rule_tag_passes evp r :
  val (rule_tag evp r) = Fallthrough
  <-> (r_tag r <> "" ->
       if r_nottag r then r_tag r <> tag evp else r_tag r = tag evp).
Proof.
  unfold val, rule_tag.
  destruct (String.eqb_spec (r_tag r) "") as [E|E]; cbn [negb].
  - cbn; tauto.
  - cbv zeta; rewrite strcmp_eqb.
    destruct (String.eqb_spec (r_tag r) (tag evp)) as [Et|Et];
      destruct (r_nottag r); cbn; split; intros H;
      try reflexivity; try discriminate; try tauto;
      try (specialize (H E); congruence).
Qed.

Lemma rule_wantauth_passes evp r :
  val (rule_wantauth evp r) = Fallthrough
  <-> (r_wantauth r = true ->
       if r_negwantauth r
       then Z.land (flags evp) EF_AUTHENTICATED = 0
       else Z.land (flags evp) EF_AUTHENTICATED <> 0).
Proof.
  unfold val, rule_wantauth.
  destruct (r_wantauth r), (r_negwantauth r);
    destruct (Z.eqb_spec (Z.land (flags evp) EF_AUTHENTICATED) 0) as [E|E];
    cbn; split; intros H; try reflexivity; try discriminate; try tauto;
    try (specialize (H eq_refl); congruence).
Qed.

Lemma source_verdict_passes q n :
  source_verdict q n = Fallthrough <-> passes q n.
Proof.
  unfold source_verdict, passes; destruct q, n; split; intros H;
    try reflexivity; discriminate.
Qed.

Lemma rule_sources_passes w evp r :
  val (rule_sources w evp r) = Fallthrough
  <-> passes (table_query w (r_sources r) (source_key w evp) K_NETADDR)
             (r_notsources r).
Proof.
  unfold val; rewrite rule_sources_closed; cbv zeta; cbn [fst].
  apply source_verdict_passes.
Qed.

Lemma fail_or_skip_lookup_passes q n :
  (if lookup_int q =? -1 then Tempfail
   else if (lookup_int q =? 0) && negb n || negb (lookup_int q =? 0) && n
        then Continue else Fallthrough) = Fallthrough
  <-> passes q n.
Proof.
  unfold passes; destruct q, n; cbn; split; intros H;
    try reflexivity; discriminate.
Qed.

Lemma rule_mailaddr_passes w t n a :
  val (match t with
       | Some _ => fail_or_skip (ruleset_check_mailaddr w t a) n
       | None => mret Fallthrough
       end) = Fallthrough
  <-> (t <> None ->
       exists key, mailaddr_to_text w a = Some key
                   /\ passes (table_query w t key K_MAILADDR) n).
Proof.
  unfold val; destruct t as [t|].
  - rewrite fst_fail_or_skip.
    destruct (mailaddr_to_text w a) as [key|] eqn:E.
    + rewrite (ruleset_check_mailaddr_closed w (Some t) a key st0 E).
      cbn [fst]; rewrite fail_or_skip_lookup_passes; split.
      * intros H _; now exists key.
      * intros H; destruct H as (key' & [= <-] & Hp); [discriminate | exact Hp].
    + unfold ruleset_check_mailaddr; rewrite E; cbn; split; [discriminate|].
      intros H; destruct H as (key & Hk & _); discriminate.
  - cbn; split; [intros _ H; congruence | reflexivity].
Qed.

Lemma rule_destination_passes w evp r :
  val (rule_destination w evp r) = Fallthrough
  <-> match r_destination r with
      | None => r_notdestination r = false
      | Some _ => passes (table_query w (r_destination r)
                            (domain (dest evp)) K_DOMAIN)
                         (r_notdestination r)
      end.
Proof.
  unfold val, rule_destination; rewrite fst_fail_or_skip.
  destruct (r_destination r) as [t|].
  - rewrite table_lookup_closed; cbn [fst].
    apply fail_or_skip_lookup_passes.
  - destruct (r_notdestination r); cbn; split; intros H;
      try reflexivity; discriminate.
Qed.

(** An iteration of [ruleset_match] reaches [matched] exactly on the rules
    whose constraints hold. *)
Lemma rule_matched_iff w evp r :
  val (ruleset_match_rule w evp r) = Matched <-> rule_holds w evp r.
Proof.
  rewrite ruleset_match_rule_stmts.
  rewrite run_stmts_matched_iff
    by (apply uniform_rule_stmts || apply rule_stmts_not_matched).
  unfold rule_stmts.
  rewrite !Forall_cons_iff, Forall_nil_iff.
  rewrite rule_tag_passes, rule_wantauth_passes, rule_sources_passes,
    rule_destination_passes.
  unfold rule_senders, rule_recipients.
  rewrite !rule_mailaddr_passes.
  unfold rule_holds; tauto.
Qed.

(** ** X4 *)

(** X4.  [ruleset_match_new] returns a rule exactly when that rule stands
    in the list behind rules that all end in no-match and its constraints
    hold of the envelope: every present table criterion finds its key (or
    does not, under negation), the origin criterion has no [from_socket],
    the authentication criterion agrees with the session and has no
    credential table unless negated, there is no transport-security
    criterion, and both addresses have a text if asked for.  An iteration
    reaches [matched] on those rules only. *)
Theorem X4_ruleset_match_new_returns_rules_that_hold :
  forall (w : collaborators) (evp : envelope),
    (forall m,
        yields (ruleset_match_new_rule w evp m) Matched <-> match_holds w evp m)
    /\
    (forall matches m s,
        fst (ruleset_match_new w matches evp s) = Some m
        <-> exists pre post,
              matches = pre ++ m :: post
              /\ Forall (fun m' => yields (ruleset_match_new_rule w evp m')
                                     Continue) pre
              /\ match_holds w evp m).
Proof.
  intros w evp; split.
  - intros m; rewrite yields_new_rule; apply new_rule_matched_iff.
  - intros matches m s; split.
    + intros H.
      assert (Ho : outcome_of (ruleset_match_new w matches evp s) = Selected m)
        by (unfold outcome_of; now rewrite H).
      unfold ruleset_match_new in Ho.
      rewrite ruleset_match_new_first_match in Ho.
      apply first_match_selected in Ho;
        [ | intros x; apply val_new_rule_not_fallthrough ].
      destruct Ho as (pre & post & -> & Hpre & Hm).
      exists pre, post; split; [reflexivity | split].
      * now apply Forall_yields_new_rule.
      * now apply new_rule_matched_iff.
    + intros (pre & post & -> & Hpre & Hm).
      apply new_rule_matched_iff, yields_new_rule in Hm.
      unfold ruleset_match_new.
      rewrite ruleset_match_new_skip, ruleset_match_new_step by exact Hpre.
      now rewrite (Hm _).
Qed.

(** X4, at work: a remote client, then a rule for local sources, then a
    rule for any source with a listed sender. *)
Lemma X4_ruleset_match_new_returns_rules_that_hold_witness :
  let evp := ex_envelope 0 in
  let m1 := set_from 1 (Some "localhost") ex_match in
  let m2 := set_smtp_mail_from 1 (Some "anyhost")
              (set_from 1 (Some "anyhost") ex_match) in
  fst (ruleset_match_new ex_world [m1; m2] evp st0) = Some m2.
Proof.
  intros evp m1 m2.
  refine (proj2 (proj2 (X4_ruleset_match_new_returns_rules_that_hold
                          ex_world evp) [m1; m2] m2 st0) _).
  exists [m1], []; split; [reflexivity | split].
  - repeat constructor; intros s; reflexivity.
  - unfold match_holds; cbn.
    repeat split;
      try (intros H; exfalso; now apply H);
      try (exfalso; match goal with H : ?x <> ?x |- _ => now apply H end).
    intros _; exists "alice@example.org"; split; reflexivity.
Defined.

(** ** X5 *)

(** X5.  [ruleset_match] returns a rule exactly when that rule stands in
    the list behind rules that all end in no-match and its constraints
    hold of the envelope: a tag, if the rule has one, equals the envelope's
    (or differs, under negation); wanted authentication agrees with the
    session; the source table finds the source key (or does not, under
    negation); sender and recipient tables, if set, find the text of the
    address, which must exist; the destination table, if set, finds the
    recipient's domain, and if not set its negation flag is unset. *)
Theorem X5_ruleset_match_returns_rules_that_hold :
  forall (w : collaborators) (evp : envelope),
    (forall r,
        yields (ruleset_match_rule w evp r) Matched <-> rule_holds w evp r)
    /\
    (forall rules r s,
        fst (ruleset_match w rules evp s) = Some r
        <-> exists pre post,
              rules = pre ++ r :: post
              /\ Forall (fun r' => yields (ruleset_match_rule w evp r')
                                     Continue) pre
              /\ rule_holds w evp r).
Proof.
  intros w evp; split.
  - intros r; rewrite yields_rule; apply rule_matched_iff.
  - intros rules r s; split.
    + intros H.
      assert (Ho : outcome_of (ruleset_match w rules evp s) = Selected r)
        by (unfold outcome_of; now rewrite H).
      rewrite ruleset_match_first_match in Ho.
      apply first_match_selected in Ho;
        [ | intros x; apply val_rule_not_fallthrough ].
      destruct Ho as (pre & post & -> & Hpre & Hr).
      exists pre, post; split; [reflexivity | split].
      * now apply Forall_yields_rule.
      * now apply rule_matched_iff.
    + intros (pre & post & -> & Hpre & Hr).
      apply rule_matched_iff, yields_rule in Hr.
      rewrite ruleset_match_skip, ruleset_match_step by exact Hpre.
      now rewrite (Hr _).
Qed.

(** X5, at work: a remote client, then a rule for local sources, then a
    rule for any source. *)
Lemma X5_ruleset_match_returns_rules_that_hold_witness :
  let evp := ex_envelope 0 in
  fst (ruleset_match ex_world [ex_rule "localhost"; ex_rule "anyhost"] evp st0)
  = Some (ex_rule "anyhost").
Proof.
  intros evp.
  refine (proj2 (proj2 (X5_ruleset_match_returns_rules_that_hold
                          ex_world evp)
                   [ex_rule "localhost"; ex_rule "anyhost"]
                   (ex_rule "anyhost") st0) _).
  exists [ex_rule "localhost"], []; split; [reflexivity | split].
  - repeat constructor; intros s; reflexivity.
  - unfold rule_holds; cbn.
    repeat split; try discriminate; intros H; exfalso; now apply H.
Defined.

(** ** X6 *)

Lemma MATCH_EVAL_val_pass w evp m c :
  In c (match_criteria w evp m) ->
  val (MATCH_EVAL c) = Fallthrough -> yields c 1.
Proof.
  intros Hin H s.
  rewrite (logging_val c s (logging_match_criteria w m evp c Hin)).
  unfold val at 1 in H; rewrite fst_MATCH_EVAL in H.
  pose proof (match_criteria_range w evp m c st0 Hin) as Hr.
  unfold val; destruct Hr as [Hr | [Hr | [Hr | Hr]]];
    try contradiction; rewrite <- Hr in *; try discriminate; reflexivity.
Qed.

Lemma MATCH_EVAL_val_fault w evp m c :
  In c (match_criteria w evp m) ->
  val (MATCH_EVAL c) = Tempfail -> yields c (-1).
Proof.
  intros Hin H s.
  rewrite (logging_val c s (logging_match_criteria w m evp c Hin)).
  unfold val at 1 in H; rewrite fst_MATCH_EVAL in H.
  pose proof (match_criteria_range w evp m c st0 Hin) as Hr.
  unfold val; destruct Hr as [Hr | [Hr | [Hr | Hr]]];
    try contradiction; rewrite <- Hr in *; try discriminate; reflexivity.
Qed.

(** An iteration of [ruleset_match_new] that ends on the temporary-failure
    path has met a criterion that returned -1 after criteria that all
    returned 1. *)
Lemma new_rule_tempfail_inv w evp m :
  val (ruleset_match_new_rule w evp m) = Tempfail ->
  exists cs1 c cs2,
    match_criteria w evp m = cs1 ++ c :: cs2
    /\ Forall (fun c' => yields c' 1) cs1
    /\ yields c (-1).
Proof.
  intros H; rewrite ruleset_match_new_rule_stmts in H.
  destruct (run_stmts_inv _ Tempfail (uniform_match_stmts w evp m)
              (match_stmts_not_matched w evp m) H)
    as [(E & _) | (_ & bs1 & b & bs2 & Hsplit & Hbs1 & Hb)]; [discriminate|].
  apply map_eq_app in Hsplit as (cs1 & cs' & Hcs & <- & Hcs').
  apply map_eq_cons in Hcs' as (c & cs2 & -> & <- & <-).
  exists cs1, c, cs2; split; [exact Hcs | split].
  - apply Forall_forall; intros c' Hc'.
    apply (MATCH_EVAL_val_pass w evp m).
    + rewrite Hcs; apply in_or_app; now left.
    + rewrite Forall_forall in Hbs1; apply Hbs1, in_map, Hc'.
  - apply (MATCH_EVAL_val_fault w evp m); [ | exact Hb ].
    rewrite Hcs; apply in_or_app; right; now left.
Qed.

Lemma rule_tempfail_inv w evp r :
  val (ruleset_match_rule w evp r) = Tempfail ->
  exists bs1 b bs2,
    rule_stmts w evp r = bs1 ++ b :: bs2
    /\ Forall (fun b' => yields b' Fallthrough) bs1
    /\ yields b Tempfail.
Proof.
  intros H; rewrite ruleset_match_rule_stmts in H.
  destruct (run_stmts_inv _ Tempfail (uniform_rule_stmts w evp r)
              (rule_stmts_not_matched w evp r) H)
    as [(E & _) | (_ & bs1 & b & bs2 & Hsplit & Hbs1 & Hb)]; [discriminate|].
  pose proof (uniform_rule_stmts w evp r) as Hu; rewrite Hsplit in Hu.
  apply Forall_app in Hu as [Hu1 Hu2].
  apply Forall_cons_iff in Hu2 as [Hub _].
  exists bs1, b, bs2; split; [exact Hsplit | split].
  - rewrite Forall_forall in *; intros b' Hb' s.
    now rewrite (Hu1 b' Hb' s), (Hbs1 b' Hb').
  - intros s; now rewrite (Hub s).
Qed.

(** X6.  The two ways a call returns [NULL] have causes in the rules.  The
    caller reads [Indeterminate] exactly when some rule, standing behind
    rules that all end in no-match, meets a criterion that yields
    indeterminate after criteria that all pass: a temporary failure is
    never reported without a fault.  The caller reads [NoRuleMatched]
    exactly when every rule of the list ends in no-match. *)
Theorem X6_null_results_have_causes :
  forall (w : collaborators) (evp : envelope) (s : state),
    (forall matches,
        outcome_of (ruleset_match_new w matches evp s) = Indeterminate
        <-> exists pre m post cs1 c cs2,
              matches = pre ++ m :: post
              /\ Forall (fun m' => yields (ruleset_match_new_rule w evp m')
                                     Continue) pre
              /\ match_criteria w evp m = cs1 ++ c :: cs2
              /\ Forall (fun c' => yields c' 1) cs1
              /\ yields c (-1))
    /\
    (forall matches,
        outcome_of (ruleset_match_new w matches evp s) = NoRuleMatched
        <-> Forall (fun m => yields (ruleset_match_new_rule w evp m) Continue)
                   matches)
    /\
    (forall rules,
        outcome_of (ruleset_match w rules evp s) = Indeterminate
        <-> exists pre r post bs1 b bs2,
              rules = pre ++ r :: post
              /\ Forall (fun r' => yields (ruleset_match_rule w evp r')
                                     Continue) pre
              /\ rule_stmts w evp r = bs1 ++ b :: bs2
              /\ Forall (fun b' => yields b' Fallthrough) bs1
              /\ yields b Tempfail)
    /\
    (forall rules,
        outcome_of (ruleset_match w rules evp s) = NoRuleMatched
        <-> Forall (fun r => yields (ruleset_match_rule w evp r) Continue)
                   rules).
Proof.
  intros w evp s; split; [ | split; [ | split ] ].
  - intros matches; split.
    + unfold ruleset_match_new; rewrite ruleset_match_new_first_match.
      intros H; apply first_match_indeterminate in H;
        [ | intros x; apply val_new_rule_not_fallthrough ].
      destruct H as (pre & m & post & -> & Hpre & Hm).
      destruct (new_rule_tempfail_inv w evp m Hm)
        as (cs1 & c & cs2 & Hsplit & Hcs1 & Hc).
      exists pre, m, post, cs1, c, cs2; repeat split; try assumption.
      now apply Forall_yields_new_rule.
    + intros (pre & m & post & cs1 & c & cs2 & -> & Hpre & Hsplit & Hcs1 & Hc).
      now rewrite (ruleset_match_new_fault w evp s pre m post cs1 c cs2).
  - intros matches; split.
    + unfold ruleset_match_new; rewrite ruleset_match_new_first_match.
      intros H; apply first_match_no_rule in H;
        [ | intros x; apply val_new_rule_not_fallthrough ].
      now apply Forall_yields_new_rule.
    + intros H; unfold ruleset_match_new.
      rewrite <- (app_nil_r matches) at 1.
      rewrite ruleset_match_new_skip by exact H; reflexivity.
  - intros rules; split.
    + rewrite ruleset_match_first_match.
      intros H; apply first_match_indeterminate in H;
        [ | intros x; apply val_rule_not_fallthrough ].
      destruct H as (pre & r & post & -> & Hpre & Hr).
      destruct (rule_tempfail_inv w evp r Hr)
        as (bs1 & b & bs2 & Hsplit & Hbs1 & Hb).
      exists pre, r, post, bs1, b, bs2; repeat split; try assumption.
      now apply Forall_yields_rule.
    + intros (pre & r & post & bs1 & b & bs2 & -> & Hpre & Hsplit & Hbs1 & Hb).
      assert (Hr : yields (ruleset_match_rule w evp r) Tempfail).
      { intros s'; rewrite ruleset_match_rule_stmts, Hsplit.
        rewrite (run_stmts_leave bs1 b bs2 Tempfail);
          [ reflexivity | assumption | assumption | discriminate ]. }
      now rewrite (ruleset_match_tempfail w evp pre r post s Hpre Hr).
  - intros rules; split.
    + rewrite ruleset_match_first_match.
      intros H; apply first_match_no_rule in H;
        [ | intros x; apply val_rule_not_fallthrough ].
      now apply Forall_yields_rule.
    + intros H; rewrite <- (app_nil_r rules) at 1.
      rewrite ruleset_match_skip by exact H; reflexivity.
Qed.

(** X6, at work: a call that ends in [Indeterminate] on a failing origin
    table has its cause found. *)
Lemma X6_null_results_have_causes_witness :
  let evp := ex_envelope 0 in
  let m := set_from 1 (Some "broken") ex_match in
  exists pre m' post cs1 c cs2,
    [m] = pre ++ m' :: post
    /\ Forall (fun m0 => yields (ruleset_match_new_rule ex_world evp m0)
                           Continue) pre
    /\ match_criteria ex_world evp m' = cs1 ++ c :: cs2
    /\ Forall (fun c' => yields c' 1) cs1
    /\ yields c (-1).
Proof.
  intros evp m.
  refine (proj1 (proj1 (X6_null_results_have_causes ex_world evp st0) [m]) _).
  reflexivity.
Defined.

(** ** X7 *)

Lemma ruleset_match_new_rule_set_ss w evp a m :
  Z.land (flags evp) EF_INTERNAL <> 0 ->
  ruleset_match_new_rule w (set_ss a evp) m = ruleset_match_new_rule w evp m.
Proof.
  intros H; apply Z.eqb_neq in H.
  unfold ruleset_match_new_rule, ruleset_match_from.
  cbn [flags ss set_ss]; rewrite H; reflexivity.
Qed.

Lemma ruleset_match_rule_set_ss w evp a r :
  Z.land (flags evp) EF_AUTHENTICATED <> 0
  \/ Z.land (flags evp) EF_INTERNAL <> 0 ->
  ruleset_match_rule w (set_ss a evp) r = ruleset_match_rule w evp r.
Proof.
  intros H.
  assert (E : (Z.land (flags evp) (Z.lor EF_AUTHENTICATED EF_INTERNAL) =? 0)
              = false).
  { apply Z.eqb_neq; intros E; apply land_mask_either in E.
    destruct E, H; contradiction. }
  unfold ruleset_match_rule, rule_sources, ruleset_check_source.
  cbn [flags ss set_ss]; rewrite E; reflexivity.
Qed.

(** X7.  For a session flagged internal, the result of
    [ruleset_match_new], value and state, does not depend on the network
    address of the envelope: any two addresses give the same result.  The
    same holds for [ruleset_match] for a session flagged authenticated or
    internal. *)
Theorem X7_local_sessions_ignore_the_address :
  forall (w : collaborators) (evp : envelope) (a : sockaddr_storage)
         (s : state),
    (Z.land (flags evp) EF_INTERNAL <> 0 ->
     forall matches,
       ruleset_match_new w matches (set_ss a evp) s
       = ruleset_match_new w matches evp s)
    /\
    (Z.land (flags evp) EF_AUTHENTICATED <> 0
     \/ Z.land (flags evp) EF_INTERNAL <> 0 ->
     forall rules,
       ruleset_match w rules (set_ss a evp) s = ruleset_match w rules evp s).
Proof.
  intros w evp a s; split; intros H.
  - intros matches; unfold ruleset_match_new.
    generalize 0 as i; revert s.
    induction matches as [|m rest IH]; intros s i; [reflexivity|].
    rewrite !ruleset_match_new_step, ruleset_match_new_rule_set_ss by exact H.
    cbv zeta.
    destruct (fst (ruleset_match_new_rule w evp m s)); try reflexivity; apply IH.
  - intros rules; revert s.
    induction rules as [|r rest IH]; intros s; [reflexivity|].
    rewrite !ruleset_match_step, ruleset_match_rule_set_ss by exact H.
    cbv zeta.
    destruct (fst (ruleset_match_rule w evp r s)); try reflexivity; apply IH.
Qed.

(** X7, at work: an internal session from two different addresses. *)
Lemma X7_local_sessions_ignore_the_address_witness :
  let m := set_from 1 (Some "localhost") ex_match in
  let a := {| ss_family := 2; ss_data := [203; 0; 113; 9] |} in
  ruleset_match_new ex_world [m] (set_ss a (ex_envelope EF_INTERNAL)) st0
  = ruleset_match_new ex_world [m] (ex_envelope EF_INTERNAL) st0
  /\ ruleset_match ex_world [ex_rule "localhost"]
       (set_ss a (ex_envelope EF_AUTHENTICATED)) st0
     = ruleset_match ex_world [ex_rule "localhost"]
         (ex_envelope EF_AUTHENTICATED) st0.
Proof.
  intros m a; split.
  - refine (proj1 (X7_local_sessions_ignore_the_address ex_world
                     (ex_envelope EF_INTERNAL) a st0) _ [m]).
    discriminate.
  - refine (proj2 (X7_local_sessions_ignore_the_address ex_world
                     (ex_envelope EF_AUTHENTICATED) a st0) _
              [ex_rule "localhost"]).
    left; discriminate.
Defined.

(** ** X8 *)

Lemma rule_tag_closed evp r s :
  rule_tag evp r s = (val (rule_tag evp r), s).
Proof.
  unfold val, rule_tag.
  destruct (negb (r_tag r =? "")%string); [|reflexivity]; cbv zeta.
  destruct (negb (strcmp (r_tag r) (tag evp) =? 0) && negb (r_nottag r));
    [reflexivity|].
  destruct ((strcmp (r_tag r) (tag evp) =? 0) && r_nottag r); reflexivity.
Qed.

Lemma rule_wantauth_closed evp r s :
  rule_wantauth evp r s = (val (rule_wantauth evp r), s).
Proof.
  unfold val, rule_wantauth.
  destruct (r_wantauth r && negb (r_negwantauth r)
            && (Z.land (flags evp) EF_AUTHENTICATED =? 0)); [reflexivity|].
  destruct (r_wantauth r && r_negwantauth r
            && negb (Z.land (flags evp) EF_AUTHENTICATED =? 0)); reflexivity.
Qed.

(** X8.  [ruleset_match] tests the tag and the wanted authentication of
    a rule before it queries any table: a rule whose tag does not agree
    with the envelope's, or whose wanted authentication does not agree with
    the session, is passed over with the state untouched, and the call
    goes on with the next rule as if the rule were not in the list. *)
Theorem X8_tag_and_authentication_are_tested_before_any_table :
  forall (w : collaborators) (evp : envelope) (r : rule) (s : state),
    (r_tag r <> ""
     /\ (if r_nottag r then r_tag r = tag evp else r_tag r <> tag evp))
    \/ (r_wantauth r = true
        /\ (if r_negwantauth r
            then Z.land (flags evp) EF_AUTHENTICATED <> 0
            else Z.land (flags evp) EF_AUTHENTICATED = 0)) ->
    ruleset_match_rule w evp r s = (Continue, s)
    /\ forall rest,
         ruleset_match w (r :: rest) evp s = ruleset_match w rest evp s.
Proof.
  intros w evp r s H.
  assert (E : ruleset_match_rule w evp r s = (Continue, s)).
  { rewrite ruleset_match_rule_stmts; unfold rule_stmts.
    rewrite run_stmts_cons, rule_tag_closed; cbn [fst snd].
    pose proof (rule_tag_passes evp r) as Ht.
    destruct (val (rule_tag evp r)) eqn:Ev.
    - rewrite run_stmts_cons, rule_wantauth_closed; cbn [fst snd].
      pose proof (rule_wantauth_passes evp r) as Ha.
      pose proof (rule_wantauth_not_tempfail evp r) as Hnt.
      pose proof (rule_stmts_not_matched w evp r) as Hnm.
      unfold rule_stmts in Hnm.
      apply Forall_cons_iff in Hnm as [_ Hnm].
      apply Forall_cons_iff in Hnm as [Hnm _].
      destruct (val (rule_wantauth evp r)); try reflexivity; try congruence.
      exfalso.
      destruct H as [(Hne & Hc) | (Hw & Hc)].
      + apply proj1 in Ht; specialize (Ht eq_refl Hne).
        destruct (r_nottag r); congruence.
      + apply proj1 in Ha; specialize (Ha eq_refl Hw).
        destruct (r_negwantauth r); congruence.
    - reflexivity.
    - now destruct (rule_tag_not_tempfail evp r).
    - pose proof (rule_stmts_not_matched w evp r) as Hnm.
      unfold rule_stmts in Hnm.
      apply Forall_cons_iff in Hnm as [Hnm _]; congruence. }
  split; [exact E|].
  intros rest; now rewrite ruleset_match_step, E.
Qed.

(** X8, at work: a rule tagged "lists" with a failing source table,
    against an envelope without a tag: the table is not queried. *)
Lemma X8_tag_and_authentication_are_tested_before_any_table_witness :
  let r := {| r_tag := "lists"; r_nottag := false;
              r_wantauth := false; r_negwantauth := false;
              r_sources := tbl "broken"; r_notsources := false;
              r_senders := None; r_notsenders := false;
              r_recipients := None; r_notrecipients := false;
              r_destination := None; r_notdestination := false |} in
  ruleset_match_rule ex_world (ex_envelope 0) r st0 = (Continue, st0).
Proof.
  intros r.
  refine (proj1 (X8_tag_and_authentication_are_tested_before_any_table
                   ex_world (ex_envelope 0) r st0 _)).
  left; split; discriminate.
Defined.

(** ** Accounting for the log *)

Lemma count_lookups_app l1 l2 :
  count_lookups (l1 ++ l2) = (count_lookups l1 + count_lookups l2)%nat.
Proof.
  induction l1 as [|e l1 IH]; [reflexivity|].
  destruct e; cbn; rewrite IH; reflexivity.
Qed.

Lemma count_warnings_app l1 l2 :
  count_warnings (l1 ++ l2) = (count_warnings l1 + count_warnings l2)%nat.
Proof.
  induction l1 as [|e l1 IH]; [reflexivity|].
  destruct e; cbn; rewrite IH; reflexivity.
Qed.

Lemma count_failures_app w l1 l2 :
  count_failures w (l1 ++ l2)
  = (count_failures w l1 + count_failures w l2)%nat.
Proof.
  induction l1 as [|e l1 IH]; [reflexivity|].
  destruct e; cbn; rewrite ?IH; try reflexivity.
  destruct (table_query w t key svc); reflexivity.
Qed.

Lemma accounted_nil w b n : accounted w b n [].
Proof. unfold accounted; cbn; split; [lia | destruct b; lia]. Qed.

Lemma accounted_app w b n1 n2 t1 t2 :
  accounted w b n1 t1 -> accounted w b n2 t2 ->
  accounted w b (n1 + n2) (t1 ++ t2).
Proof.
  unfold accounted; intros [H1 H1'] [H2 H2'].
  rewrite count_lookups_app, count_warnings_app, count_failures_app.
  split; [lia | destruct b; lia].
Qed.

Lemma accounted_weaken w b n n' tr :
  (n <= n')%nat -> accounted w b n tr -> accounted w b n' tr.
Proof. unfold accounted; intros Hn [H1 H2]; split; [lia | exact H2]. Qed.

Lemma accounted_relax w n tr : accounted w true n tr -> accounted w false n tr.
Proof. unfold accounted; intros [H1 H2]; split; [exact H1 | lia]. Qed.

Lemma accounted_lookup_lines w t key svc :
  accounted w true 1 (lookup_lines t key svc (table_query w t key svc)).
Proof.
  unfold accounted, lookup_lines.
  destruct (table_query w t key svc) eqn:E; cbn; rewrite E; split; lia.
Qed.

Lemma emits_done {A} w b n (a : A) : emits (accounted w b n) (mret a).
Proof.
  intros s; exists []; split; [cbn; now rewrite app_nil_r | apply accounted_nil].
Qed.

Lemma emits_weaken {A} w b n n' (c : M A) :
  (n <= n')%nat -> emits (accounted w b n) c -> emits (accounted w b n') c.
Proof.
  intros Hn H s; destruct (H s) as (tr & E & Ha).
  exists tr; split; [exact E | now apply (accounted_weaken w b n)].
Qed.

Lemma emits_relax {A} w n (c : M A) :
  emits (accounted w true n) c -> emits (accounted w false n) c.
Proof.
  intros H s; destruct (H s) as (tr & E & Ha).
  exists tr; split; [exact E | now apply accounted_relax].
Qed.

Lemma emits_match_table_lookup w t key svc :
  emits (accounted w true 1) (ruleset_match_table_lookup w t key svc).
Proof.
  intros s; rewrite ruleset_match_table_lookup_closed.
  eexists; split; [reflexivity | apply accounted_lookup_lines].
Qed.

Lemma emits_after_lookup w t key svc (k : Z -> M Z) :
  (forall v s, snd (k v s) = s) ->
  emits (accounted w true 1)
        (mbind (ruleset_match_table_lookup w t key svc) k).
Proof.
  intros Hk s; unfold mbind; rewrite ruleset_match_table_lookup_closed, Hk.
  eexists; split; [reflexivity | apply accounted_lookup_lines].
Qed.

Ltac after_lookup :=
  apply emits_after_lookup; intros v s';
  repeat match goal with
         | |- context [if ?b then _ else _] => destruct b
         end; reflexivity.

Lemma emits_match_criteria w evp m :
  Forall2 (fun n c => emits (accounted w true n) c)
          [1; 1; 1; 1; 0; 0; 1; 1]%nat (match_criteria w evp m).
Proof.
  unfold match_criteria; repeat constructor.
  - unfold ruleset_match_tag; destruct (m_tag m =? 0);
      [apply emits_done | after_lookup].
  - unfold ruleset_match_from; destruct (from m =? 0); [apply emits_done|].
    destruct (from_socket m); [apply emits_done | after_lookup].
  - unfold ruleset_match_to; destruct (to m =? 0);
      [apply emits_done | after_lookup].
  - unfold ruleset_match_smtp_helo; destruct (smtp_helo m =? 0);
      [apply emits_done | after_lookup].
  - unfold ruleset_match_smtp_auth; destruct (smtp_auth m =? 0);
      [apply emits_done|].
    destruct (Z.land (flags evp) EF_AUTHENTICATED =? 0); [apply emits_done|].
    destruct (smtp_auth_table m); apply emits_done.
  - unfold ruleset_match_smtp_starttls; destruct (smtp_starttls m =? 0);
      apply emits_done.
  - unfold ruleset_match_smtp_mail_from; destruct (smtp_mail_from m =? 0);
      [apply emits_done|].
    destruct (mailaddr_to_text w (sender evp)); [after_lookup | apply emits_done].
  - unfold ruleset_match_smtp_rcpt_to; destruct (smtp_rcpt_to m =? 0);
      [apply emits_done|].
    destruct (mailaddr_to_text w (dest evp)); [after_lookup | apply emits_done].
Qed.

Lemma emits_MATCH_EVAL w b n c :
  emits (accounted w b n) c -> emits (accounted w b n) (MATCH_EVAL c).
Proof. intros H s; rewrite MATCH_EVAL_state; apply H. Qed.

Lemma emits_fail_or_skip w b n c not_ :
  emits (accounted w b n) c -> emits (accounted w b n) (fail_or_skip c not_).
Proof.
  intros H s; destruct (H s) as (tr & E & Ha).
  exists tr; split; [ | exact Ha ].
  unfold fail_or_skip, mbind; destruct (c s) as [v s1]; cbn [snd] in E.
  destruct (v =? -1); [exact E|].
  destruct ((v =? 0) && negb not_ || negb (v =? 0) && not_); exact E.
Qed.

Lemma emits_seq_ctl w b n1 n2 x y :
  emits (accounted w b n1) x -> emits (accounted w b n2) y ->
  emits (accounted w b (n1 + n2)) (x ;> y).
Proof.
  intros Hx Hy s; destruct (Hx s) as (t1 & E1 & H1).
  unfold seq_ctl, mbind; destruct (x s) as [c s1]; cbn [snd] in E1.
  destruct c;
    try (exists t1; split; [exact E1 | apply (accounted_weaken w b n1); [lia | exact H1]]).
  destruct (Hy s1) as (t2 & E2 & H2).
  exists (t1 ++ t2); split; [ | now apply accounted_app ].
  rewrite E2, E1, app_assoc; reflexivity.
Qed.

Lemma emits_new_rule w evp m :
  emits (accounted w true 6) (ruleset_match_new_rule w evp m).
Proof.
  pose proof (emits_match_criteria w evp m) as H.
  unfold match_criteria in H.
  repeat match goal with
         | H : Forall2 _ (_ :: _) (_ :: _) |- _ =>
             apply Forall2_cons_iff in H; destruct H as [? H]
         end.
  unfold ruleset_match_new_rule.
  apply (emits_seq_ctl w true 1 5); [now apply emits_MATCH_EVAL|].
  apply (emits_seq_ctl w true 1 4); [now apply emits_MATCH_EVAL|].
  apply (emits_seq_ctl w true 1 3); [now apply emits_MATCH_EVAL|].
  apply (emits_seq_ctl w true 1 2); [now apply emits_MATCH_EVAL|].
  apply (emits_seq_ctl w true 0 2); [now apply emits_MATCH_EVAL|].
  apply (emits_seq_ctl w true 0 2); [now apply emits_MATCH_EVAL|].
  apply (emits_seq_ctl w true 1 1); [now apply emits_MATCH_EVAL|].
  apply (emits_seq_ctl w true 1 0); [now apply emits_MATCH_EVAL|].
  apply emits_done.
Qed.

Lemma emits_rule w evp r :
  emits (accounted w false 4) (ruleset_match_rule w evp r).
Proof.
  unfold ruleset_match_rule.
  apply (emits_seq_ctl w false 0 4).
  { intros s; rewrite rule_tag_closed; apply (emits_done w false 0 tt s). }
  apply (emits_seq_ctl w false 0 4).
  { intros s; rewrite rule_wantauth_closed; apply (emits_done w false 0 tt s). }
  apply (emits_seq_ctl w false 1 3).
  { apply emits_fail_or_skip, emits_relax.
    intros s; rewrite ruleset_check_source_closed.
    eexists; split; [reflexivity | apply accounted_lookup_lines]. }
  apply (emits_seq_ctl w false 1 2).
  { unfold rule_senders; destruct (r_senders r); [ | apply emits_done ].
    apply emits_fail_or_skip, emits_relax.
    unfold ruleset_check_mailaddr.
    destruct (mailaddr_to_text w (sender evp)) as [key|] eqn:E;
      [ | apply emits_weaken with (n := 0%nat); [lia | apply emits_done] ].
    intros s.
    pose proof (ruleset_check_mailaddr_closed w (Some t) (sender evp) key s E)
      as Hc.
    unfold ruleset_check_mailaddr in Hc; rewrite E in Hc; rewrite Hc.
    eexists; split; [reflexivity | apply accounted_lookup_lines]. }
  apply (emits_seq_ctl w false 1 1).
  { unfold rule_recipients; destruct (r_recipients r); [ | apply emits_done ].
    apply emits_fail_or_skip, emits_relax.
    unfold ruleset_check_mailaddr.
    destruct (mailaddr_to_text w (dest evp)) as [key|] eqn:E;
      [ | apply emits_weaken with (n := 0%nat); [lia | apply emits_done] ].
    intros s.
    pose proof (ruleset_check_mailaddr_closed w (Some t) (dest evp) key s E)
      as Hc.
    unfold ruleset_check_mailaddr in Hc; rewrite E in Hc; rewrite Hc.
    eexists; split; [reflexivity | apply accounted_lookup_lines]. }
  apply (emits_seq_ctl w false 1 0); [ | apply emits_done ].
  unfold rule_destination; apply emits_fail_or_skip.
  destruct (r_destination r);
    [ | apply emits_weaken with (n := 0%nat); [lia | apply emits_done] ].
  intros s; rewrite table_lookup_closed.
  eexists; split; [reflexivity|].
  unfold accounted; cbn.
  destruct (table_query w (Some t) (domain (dest evp)) K_DOMAIN); split; lia.
Qed.

Lemma emits_ruleset_match_new w evp matches i :
  emits (accounted w true (6 * List.length matches))
        (ruleset_match_new_from w i matches evp).
Proof.
  revert i; induction matches as [|m rest IH]; intros i s.
  - exists [EvTraceNoRule]; split; [reflexivity | split; reflexivity].
  - rewrite ruleset_match_new_step; cbv zeta.
    destruct (emits_new_rule w evp m s) as (t1 & E1 & H1).
    destruct (fst (ruleset_match_new_rule w evp m s)).
    + destruct (IH (i + 1) (snd (ruleset_match_new_rule w evp m s)))
        as (t2 & E2 & H2).
      exists (t1 ++ t2); split; [rewrite E2, E1, app_assoc; reflexivity|].
      apply (accounted_weaken w true (6 + 6 * List.length rest));
        [cbn [List.length]; lia | now apply accounted_app].
    + destruct (IH (i + 1) (snd (ruleset_match_new_rule w evp m s)))
        as (t2 & E2 & H2).
      exists (t1 ++ t2); split; [rewrite E2, E1, app_assoc; reflexivity|].
      apply (accounted_weaken w true (6 + 6 * List.length rest));
        [cbn [List.length]; lia | now apply accounted_app].
    + exists (t1 ++ [EvTraceTempfail]); split;
        [cbn; rewrite E1, app_assoc; reflexivity|].
      apply (accounted_weaken w true (6 + 0));
        [cbn [List.length]; lia | apply accounted_app; [exact H1 | split; reflexivity]].
    + exists (t1 ++ [EvTraceMatchMatched (i + 1) m]); split;
        [cbn; rewrite E1, app_assoc; reflexivity|].
      apply (accounted_weaken w true (6 + 0));
        [cbn [List.length]; lia | apply accounted_app; [exact H1 | split; reflexivity]].
Qed.

Lemma emits_ruleset_match w evp rules :
  emits (accounted w false (4 * List.length rules)) (ruleset_match w rules evp).
Proof.
  induction rules as [|r rest IH]; intros s.
  - exists [EvTraceNoRule]; split; [reflexivity | split; cbn; lia].
  - rewrite ruleset_match_step; cbv zeta.
    destruct (emits_rule w evp r s) as (t1 & E1 & H1).
    destruct (fst (ruleset_match_rule w evp r s)).
    + destruct (IH (snd (ruleset_match_rule w evp r s))) as (t2 & E2 & H2).
      exists (t1 ++ t2); split; [rewrite E2, E1, app_assoc; reflexivity|].
      apply (accounted_weaken w false (4 + 4 * List.length rest));
        [cbn [List.length]; lia | now apply accounted_app].
    + destruct (IH (snd (ruleset_match_rule w evp r s))) as (t2 & E2 & H2).
      exists (t1 ++ t2); split; [rewrite E2, E1, app_assoc; reflexivity|].
      apply (accounted_weaken w false (4 + 4 * List.length rest));
        [cbn [List.length]; lia | now apply accounted_app].
    + exists t1; split; [exact E1|].
      apply (accounted_weaken w false 4); [cbn [List.length]; lia | exact H1].
    + exists (t1 ++ [EvTraceRuleMatched r]); split;
        [cbn; rewrite E1, app_assoc; reflexivity|].
      apply (accounted_weaken w false (4 + 0));
        [cbn [List.length]; lia
        | apply accounted_app; [exact H1 | split; cbn; lia]].
Qed.

(** ** X9 *)

(** X9.  A call queries the table backend a bounded number of times: at
    most six times for each rule of the list in [ruleset_match_new] (the
    authentication and transport-security criteria never query), at most
    four times for each rule in [ruleset_match] (the tag and the wanted
    authentication never query). *)
Theorem X9_lookups_per_call_are_bounded :
  forall (w : collaborators) (evp : envelope) (s : state),
    (forall matches,
        (count_lookups (log (snd (ruleset_match_new w matches evp s)))
         <= count_lookups (log s) + 6 * List.length matches)%nat)
    /\
    (forall rules,
        (count_lookups (log (snd (ruleset_match w rules evp s)))
         <= count_lookups (log s) + 4 * List.length rules)%nat).
Proof.
  intros w evp s; split.
  - intros matches.
    destruct (emits_ruleset_match_new w evp matches 0 s) as (tr & E & H & _).
    unfold ruleset_match_new; rewrite E, count_lookups_app; lia.
  - intros rules.
    destruct (emits_ruleset_match w evp rules s) as (tr & E & H & _).
    rewrite E, count_lookups_app; lia.
Qed.

(** ** X10 *)

(** X10.  In [ruleset_match_new] every query the backend fails is reported
    by one warning line, and no warning is logged otherwise: in the lines a
    call appends, warnings and failed queries are equal in number.  In
    [ruleset_match] there is at most one warning for each failed query,
    and the destination table is the one that fails silently: when it
    fails, the statement ends the call with [errno = EAGAIN] having
    logged the query and nothing else. *)
Theorem X10_table_failures_and_warnings :
  forall (w : collaborators) (evp : envelope) (s : state),
    (forall matches,
        exists tr,
          log (snd (ruleset_match_new w matches evp s)) = log s ++ tr
          /\ count_warnings tr = count_failures w tr)
    /\
    (forall rules,
        exists tr,
          log (snd (ruleset_match w rules evp s)) = log s ++ tr
          /\ (count_warnings tr <= count_failures w tr)%nat)
    /\
    (forall r t,
        r_destination r = Some t ->
        table_query w (Some t) (domain (dest evp)) K_DOMAIN = BackendError ->
        rule_destination w evp r s
        = (Tempfail,
           {| errno := EAGAIN;
              log := log s ++ [EvLookup (Some t) (domain (dest evp)) K_DOMAIN]
           |})).
Proof.
  intros w evp s; split; [ | split ].
  - intros matches.
    destruct (emits_ruleset_match_new w evp matches 0 s) as (tr & E & _ & H).
    exists tr; split; [exact E | exact H].
  - intros rules.
    destruct (emits_ruleset_match w evp rules s) as (tr & E & _ & H).
    exists tr; split; [exact E | exact H].
  - intros r t Hd Hq.
    unfold rule_destination, fail_or_skip, mbind.
    rewrite Hd, table_lookup_closed, Hq; reflexivity.
Qed.

(** X10, at work: a destination table that fails, in [ruleset_match]. *)
Lemma X10_table_failures_and_warnings_witness :
  let evp := ex_envelope 0 in
  let r := {| r_tag := ""; r_nottag := false;
              r_wantauth := false; r_negwantauth := false;
              r_sources := tbl "anyhost"; r_notsources := false;
              r_senders := None; r_notsenders := false;
              r_recipients := None; r_notrecipients := false;
              r_destination := tbl "broken"; r_notdestination := false |} in
  rule_destination ex_world evp r st0
  = (Tempfail,
     {| errno := EAGAIN;
        log := [EvLookup (tbl "broken") "example.net" K_DOMAIN] |}).
Proof.
  intros evp r.
  refine (proj2 (proj2 (X10_table_failures_and_warnings ex_world evp st0))
            r {| t_name := "broken" |} _ _).
  - reflexivity.
  - reflexivity.
Defined.

(** ** X11 *)

(** X11.  When a rule whose iteration reaches [matched] stands behind
    rules that all end in no-match, the call returns it having logged the
    lines of those rules and of the rule itself, in order, and then one
    trace line naming the rule; in [ruleset_match_new] that line carries
    the one-based position of the rule in the list.  [errno] is the one
    the call started with. *)
Theorem X11_success_names_the_rule_and_its_position :
  forall (w : collaborators) (evp : envelope) (s : state),
    (forall pre m post,
        Forall (fun m' => yields (ruleset_match_new_rule w evp m') Continue)
               pre ->
        yields (ruleset_match_new_rule w evp m) Matched ->
        let s1 := snd (exec (map (ruleset_match_new_rule w evp) (pre ++ [m]))
                         s) in
        ruleset_match_new w (pre ++ m :: post) evp s
        = (Some m,
           {| errno := errno s;
              log := log s1
                     ++ [EvTraceMatchMatched (Z.of_nat (List.length pre) + 1) m]
           |}))
    /\
    (forall pre r post,
        Forall (fun r' => yields (ruleset_match_rule w evp r') Continue) pre ->
        yields (ruleset_match_rule w evp r) Matched ->
        let s1 := snd (exec (map (ruleset_match_rule w evp) (pre ++ [r])) s) in
        ruleset_match w (pre ++ r :: post) evp s
        = (Some r,
           {| errno := errno s; log := log s1 ++ [EvTraceRuleMatched r] |})).
Proof.
  intros w evp s; split.
  - intros pre m post Hpre Hm s1.
    assert (He : errno s1 = errno s).
    { subst s1; clear Hpre Hm; revert s.
      induction pre as [|p pre IH]; intros s; cbn [app map].
      - rewrite exec_one, (logging_ruleset_match_new_rule w evp m s).
        reflexivity.
      - rewrite exec_cons, IH, (logging_ruleset_match_new_rule w evp p s).
        reflexivity. }
    unfold ruleset_match_new.
    rewrite ruleset_match_new_skip, ruleset_match_new_step, (Hm _)
      by exact Hpre.
    cbv zeta; unfold logs; rewrite <- He; subst s1.
    rewrite map_app, exec_app; cbn [map]; rewrite exec_one.
    reflexivity.
  - intros pre r post Hpre Hr s1.
    assert (He : errno s1 = errno s).
    { subst s1; revert s.
      induction Hpre as [|p pre Hp _ IH]; intros s; cbn [app map].
      - rewrite exec_one, (stmt_ok_ruleset_match_rule w evp r s).
        rewrite (Hr st0 : val _ = _); reflexivity.
      - rewrite exec_cons, IH, (stmt_ok_ruleset_match_rule w evp p s).
        rewrite (Hp st0 : val _ = _); reflexivity. }
    rewrite ruleset_match_skip, ruleset_match_step, (Hr _) by exact Hpre.
    cbv zeta; unfold logs; rewrite <- He; subst s1.
    rewrite map_app, exec_app; cbn [map]; rewrite exec_one.
    reflexivity.
Qed.

(** X11, at work: the second rule of a list is returned as rule 2. *)
Lemma X11_success_names_the_rule_and_its_position_witness :
  let evp := ex_envelope 0 in
  let m1 := set_from 1 (Some "localhost") ex_match in
  let m2 := set_from 1 (Some "anyhost") ex_match in
  ruleset_match_new ex_world [m1; m2; ex_match] evp st0
  = (Some m2,
     {| errno := 0;
        log := [ EvLookup (tbl "localhost") "192.0.2.1" K_NETADDR;
                 EvLookup (tbl "anyhost") "192.0.2.1" K_NETADDR;
                 EvTraceMatchMatched 2 m2 ] |}).
Proof.
  intros evp m1 m2.
  refine (proj1 (X11_success_names_the_rule_and_its_position
                   ex_world evp st0) [m1] m2 [ex_match] _ _).
  - repeat constructor; intros s; reflexivity.
  - intros s; reflexivity.
Defined.
